(** * music21j: MIDI chord aggregation and the ProtoM21Object base class

    A shallow embedding of two source files of music21j and the properties
    their specification states about them:

    - [Miditools] embeds [music21/miditools]: the [Event] constructor, the
      chord aggregator ([makeChords], [clearOldChords], [sendOutChord]) and
      the quantizer ([quantizeLastNote]);
    - [Prebase] embeds [music21/prebase.ts]: the [classes] / [classSet]
      getters with their cache, and [clone].

    Further modules go on from these two:

    - [Quantizing] and [Window]: successive calls of the quantizer, and the
      invariants of a run of the aggregator;
    - [MidiOut]: [Event.sendToMIDIjs] and the [config.tempo] accessor;
    - [Soundfonts]: [loadSoundfont] and [postLoadCallback] as the page runs
      them, with their pending handlers and timers;
    - [Player]: the clock text of the player;
    - [ClassModel]: [isClassOrSubclass] and [toString] over the class set;
    - [Cloning]: what a shallow and a deep [clone] share with the original
      and what they leave alone.

    Conventions.  JavaScript objects live in a store and are named by their
    index in it, so that two names for one object stay aliases.  MIDI bytes
    and millisecond timestamps are integers ([Z]).  Tempo and quarter
    lengths are JavaScript numbers, that is IEEE 754 doubles ([float]), and
    the quantizer computes with the operations of the doubles, rounding
    after each one as JavaScript does.  [Date.now()] is the argument
    [nowInMs] of the function that reads the clock. *)

From Stdlib Require Import ZArith QArith Lia Ascii String Floats.
From stdpp Require Import base option list strings pretty gmap.

Local Open Scope Z_scope.

(** Errors a JavaScript [throw] can carry, as far as the sources tell them
    apart: [e instanceof TypeError] or anything else. *)
Inductive JsError : Type :=
| TypeError
| OtherError (tag : nat).

Definition instanceof_TypeError (e : JsError) : bool :=
  match e with TypeError => true | OtherError _ => false end.

(** Objects are named by their position in the store. *)
Abbreviation loc := nat (only parsing).

(* ====================================================================== *)
(** * music21/miditools *)
(* ====================================================================== *)

Module Miditools.

(** ** Data *)

(** [miditools.Event]: the four raw fields and what the constructor derives
    from them.  [midiNote] and [velocity] are [None] where the JavaScript
    property is [undefined]. *)
Record Event : Type := mkEvent {
  timing : Z;
  data1 : Z;
  data2 : Z;
  data3 : Z;
  midiCommand : Z;
  noteOff : bool;
  noteOn : bool;
  midiNote : option Z;
  velocity : option Z;
}.

(** What distinguishes a [note.Note] from a [chord.Chord]: a note has a
    pitch, whose [ps] was assigned from [Event.midiNote]; a chord has the
    notes it was built from. *)
Inductive Body : Type :=
| NoteBody (pitch_ps : option Z)
| ChordBody (notes : list loc).

(** A [note.GeneralNote] (both [Note] and [Chord] derive from it) with the
    two mutable properties the module writes: [stemDirection] and
    [duration.quarterLength]. *)
Record GeneralNote : Type := mkGeneralNote {
  stemDirection : option string;
  quarterLength : float;
  body : Body;
}.

(** [miditools.config], [miditools.callBacks.sendOutChord] and the objects
    they refer to.

    - [metronome] is [Some t] for a [Metronome] object whose [tempo] reads
      [t];
    - [callBacks_sendOutChord] tells whether the handler is defined; the
      handler belongs to the caller, so an invocation is recorded in [sent]
      (its argument, oldest first) and has no other effect here;
    - [store] holds every note and chord allocated so far. *)
Record World : Type := mkWorld {
  transposeOctave : Z;
  maxDelay : Z;
  heldChordTime : Z;
  heldChordNotes : option (list loc);
  timeOfLastNote : Z;
  lastElement : option loc;
  _baseTempo : float;
  metronome : option float;
  callBacks_sendOutChord : bool;
  store : list GeneralNote;
  sent : list loc;
}.

Definition set_heldChordTime (v : Z) (w : World) : World :=
  mkWorld (transposeOctave w) (maxDelay w) v (heldChordNotes w)
          (timeOfLastNote w) (lastElement w) (_baseTempo w) (metronome w)
          (callBacks_sendOutChord w) (store w) (sent w).

Definition set_heldChordNotes (v : option (list loc)) (w : World) : World :=
  mkWorld (transposeOctave w) (maxDelay w) (heldChordTime w) v
          (timeOfLastNote w) (lastElement w) (_baseTempo w) (metronome w)
          (callBacks_sendOutChord w) (store w) (sent w).

Definition set_timeOfLastNote (v : Z) (w : World) : World :=
  mkWorld (transposeOctave w) (maxDelay w) (heldChordTime w) (heldChordNotes w)
          v (lastElement w) (_baseTempo w) (metronome w)
          (callBacks_sendOutChord w) (store w) (sent w).

Definition set_lastElement (v : option loc) (w : World) : World :=
  mkWorld (transposeOctave w) (maxDelay w) (heldChordTime w) (heldChordNotes w)
          (timeOfLastNote w) v (_baseTempo w) (metronome w)
          (callBacks_sendOutChord w) (store w) (sent w).

Definition set_store (v : list GeneralNote) (w : World) : World :=
  mkWorld (transposeOctave w) (maxDelay w) (heldChordTime w) (heldChordNotes w)
          (timeOfLastNote w) (lastElement w) (_baseTempo w) (metronome w)
          (callBacks_sendOutChord w) v (sent w).

Definition set_sent (v : list loc) (w : World) : World :=
  mkWorld (transposeOctave w) (maxDelay w) (heldChordTime w) (heldChordNotes w)
          (timeOfLastNote w) (lastElement w) (_baseTempo w) (metronome w)
          (callBacks_sendOutChord w) (store w) v.

(** [config.tempo], the getter: the metronome's tempo when there is one,
    [_baseTempo] otherwise. *)
Definition tempo (w : World) : float :=
  match metronome w with
  | None => _baseTempo w
  | Some t => t
  end.

(** [new C(...)]: the object goes to the end of the store. *)
Definition alloc (o : GeneralNote) (w : World) : loc * World :=
  (length (store w), set_store (store w ++ [o]) w).

(** [x.stemDirection = v] *)
Definition put_stemDirection (x : loc) (v : option string) (w : World) : World :=
  set_store (alter (fun o => mkGeneralNote v (quarterLength o) (body o)) x (store w)) w.

(** [x.duration.quarterLength = v] *)
Definition put_quarterLength (x : loc) (v : float) (w : World) : World :=
  set_store (alter (fun o => mkGeneralNote (stemDirection o) v (body o)) x (store w)) w.

(** [x.pitch.ps]: defined on notes only; on anything else [x.pitch] is
    [undefined] and reading its [ps] throws. *)
Definition get_pitch_ps (x : loc) (w : World) : JsError + option Z :=
  match store w !! x with
  | Some (mkGeneralNote _ _ (NoteBody p)) => inr p
  | _ => inl TypeError
  end.

(** ** The Event constructor *)

(** [ToInt32], which [>>] applies to its left operand. *)
Definition toInt32 (z : Z) : Z := (z + 2 ^ 31) mod 2 ^ 32 - 2 ^ 31.

(** [new Event(t, a, b, c)], reading [config.transposeOctave]. *)
Definition new_Event (w : World) (t a b c : Z) : Event :=
  let midiCommand := Z.shiftr (toInt32 a) 4 in
  let noteOff := midiCommand =? 8 in
  let noteOn := midiCommand =? 9 in
  if noteOn || noteOff
  then mkEvent t a b c midiCommand noteOff noteOn
               (Some (b + 12 * transposeOctave w)) (Some c)
  else mkEvent t a b c midiCommand noteOff noteOn None None.

(** ** Numbers *)

(** An integer as a JavaScript number: itself when it is a double (every
    integer up to [2 ^ 53] in size is), the nearest double otherwise. *)
Definition number_of_Z (z : Z) : float :=
  SF2Prim (binary_normalize prec emax z 0 false).

(** The integer nearest to [(-1) ^ s * m * 2 ^ e], for [e < 0]: the floor of
    that number plus a half, so that a tie goes towards +infinity. *)
Definition nearest_integer (s : bool) (m : positive) (e : Z) : Z :=
  let n := if s then Z.neg m else Z.pos m in
  (2 * n + 2 ^ (- e)) / 2 ^ (1 - e).

(** [Math.round]: NaN, the infinities and the zeros are returned as they
    are, and so is a number with no fractional part; any other number gives
    the integer nearest to it, a tie going towards +infinity, and [-0] for
    what is rounded to zero from below. *)
Definition Math_round (x : float) : float :=
  match Prim2SF x with
  | S754_finite s m e =>
      if 0 <=? e then x
      else
        let k := nearest_integer s m e in
        if k =? 0 then (if s then neg_zero else zero) else number_of_Z k
  | _ => x
  end.

(** ** Reading the store *)

(** The pitch value of the note at [x]; [None] when [x] is not a note. *)
Definition pitch_at (st : list GeneralNote) (x : loc) : option (option Z) :=
  match st !! x with
  | Some (mkGeneralNote _ _ (NoteBody p)) => Some p
  | _ => None
  end.

(** The notes pending in [config.heldChordNotes]: none when it is
    [undefined]. *)
Definition pending (w : World) : list loc := default [] (heldChordNotes w).

(** The pitch values of the pending notes, in the order of the array;
    [None] when some entry is not a note. *)
Definition held_pitches (w : World) : option (list (option Z)) :=
  mapM (pitch_at (store w)) (pending w).

(** No two pending entries have the same pitch value. *)
Definition distinct_pitches (w : World) : Prop :=
  exists pss, held_pitches w = Some pss /\ NoDup pss.

(** The pitch values an emitted element sounds: the one of a note, those of
    the notes of a chord in the chord's order. *)
Definition element_pitches (st : list GeneralNote) (el : loc)
  : option (list (option Z)) :=
  match st !! el with
  | Some (mkGeneralNote _ _ (NoteBody p)) => Some [p]
  | Some (mkGeneralNote _ _ (ChordBody ns)) => mapM (pitch_at st) ns
  | None => None
  end.

(** ** The specification's words *)

(** The snap rules of the quantizer, in priority order: a test on the
    rounded value and the value it snaps to.  The tests are the comparisons
    of the doubles: none holds of NaN, and [-0] equals [0]. *)
Definition snap_rules : list ((float -> bool) * float) :=
  [ (fun r => (4 <=? r)%float, 4%float);
    (fun r => (3 <=? r)%float, 3%float);
    (fun r => (2 <? r)%float, 2%float);
    (fun r => (r =? 1.25)%float, 1%float);
    (fun r => (r =? 0.75)%float, 0.5%float);
    (fun r => (r =? 0)%float, 0.125%float) ].

(** The first rule whose test holds decides; the value is kept when none
    does. *)
Fixpoint first_match (rules : list ((float -> bool) * float)) (r : float) : float :=
  match rules with
  | [] => r
  | (test, v) :: rules' => if test r then v else first_match rules' r
  end.

(** The values of a list in first-seen order, later repetitions dropped. *)
Fixpoint first_seen_from (seen : list (option Z)) (l : list (option Z))
  : list (option Z) :=
  match l with
  | [] => seen
  | x :: l' =>
      if bool_decide (x ∈ seen) then first_seen_from seen l'
      else first_seen_from (seen ++ [x]) l'
  end.

Definition first_seen (l : list (option Z)) : list (option Z) :=
  first_seen_from [] l.

(** The pitch values of the note-on events of a sequence, in order of
    arrival. *)
Fixpoint noteOn_pitches (evs : list Event) : list (option Z) :=
  match evs with
  | [] => []
  | e :: evs' =>
      if noteOn e then midiNote e :: noteOn_pitches evs' else noteOn_pitches evs'
  end.

(** ** Sample inputs *)

(** The configuration the module starts with ([maxDelay] 100, tempo 60, no
    metronome, nothing held, the default handler), the clock of the load at
    0, around the given store. *)
Definition initial_world (st : list GeneralNote) : World :=
  mkWorld 0 100 0 None 0 None 60 None true st [].

(** A note of pitch 60 and a note of pitch 64, as [music21Note] leaves them
    with a constructor duration of one quarter. *)
Definition sample_store : list GeneralNote :=
  [ mkGeneralNote None 1 (NoteBody (Some 60));
    mkGeneralNote None 1 (NoteBody (Some 64)) ].

(** A chord constructor that leaves one quarter in the duration. *)
Definition one_quarter : list GeneralNote -> list loc -> float := fun _ _ => 1%float.

(** Note-ons for pitches 60, 64 and 60 again (status byte 0x90), as the
    constructor builds them. *)
Definition sample_events : list Event :=
  [ new_Event (initial_world []) 0 144 60 100;
    new_Event (initial_world []) 10 144 64 100;
    new_Event (initial_world []) 20 144 60 90 ].

Section Aggregator.

(** The sources of [note.Note], [chord.Chord] and [duration.Duration] are
    not part of this development; what a constructor leaves in
    [duration.quarterLength] is a parameter: a value for [new note.Note()],
    and for [new chord.Chord(notes)] a value that may depend on the notes
    and on what the store holds of them. *)
Variable newQuarterLength : float.
Variable chordQuarterLength : list GeneralNote -> list loc -> float.

(** Modelled from the spec: [new note.Note()] followed by
    [m21n.pitch.ps = this.midiNote] yields a fresh note-like entity whose
    pitch value is the event's note number; the [note] module itself is
    missing. *)
Definition music21Note (jEvent : Event) (w : World) : loc * World :=
  alloc (mkGeneralNote None newQuarterLength (NoteBody (midiNote jEvent))) w.

(** Modelled from the spec: [new chord.Chord(chordNoteList)] builds a single
    chord entity that contains the notes it is given, in the order given;
    the [chord] module itself is missing. *)
Definition new_Chord (chordNoteList : list loc) (w : World) : loc * World :=
  alloc (mkGeneralNote None (chordQuarterLength (store w) chordNoteList)
                       (ChordBody chordNoteList)) w.

(** ** The quantizer *)

(** The [if] / [else if] chain of [quantizeLastNote]. *)
Definition snap (roundedQuarterLength : float) : float :=
  if (4 <=? roundedQuarterLength)%float then 4
  else if (3 <=? roundedQuarterLength)%float then 3
  else if (2 <? roundedQuarterLength)%float then 2
  else if (roundedQuarterLength =? 1.25)%float then 1
  else if (roundedQuarterLength =? 0.75)%float then 0.5
  else if (roundedQuarterLength =? 0)%float then 0.125
  else roundedQuarterLength.

(** The arithmetic of [quantizeLastNote], from [msSinceLastNote] and
    [config.tempo] to the value stored in [duration.quarterLength]: two
    divisions, a multiplication, [Math.round] and a last division, each
    rounded to a double, then the snap rules. *)
Definition quantizedQuarterLength (msSinceLastNote : float) (tempo : float) : float :=
  let normalQuarterNoteLength := (1000 * 60 / tempo)%float in
  let numQuarterNotes := (msSinceLastNote / normalQuarterNoteLength)%float in
  let roundedQuarterLength := (Math_round (4 * numQuarterNotes) / 4)%float in
  snap roundedQuarterLength.

(** [nowInMS - this.timeOfLastNote], a subtraction of two numbers. *)
Definition elapsed (nowInMS timeOfLastNote : Z) : float :=
  (number_of_Z nowInMS - number_of_Z timeOfLastNote)%float.

(** What [this] is in a call of [quantizeLastNote]: [undefined] when the
    function is called by its bare name, as module code does, or [config],
    the object that carries [timeOfLastNote]. *)
Inductive Receiver : Type :=
| ThisUndefined
| ThisConfig.

(** [quantizeLastNote(lastElement)]: what the call returns or throws, and
    the world after it.  Every object of the store is a [GeneralNote], so
    the [instanceof] test holds whenever the element is defined.  Reading
    [this.timeOfLastNote] throws when [this] is [undefined]. *)
Definition quantizeLastNote (this : Receiver) (lastElement : option loc)
    (nowInMS : Z) (w : World) : (JsError + option loc) * World :=
  match lastElement with
  | None => (inr None, w)
  | Some el =>
      let w := put_stemDirection el None w in
      match this with
      | ThisUndefined => (inl TypeError, w)
      | ThisConfig =>
          let msSinceLastNote := elapsed nowInMS (timeOfLastNote w) in
          let w := set_timeOfLastNote nowInMS w in
          let roundedQuarterLength :=
            quantizedQuarterLength msSinceLastNote (tempo w) in
          let w := put_quarterLength el roundedQuarterLength w in
          (inr (Some el), w)
      end
  end.

(** ** The aggregator *)

(** [callBacks.sendOutChord(appendObject)], when the handler is defined. *)
Definition invoke_sendOutChord (appendObject : loc) (w : World) : World :=
  if callBacks_sendOutChord w then set_sent (sent w ++ [appendObject]) w else w.

(** [sendOutChord(chordNoteList)].  The call [quantizeLastNote()] is by the
    bare name and passes no argument; what it returns is not used. *)
Definition sendOutChord (chordNoteList : list loc) (nowInMS : Z) (w : World)
  : option loc * World :=
  let made :=
    match chordNoteList with
    | _ :: _ :: _ => Some (new_Chord chordNoteList w)   (* length > 1 *)
    | [n] => Some (n, w)                                 (* length === 1 *)
    | [] => None
    end in
  match made with
  | None => (None, w)
  | Some (appendObject, w) =>
      let w := put_stemDirection appendObject (Some "noStem"%string) w in
      let w := snd (quantizeLastNote ThisUndefined None nowInMS w) in
      let w := set_lastElement (Some appendObject) w in
      let w := invoke_sendOutChord appendObject w in
      (Some appendObject, w)
  end.

(** [clearOldChords()].  The result carries the delay handed to
    [setTimeout] when the function re-arms itself. *)
Definition clearOldChords (nowInMs : Z) (w : World) : World * Z :=
  let w :=
    if heldChordTime w + maxDelay w <? nowInMs then
      let w := set_heldChordTime nowInMs w in
      match heldChordNotes w with
      | Some held =>
          let w := snd (sendOutChord held nowInMs w) in
          set_heldChordNotes None w
      | None => w
      end
    else w in
  (w, maxDelay w).

(** The [for] loop of [makeChords]: [inr true] when some held note has the
    pitch of [m21n] (the loop returns from the function), [inr false] when
    the loop runs to its end.  [===] on two pitch values is equality. *)
Fixpoint find_duplicate (m21n : loc) (held : list loc) (w : World)
  : JsError + bool :=
  match held with
  | [] => inr false
  | foundNote :: held' =>
      match get_pitch_ps foundNote w with
      | inl e => inl e
      | inr found_ps =>
          match get_pitch_ps m21n w with
          | inl e => inl e
          | inr new_ps =>
              if bool_decide (found_ps = new_ps) then inr true
              else find_duplicate m21n held' w
          end
      end
  end.

(** [makeChords(jEvent)] *)
Definition makeChords (jEvent : Event) (w : World) : JsError + World :=
  if noteOn jEvent then
    let '(m21n, w) := music21Note jEvent w in
    match heldChordNotes w with
    | None => inr (set_heldChordNotes (Some [m21n]) w)
    | Some held =>
        match find_duplicate m21n held w with
        | inl e => inl e
        | inr true => inr w   (* no duplicates *)
        | inr false => inr (set_heldChordNotes (Some (held ++ [m21n])) w)
        end
    end
  else inr w.

(** What reaches the aggregator: an event from the device, or a firing of
    the timer that [clearOldChords] keeps re-arming. *)
Inductive Action : Type :=
| Incoming (jEvent : Event)
| Tick (nowInMs : Z).

Definition step (a : Action) (w : World) : JsError + World :=
  match a with
  | Incoming jEvent => makeChords jEvent w
  | Tick nowInMs => inr (fst (clearOldChords nowInMs w))
  end.

Fixpoint run (acts : list Action) (w : World) : JsError + World :=
  match acts with
  | [] => inr w
  | a :: acts' =>
      match step a w with
      | inl e => inl e
      | inr w' => run acts' w'
      end
  end.

(** ** Properties of the Event constructor *)

Lemma toInt32_small (a : Z) : - 2 ^ 31 <= a < 2 ^ 31 -> toInt32 a = a.
Proof.
  intros Ha. unfold toInt32.
  rewrite Z.mod_small by lia. lia.
Qed.

(** C6: the command of a constructed event is [a >> 4] (the top nibble of a
    status byte); note number and velocity are set exactly when the command
    is 8 or 9, to [b + 12 * transposeOctave] and [c]; otherwise both are
    left unset. *)
Theorem Event_note_fields (w : World) (t a b c : Z) :
  let e := new_Event w t a b c in
  (timing e, data1 e, data2 e, data3 e) = (t, a, b, c)
  /\ midiCommand e = Z.shiftr (toInt32 a) 4
  /\ (0 <= a < 256 -> midiCommand e = a / 16 /\ 0 <= midiCommand e < 16)
  /\ (noteOff e = true <-> midiCommand e = 8)
  /\ (noteOn e = true <-> midiCommand e = 9)
  /\ (is_Some (midiNote e) <-> midiCommand e = 8 \/ midiCommand e = 9)
  /\ (is_Some (velocity e) <-> midiCommand e = 8 \/ midiCommand e = 9)
  /\ (midiCommand e = 8 \/ midiCommand e = 9 ->
        midiNote e = Some (b + 12 * transposeOctave w) /\ velocity e = Some c)
  /\ (~ (midiCommand e = 8 \/ midiCommand e = 9) ->
        midiNote e = None /\ velocity e = None).
Proof.
  intros e. subst e. unfold new_Event.
  set (cmd := Z.shiftr (toInt32 a) 4).
  assert (Hbyte : 0 <= a < 256 -> cmd = a / 16 /\ 0 <= cmd < 16).
  { intros Ha. subst cmd. rewrite toInt32_small by lia.
    rewrite Z.shiftr_div_pow2 by lia. change (2 ^ 4) with 16.
    split; [reflexivity|].
    split; [apply Z.div_pos; lia | apply Z.div_lt_upper_bound; lia]. }
  destruct (Z.eqb_spec cmd 9) as [H9|H9]; destruct (Z.eqb_spec cmd 8) as [H8|H8];
    cbn [orb midiCommand noteOn noteOff midiNote velocity timing data1 data2 data3];
    (split; [reflexivity|]); (split; [reflexivity|]); (split; [exact Hbyte|]);
    rewrite ?is_Some_alt; intuition (try lia; try congruence).
Qed.

(** ** Properties of the flush *)

(** The call [quantizeLastNote()] of [sendOutChord] passes no element: it
    returns at once, and nothing of the configuration or the store has
    changed. *)
Lemma quantizeLastNote_undefined (this : Receiver) (nowInMS : Z) (w : World) :
  quantizeLastNote this None nowInMS w = (inr None, w).
Proof. reflexivity. Qed.

Lemma invoke_sendOutChord_sent (el : loc) (w : World) :
  sent (invoke_sendOutChord el w)
  = sent w ++ (if callBacks_sendOutChord w then [el] else []).
Proof.
  unfold invoke_sendOutChord.
  destruct (callBacks_sendOutChord w); cbn; [reflexivity|].
  symmetry; apply app_nil_r.
Qed.

(** The handler, defined or not, touches nothing but the record of its
    invocations. *)
Ltac handler_cases w :=
  unfold invoke_sendOutChord; destruct (callBacks_sendOutChord w); reflexivity.

Lemma invoke_sendOutChord_store (el : loc) (w : World) :
  store (invoke_sendOutChord el w) = store w.
Proof. handler_cases w. Qed.

Lemma invoke_sendOutChord_lastElement (el : loc) (w : World) :
  lastElement (invoke_sendOutChord el w) = lastElement w.
Proof. handler_cases w. Qed.

(** C10: on an empty list [sendOutChord] returns [undefined] and changes
    nothing: the handler is not invoked, [lastElement] and the quantizer's
    [timeOfLastNote] keep their values. *)
Theorem sendOutChord_empty (nowInMS : Z) (w : World) :
  let '(result, w') := sendOutChord [] nowInMS w in
  result = None
  /\ sent w' = sent w
  /\ lastElement w' = lastElement w
  /\ timeOfLastNote w' = timeOfLastNote w
  /\ w' = w.
Proof. cbn. repeat split. Qed.

Lemma invoke_sendOutChord_timeOfLastNote (el : loc) (w : World) :
  timeOfLastNote (invoke_sendOutChord el w) = timeOfLastNote w.
Proof. handler_cases w. Qed.

(** C1 (as amended): [sendOutChord] does not hand the element it emits to
    the quantizer, so the flush does not set the duration of that element:
    a lone note is emitted with the quarter length it had, a chord with the
    one its constructor gave it, and the quantizer's [timeOfLastNote] is
    not moved.  The element is recorded as [lastElement] and handed once to
    the [sendOutChord] handler, when one is defined. *)
Theorem sendOutChord_leaves_duration
    (nowInMS : Z) (w : World) (n : loc) (rest : list loc) :
  let '(result, w') := sendOutChord (n :: rest) nowInMS w in
  exists el,
    result = Some el
    /\ lastElement w' = Some el
    /\ sent w' = sent w ++ (if callBacks_sendOutChord w then [el] else [])
    /\ timeOfLastNote w' = timeOfLastNote w
    /\ quarterLength <$> store w' !! el
       = match rest with
         | [] => quarterLength <$> store w !! n
         | _ :: _ => Some (chordQuarterLength (store w) (n :: rest))
         end.
Proof.
  destruct rest as [|m rest];
    cbn [sendOutChord new_Chord alloc snd quantizeLastNote];
    eexists; (split; [reflexivity|]);
    rewrite invoke_sendOutChord_store, invoke_sendOutChord_lastElement,
      invoke_sendOutChord_sent, invoke_sendOutChord_timeOfLastNote; cbn.
  - repeat split.
    rewrite list_lookup_alter_eq. destruct (store w !! n); reflexivity.
  - repeat split.
    rewrite list_lookup_alter_eq, lookup_app_r by lia.
    rewrite Nat.sub_diag. reflexivity.
Qed.

(** ** Properties of the timeout check *)

(** C5 (as amended): a tick at which nothing is pending emits nothing and
    leaves the store, [lastElement], [timeOfLastNote] and the pending notes
    as they were; [heldChordTime] advances to the time of the tick when
    [heldChordTime + maxDelay] lies before it, and keeps its value
    otherwise.  The timer is re-armed with [maxDelay]. *)
Theorem clearOldChords_nothing_pending (nowInMs : Z) (w : World) :
  pending w = [] ->
  let '(w', delay) := clearOldChords nowInMs w in
  sent w' = sent w
  /\ store w' = store w
  /\ lastElement w' = lastElement w
  /\ timeOfLastNote w' = timeOfLastNote w
  /\ pending w' = []
  /\ heldChordTime w'
     = (if heldChordTime w + maxDelay w <? nowInMs then nowInMs
        else heldChordTime w)
  /\ (heldChordNotes w = None ->
      w' = if heldChordTime w + maxDelay w <? nowInMs
           then set_heldChordTime nowInMs w else w)
  /\ delay = maxDelay w.
Proof.
  unfold pending, clearOldChords. intros Hp.
  destruct (heldChordTime w + maxDelay w <? nowInMs) eqn:Hexp.
  - destruct (heldChordNotes w) as [held|] eqn:Hh; cbn in Hp; subst;
      cbn; rewrite ?Hh; cbn; repeat split; rewrite ?Hh; try discriminate; reflexivity.
  - cbn. rewrite Hp. repeat split.
Qed.

(** ** Properties of the quantizer *)

(** Called by its bare name with an element, the quantizer clears the stem
    direction and then throws on [this.timeOfLastNote]. *)
Example quantizeLastNote_bare_call (el : loc) (nowInMS : Z) (w : World) :
  quantizeLastNote ThisUndefined (Some el) nowInMS w
  = (inl TypeError, put_stemDirection el None w).
Proof. reflexivity. Qed.

(** The integer [Math.round] picks is within one half of the number, a tie
    going up: for [n * 2 ^ e] with [e < 0] it is the [k] with
    [k - 1/2 <= n * 2 ^ e < k + 1/2]. *)
Lemma nearest_integer_spec (s : bool) (m : positive) (e : Z) :
  e < 0 ->
  let n := if s then Z.neg m else Z.pos m in
  let k := nearest_integer s m e in
  (2 * k - 1) * 2 ^ (- e) <= 2 * n < (2 * k + 1) * 2 ^ (- e).
Proof.
  intros He n k. subst k. unfold nearest_integer. fold n.
  replace (1 - e) with (Z.succ (- e)) by lia.
  rewrite Z.pow_succ_r by lia.
  assert (0 < 2 ^ (- e)) as Hd by (apply Z.pow_pos_nonneg; lia).
  set (d := 2 ^ (- e)) in *. clearbody d.
  pose proof (Z.div_mod (2 * n + d) (2 * d) ltac:(lia)) as Hdiv.
  pose proof (Z.mod_pos_bound (2 * n + d) (2 * d) ltac:(lia)) as Hmod.
  set (k := (2 * n + d) / (2 * d)) in *. clearbody k.
  nia.
Qed.

(** [Math.round] at and around a tie. *)
Example Math_round_samples :
  [ Math_round 2.5; Math_round (-2.5); Math_round 3.5;
    Math_round 0x1.bffffffffffffp+1; Math_round 0x1.fffffffffffffp-2;
    Math_round (-0.5); Math_round 7; Math_round infinity ]%float
  = [ 3; -2; 4; 3; 0; -0; 7; infinity ]%float.
Proof. reflexivity. Qed.

(** The [if] chain is the rule list read in priority order. *)
Lemma snap_first_match (r : float) : snap r = first_match snap_rules r.
Proof. reflexivity. Qed.



(** ** Properties of the collection window *)

Lemma get_pitch_ps_pitch_at (x : loc) (w : World) :
  get_pitch_ps x w
  = match pitch_at (store w) x with Some p => inr p | None => inl TypeError end.
Proof.
  unfold get_pitch_ps, pitch_at.
  destruct (store w !! x) as [[sd ql [p|ns]]|]; reflexivity.
Qed.

(** Allocation leaves the pitch of every existing note in place. *)
Lemma pitch_at_app (st ext : list GeneralNote) (x : loc) (p : option Z) :
  pitch_at st x = Some p -> pitch_at (st ++ ext) x = Some p.
Proof.
  unfold pitch_at. intros Hx.
  destruct (st !! x) as [o|] eqn:Ex; [|discriminate].
  rewrite (lookup_app_l_Some _ _ _ _ Ex). exact Hx.
Qed.

Lemma pitch_at_new (st : list GeneralNote) (sd : option string) (ql : float)
    (p : option Z) :
  pitch_at (st ++ [mkGeneralNote sd ql (NoteBody p)]) (length st) = Some p.
Proof. unfold pitch_at. rewrite list_lookup_middle; reflexivity. Qed.

Lemma pitches_app (st ext : list GeneralNote) (held : list loc)
    (pss : list (option Z)) :
  mapM (pitch_at st) held = Some pss -> mapM (pitch_at (st ++ ext)) held = Some pss.
Proof.
  rewrite !mapM_Some. intros Hall.
  induction Hall as [|x y held pss Hxy _ IH]; constructor; auto using pitch_at_app.
Qed.

(** The loop of [makeChords] answers whether the new pitch is among the
    pending ones. *)
Lemma find_duplicate_spec (m21n : loc) (held : list loc) (w : World)
    (pss : list (option Z)) (p : option Z) :
  mapM (pitch_at (store w)) held = Some pss ->
  pitch_at (store w) m21n = Some p ->
  find_duplicate m21n held w = inr (bool_decide (p ∈ pss)).
Proof.
  rewrite mapM_Some. intros Hall Hm.
  induction Hall as [|x y held pss Hxy _ IH]; cbn [find_duplicate].
  - rewrite bool_decide_eq_false_2; [reflexivity|]. apply not_elem_of_nil.
  - rewrite !get_pitch_ps_pitch_at, Hxy, Hm.
    destruct (bool_decide_reflect (y = p)) as [->|Hne].
    + rewrite bool_decide_eq_true_2; [reflexivity|]. apply elem_of_cons; auto.
    + rewrite IH. f_equal. apply bool_decide_ext.
      rewrite elem_of_cons. split; [auto|]. intros [->|Hin]; [congruence|exact Hin].
Qed.

(** What [makeChords] does with a note-on: the note is allocated; it joins
    the pending notes unless its pitch is already among theirs. *)
Lemma makeChords_noteOn (jEvent : Event) (w : World) (pss : list (option Z)) :
  noteOn jEvent = true ->
  held_pitches w = Some pss ->
  exists w',
    makeChords jEvent w = inr w'
    /\ heldChordNotes w'
       = (if bool_decide (midiNote jEvent ∈ pss) then heldChordNotes w
          else Some (pending w ++ [length (store w)]))
    /\ held_pitches w'
       = Some (if bool_decide (midiNote jEvent ∈ pss) then pss
               else pss ++ [midiNote jEvent])
    /\ sent w' = sent w
    /\ lastElement w' = lastElement w
    /\ timeOfLastNote w' = timeOfLastNote w
    /\ heldChordTime w' = heldChordTime w.
Proof.
  intros Hon Hps. unfold makeChords. rewrite Hon.
  unfold held_pitches, pending in *.
  cbn [music21Note alloc heldChordNotes set_store].
  destruct (heldChordNotes w) as [held|] eqn:Hheld; cbn [default] in *.
  - erewrite find_duplicate_spec;
      [ | cbn [store set_store]; apply pitches_app; exact Hps
        | cbn [store set_store]; apply pitch_at_new ].
    destruct (bool_decide_reflect (midiNote jEvent ∈ pss)) as [Hin|Hnin].
    + eexists; split; [reflexivity|]. cbn. rewrite Hheld. cbn.
      repeat split. apply pitches_app; exact Hps.
    + eexists; split; [reflexivity|]. cbn.
      repeat split. apply mapM_Some, Forall2_app.
      * apply mapM_Some, pitches_app; exact Hps.
      * constructor; [apply pitch_at_new|constructor].
  - cbn in Hps. injection Hps as <-.
    rewrite bool_decide_eq_false_2 by apply not_elem_of_nil.
    eexists; split; [reflexivity|]. cbn.
    repeat split. rewrite pitch_at_new. reflexivity.
Qed.

Lemma makeChords_ignores (jEvent : Event) (w : World) :
  noteOn jEvent = false -> makeChords jEvent w = inr w.
Proof. intros Hoff. unfold makeChords. rewrite Hoff. reflexivity. Qed.

Lemma makeChords_distinct (jEvent : Event) (w : World) :
  distinct_pitches w ->
  exists w', makeChords jEvent w = inr w' /\ distinct_pitches w'.
Proof.
  intros (pss & Hps & Hnd).
  destruct (noteOn jEvent) eqn:Hon.
  - destruct (makeChords_noteOn jEvent w pss Hon Hps) as (w' & Hrun & _ & Hps' & _).
    exists w'. split; [exact Hrun|].
    eexists; split; [exact Hps'|].
    destruct (bool_decide_reflect (midiNote jEvent ∈ pss)) as [Hin|Hnin]; [exact Hnd|].
    apply NoDup_app. split; [exact Hnd|]. split; [|apply NoDup_singleton].
    intros x Hx Hx'. apply list_elem_of_singleton in Hx'. congruence.
  - exists w. split; [apply makeChords_ignores; exact Hon|].
    exists pss; auto.
Qed.

Lemma clearOldChords_distinct (nowInMs : Z) (w : World) :
  distinct_pitches w -> distinct_pitches (fst (clearOldChords nowInMs w)).
Proof.
  intros Hd. unfold clearOldChords.
  destruct (heldChordTime w + maxDelay w <? nowInMs); [|exact Hd].
  cbn [fst heldChordNotes set_heldChordTime].
  destruct (heldChordNotes w) as [held|] eqn:Hheld.
  - exists []. split; [reflexivity|constructor].
  - destruct Hd as (pss & Hps & Hnd). exists pss. split; [|exact Hnd].
    unfold held_pitches, pending in *. cbn. rewrite Hheld in *. exact Hps.
Qed.

Lemma run_distinct (acts : list Action) :
  forall w, distinct_pitches w ->
  exists w', run acts w = inr w' /\ distinct_pitches w'.
Proof.
  induction acts as [|a acts IH]; intros w Hd; cbn [run].
  - exists w; auto.
  - destruct a as [jEvent|nowInMs]; cbn [step].
    + destruct (makeChords_distinct jEvent w Hd) as (w1 & -> & Hd1). auto.
    + apply IH, clearOldChords_distinct, Hd.
Qed.

(** C3: through any sequence of incoming events and timer ticks, started
    where no two pending notes share a pitch (as when nothing is pending),
    [makeChords] never throws and the pending notes never hold one pitch
    value twice; a note-on whose pitch is already pending is dropped: the
    call returns normally and [heldChordNotes] is what it was. *)
Theorem makeChords_no_duplicate_pitch (w : World) (acts : list Action) :
  distinct_pitches w ->
  (exists w', run acts w = inr w' /\ distinct_pitches w')
  /\ (forall jEvent pss,
        noteOn jEvent = true ->
        held_pitches w = Some pss ->
        midiNote jEvent ∈ pss ->
        exists w',
          makeChords jEvent w = inr w'
          /\ heldChordNotes w' = heldChordNotes w
          /\ held_pitches w' = Some pss
          /\ sent w' = sent w).
Proof.
  intros Hd. split; [apply run_distinct; exact Hd|].
  intros jEvent pss Hon Hps Hin.
  destruct (makeChords_noteOn jEvent w pss Hon Hps)
    as (w' & Hrun & Hheld & Hps' & Hsent & _).
  rewrite bool_decide_eq_true_2 in Hheld, Hps' by exact Hin.
  exists w'. auto.
Qed.

(** The pitches an emitted element sounds are those of the list it was
    made from: of the note itself, whose stem direction alone has changed,
    or of the notes of the new chord. *)
Lemma element_pitches_lone (st : list GeneralNote) (n : loc)
    (sd : option string) (pss : list (option Z)) :
  mapM (pitch_at st) [n] = Some pss ->
  element_pitches
    (alter (fun o => mkGeneralNote sd (quarterLength o) (body o)) n st) n
  = Some pss.
Proof.
  intros Hps. apply mapM_Some in Hps.
  inversion Hps as [|x y l k Hn Hnil]; subst. inversion Hnil; subst.
  unfold element_pitches. rewrite list_lookup_alter_eq.
  unfold pitch_at in Hn.
  destruct (st !! n) as [[sd0 ql [p|ns]]|]; cbn; congruence.
Qed.

Lemma element_pitches_chord (st : list GeneralNote) (l : list loc)
    (sd : option string) (ql : float) (pss : list (option Z)) :
  mapM (pitch_at st) l = Some pss ->
  element_pitches (st ++ [mkGeneralNote sd ql (ChordBody l)]) (length st)
  = Some pss.
Proof.
  intros Hps. unfold element_pitches.
  rewrite list_lookup_middle by reflexivity.
  apply pitches_app. exact Hps.
Qed.

(** Marking the new chord leaves it at the end of the store. *)
Lemma alter_new (st : list GeneralNote) (o : GeneralNote)
    (f : GeneralNote -> GeneralNote) :
  alter f (length st) (st ++ [o]) = st ++ [f o].
Proof. rewrite alter_app_r_alt by lia. rewrite Nat.sub_diag. reflexivity. Qed.

(** A flush hands one element to the handler, and the element sounds the
    pitches of the list. *)
Lemma sendOutChord_pitches (nowInMS : Z) (w : World) (n : loc) (rest : list loc)
    (pss : list (option Z)) :
  mapM (pitch_at (store w)) (n :: rest) = Some pss ->
  exists el w',
    sendOutChord (n :: rest) nowInMS w = (Some el, w')
    /\ sent w' = sent w ++ (if callBacks_sendOutChord w then [el] else [])
    /\ element_pitches (store w') el = Some pss.
Proof.
  intros Hps.
  destruct rest as [|m rest];
    cbn [sendOutChord new_Chord alloc snd quantizeLastNote];
    eexists _, _; (split; [reflexivity|]);
    rewrite invoke_sendOutChord_sent, invoke_sendOutChord_store;
    cbn [sent store set_lastElement put_stemDirection set_store
         callBacks_sendOutChord];
    (split; [reflexivity|]).
  - apply element_pitches_lone, Hps.
  - rewrite alter_new. apply element_pitches_chord, Hps.
Qed.

Lemma makeChords_frame (jEvent : Event) (w w' : World) :
  makeChords jEvent w = inr w' ->
  maxDelay w' = maxDelay w
  /\ heldChordTime w' = heldChordTime w
  /\ callBacks_sendOutChord w' = callBacks_sendOutChord w
  /\ sent w' = sent w.
Proof.
  unfold makeChords.
  destruct (noteOn jEvent); cbn [music21Note alloc heldChordNotes set_store];
    [|intros [= <-]; auto].
  destruct (heldChordNotes w); [|intros [= <-]; auto].
  destruct (find_duplicate _ _ _) as [e|[|]]; [discriminate| |];
    intros [= <-]; auto.
Qed.

Lemma first_seen_from_NoDup (l seen : list (option Z)) :
  NoDup seen -> NoDup (first_seen_from seen l).
Proof.
  revert seen. induction l as [|x l IH]; intros seen Hnd; cbn; [exact Hnd|].
  destruct (bool_decide_reflect (x ∈ seen)) as [Hin|Hnin]; apply IH; [exact Hnd|].
  apply NoDup_app. split; [exact Hnd|]. split; [|apply NoDup_singleton].
  intros y Hy Hy'. apply list_elem_of_singleton in Hy'. congruence.
Qed.

Lemma first_seen_from_nil (l seen : list (option Z)) :
  first_seen_from seen l = [] -> seen = [] /\ l = [].
Proof.
  revert seen. induction l as [|x l IH]; intros seen; cbn; [auto|].
  destruct (bool_decide_reflect (x ∈ seen)) as [Hin|Hnin]; intros Hnil.
  - destruct (IH _ Hnil) as [-> _]. apply elem_of_nil in Hin. contradiction.
  - destruct (IH _ Hnil) as [Hsnoc _]. destruct seen; discriminate.
Qed.

(** The pending pitches after a run of incoming events are those pending
    before, then the new note-on pitches in first-seen order. *)
Lemma run_incoming (evs : list Event) :
  forall (w : World) (pss : list (option Z)),
  held_pitches w = Some pss ->
  exists w1,
    run (Incoming <$> evs) w = inr w1
    /\ held_pitches w1 = Some (first_seen_from pss (noteOn_pitches evs))
    /\ maxDelay w1 = maxDelay w
    /\ heldChordTime w1 = heldChordTime w
    /\ callBacks_sendOutChord w1 = callBacks_sendOutChord w
    /\ sent w1 = sent w.
Proof.
  induction evs as [|e evs IH]; intros w pss Hps; cbn [fmap list_fmap run step noteOn_pitches].
  - exists w. cbn. auto 10.
  - destruct (noteOn e) eqn:Hon.
    + destruct (makeChords_noteOn e w pss Hon Hps) as (w' & Hrun & _ & Hps' & _).
      destruct (makeChords_frame _ _ _ Hrun) as (Hmd & Hht & Hcb & Hsent).
      rewrite Hrun. cbn [first_seen_from].
      destruct (IH w' _ Hps') as (w1 & Hrun1 & Hps1 & Hmd1 & Hht1 & Hcb1 & Hsent1).
      exists w1. split; [exact Hrun1|].
      split; [rewrite Hps1; destruct (bool_decide _); reflexivity|].
      repeat split; congruence.
    + rewrite (makeChords_ignores e w Hon). apply IH, Hps.
Qed.

(** X1: the collection window, end to end: note-ons arrive while nothing has
    been flushed, then the timer fires after the window has expired.  One
    element is emitted, and it sounds the pitches of the note-ons in
    first-seen order, each once. *)
Theorem window_emits_first_seen (w : World) (evs : list Event) (nowInMs : Z) :
  heldChordNotes w = None ->
  noteOn_pitches evs <> [] ->
  heldChordTime w + maxDelay w < nowInMs ->
  exists w2 el,
    run ((Incoming <$> evs) ++ [Tick nowInMs]) w = inr w2
    /\ sent w2 = sent w ++ (if callBacks_sendOutChord w then [el] else [])
    /\ element_pitches (store w2) el = Some (first_seen (noteOn_pitches evs))
    /\ NoDup (first_seen (noteOn_pitches evs))
    /\ heldChordNotes w2 = None.
Proof.
  intros Hnone Hsome Hexp.
  assert (Hps : held_pitches w = Some []).
  { unfold held_pitches, pending. rewrite Hnone. reflexivity. }
  destruct (run_incoming evs w [] Hps) as (w1 & Hrun & Hps1 & Hmd & Hht & Hcb & Hsent).
  assert (Hrun2 : forall acts, run ((Incoming <$> evs) ++ acts) w = run acts w1).
  { clear -Hrun. revert w Hrun.
    induction (Incoming <$> evs) as [|a l IH]; intros w Hrun acts; cbn in *.
    - congruence.
    - destruct (step a w); [discriminate|]. apply IH, Hrun. }
  rewrite Hrun2. cbn [run step]. unfold clearOldChords.
  rewrite Hmd, Hht. rewrite (proj2 (Z.ltb_lt _ _) Hexp).
  cbn [heldChordNotes set_heldChordTime].
  unfold held_pitches, pending in Hps1.
  destruct (heldChordNotes w1) as [[|n rest]|] eqn:Hheld; cbn [default] in Hps1;
    try (exfalso; cbn in Hps1; injection Hps1 as Hnil; symmetry in Hnil;
         apply first_seen_from_nil in Hnil; tauto).
  destruct (sendOutChord_pitches nowInMs (set_heldChordTime nowInMs w1) n rest
              _ Hps1) as (el & w2 & -> & Hsent2 & Hpitches).
  eexists _, el. split; [reflexivity|]. cbn [fst snd].
  split; [cbn in *; rewrite Hsent2, Hsent, Hcb; reflexivity|].
  split; [exact Hpitches|].
  split; [apply first_seen_from_NoDup; constructor|reflexivity].
Qed.

(** C4: on a non-empty list [sendOutChord] emits exactly one element (one
    invocation of the handler, with the element it returns).  For two or
    more entries the element is one new chord whose notes are the entries
    of the list, each once and in the order of the list; for one entry it is
    that note itself, and no chord is allocated. *)
Theorem sendOutChord_emits_one (nowInMS : Z) (w : World) (n : loc) (rest : list loc) :
  let chordNoteList := n :: rest in
  let '(result, w') := sendOutChord chordNoteList nowInMS w in
  exists el,
    result = Some el
    /\ sent w' = sent w ++ (if callBacks_sendOutChord w then [el] else [])
    /\ lastElement w' = Some el
    /\ match rest with
       | [] =>
           el = n
           /\ store w' =
                alter (fun o => mkGeneralNote (Some "noStem"%string)
                                              (quarterLength o) (body o))
                      n (store w)
       | _ :: _ =>
           el = length (store w)
           /\ store w' =
                store w ++ [mkGeneralNote (Some "noStem"%string)
                                          (chordQuarterLength (store w) chordNoteList)
                                          (ChordBody chordNoteList)]
       end
    /\ (forall pss, mapM (pitch_at (store w)) chordNoteList = Some pss ->
                    element_pitches (store w') el = Some pss).
Proof.
  destruct rest as [|m rest];
    cbn [sendOutChord new_Chord alloc snd quantizeLastNote];
    eexists; (split; [reflexivity|]);
    rewrite invoke_sendOutChord_sent, invoke_sendOutChord_store,
      invoke_sendOutChord_lastElement;
    cbn [sent store lastElement set_lastElement put_stemDirection set_store].
  - repeat split.
    intros pss Hps. apply element_pitches_lone, Hps.
  - rewrite alter_new. repeat split.
    intros pss Hps. apply element_pitches_chord, Hps.
Qed.

End Aggregator.

(** ** The properties at sample inputs *)

(** Three note-ons, the third repeating the first pitch: two notes are
    pending, three were allocated. *)
Example run_sample_events :
  exists w',
    run 1 one_quarter (Incoming <$> sample_events) (initial_world []) = inr w'
    /\ heldChordNotes w' = Some [0%nat; 1%nat]
    /\ held_pitches w' = Some [Some 60; Some 64]
    /\ length (store w') = 3%nat.
Proof. eexists. split; [vm_compute; reflexivity|]. repeat split. Qed.

Lemma Event_note_fields_witness :
  midiNote (new_Event (initial_world []) 0 144 60 100) = Some 60
  /\ velocity (new_Event (initial_world []) 0 144 60 100) = Some 100
  /\ midiCommand (new_Event (initial_world []) 0 144 60 100) = 144 / 16.
Proof.
  pose proof (Event_note_fields (initial_world []) 0 144 60 100) as H.
  cbv zeta in H.
  destruct H as (_ & _ & Hbyte & _ & _ & _ & _ & Hset & _).
  destruct (Hbyte ltac:(lia)) as [Hcmd _].
  destruct (Hset (or_intror eq_refl)) as [Hnote Hvel].
  exact (conj Hnote (conj Hvel Hcmd)).
Defined.


Lemma makeChords_no_duplicate_pitch_witness :
  distinct_pitches (initial_world [])
  /\ exists w',
       run 1 one_quarter (Incoming <$> sample_events) (initial_world []) = inr w'
       /\ distinct_pitches w'.
Proof.
  assert (Hd : distinct_pitches (initial_world [])).
  { exists []. split; [reflexivity|constructor]. }
  split; [exact Hd|].
  exact (proj1 (makeChords_no_duplicate_pitch 1 one_quarter (initial_world [])
                  (Incoming <$> sample_events) Hd)).
Defined.

Lemma clearOldChords_nothing_pending_witness :
  pending (initial_world sample_store) = []
  /\ heldChordTime (fst (clearOldChords one_quarter 1000 (initial_world sample_store))) = 1000
  /\ sent (fst (clearOldChords one_quarter 1000 (initial_world sample_store))) = [].
Proof.
  split; [reflexivity|].
  pose proof (clearOldChords_nothing_pending one_quarter 1000 (initial_world sample_store)
                eq_refl) as H.
  destruct (clearOldChords one_quarter 1000 (initial_world sample_store)) as [w' delay].
  destruct H as (Hsent & _ & _ & _ & _ & Htime & _).
  exact (conj Htime Hsent).
Defined.

Lemma sendOutChord_emits_one_witness :
  mapM (pitch_at sample_store) [0%nat; 1%nat] = Some [Some 60; Some 64]
  /\ exists el w',
       sendOutChord one_quarter [0%nat; 1%nat] 1000 (initial_world sample_store)
       = (Some el, w')
       /\ sent w' = [el]
       /\ element_pitches (store w') el = Some [Some 60; Some 64].
Proof.
  split; [reflexivity|].
  pose proof (sendOutChord_emits_one one_quarter 1000 (initial_world sample_store)
                0%nat [1%nat]) as H.
  cbv zeta in H.
  destruct (sendOutChord one_quarter [0%nat; 1%nat] 1000 (initial_world sample_store))
    as [result w'].
  destruct H as (el & -> & Hsent & _ & _ & Hpitches).
  exists el, w'. split; [reflexivity|].
  split; [exact Hsent|]. apply Hpitches. reflexivity.
Defined.

Lemma window_emits_first_seen_witness :
  exists w2 el,
    run 1 one_quarter ((Incoming <$> sample_events) ++ [Tick 1000]) (initial_world []) = inr w2
    /\ sent w2 = [el]
    /\ element_pitches (store w2) el = Some [Some 60; Some 64].
Proof.
  destruct (window_emits_first_seen 1 one_quarter (initial_world []) sample_events 1000
              eq_refl ltac:(discriminate) ltac:(reflexivity))
    as (w2 & el & Hrun & Hsent & Hps & _).
  exists w2, el. auto.
Defined.

(** C1, as stated, fails: a lone note of one quarter, flushed 2000 ms after
    the last note at tempo 60, would be quantized to two quarters; it is
    emitted with the one quarter it had. *)
Lemma sendOutChord_not_quantized :
  ~ (forall (chordQuarterLength : list GeneralNote -> list loc -> float)
            (nowInMS : Z) (w : World)
            (chordNoteList : list loc) (el : loc) (w' : World),
        sendOutChord chordQuarterLength chordNoteList nowInMS w = (Some el, w') ->
        exists o,
          store w' !! el = Some o
          /\ quarterLength o
             = quantizedQuarterLength (elapsed nowInMS (timeOfLastNote w)) (tempo w)).
Proof.
  intros Hclaim.
  destruct (Hclaim one_quarter 2000 (initial_world sample_store) [0%nat] 0%nat _ eq_refl)
    as (o & Ho & Hq).
  cbn in Ho. injection Ho as <-.
  vm_compute in Hq. discriminate Hq.
Qed.


(** C5, as stated, fails: nothing is pending, the module has been loaded
    for a second, and the tick moves [heldChordTime] from 0 to 1000. *)
Lemma clearOldChords_advances_heldChordTime :
  ~ (forall (chordQuarterLength : list GeneralNote -> list loc -> float)
            (nowInMs : Z) (w : World),
        heldChordNotes w = None ->
        fst (clearOldChords chordQuarterLength nowInMs w) = w).
Proof.
  intros Hclaim.
  specialize (Hclaim one_quarter 1000 (initial_world []) eq_refl).
  vm_compute in Hclaim. discriminate Hclaim.
Qed.

End Miditools.

(* ====================================================================== *)
(** * music21/prebase.ts *)
(* ====================================================================== *)

Module Prebase.

(** ** Constructors and class names *)

(** A constructor function, by what the walk of [_populateClassCaches] can
    see of it: the static [className] it declares itself, if any, and the
    constructor it extends ([Object.getPrototypeOf]).  The chain of a class
    ends in [Function.prototype], which declares no [className].  A
    prototype chain has no cycle. *)
Inductive Ctor : Type :=
| FunctionPrototype
| Class (own_className : option string) (extends : Ctor).

(** [thisConstructor.className]: a static property, looked up along the
    chain; [None] is [undefined]. *)
Fixpoint className (c : Ctor) : option string :=
  match c with
  | FunctionPrototype => None
  | Class (Some name) _ => Some name
  | Class None extends => className extends
  end.

(** [s.lastIndexOf('.')], counted from the start of [s]; [-1] when [s] has
    no dot. *)
Fixpoint lastIndexOf_dot (s : string) : Z :=
  match s with
  | EmptyString => -1
  | String c s' =>
      let i := lastIndexOf_dot s' in
      if 0 <=? i then i + 1
      else if Ascii.eqb c "."%char then 0
      else -1
  end.

(** [s.slice(start)] for [0 <= start]. *)
Definition slice_from (start : Z) (s : string) : string :=
  String.substring (Z.to_nat start) (String.length s - Z.to_nat start) s.

(** [constructorName.slice(constructorName.lastIndexOf('.') + 1)] *)
Definition shortName (constructorName : string) : string :=
  slice_from (lastIndexOf_dot constructorName + 1) constructorName.

(** An element of [classSet]: a constructor or a name. *)
Inductive ClassKey : Type :=
| KCtor (c : Ctor)
| KName (s : string).

#[global] Instance Ctor_eq_dec : EqDecision Ctor.
Proof. solve_decision. Defined.

#[global] Instance ClassKey_eq_dec : EqDecision ClassKey.
Proof. solve_decision. Defined.

(** [Set.prototype.add]: insertion order, no repetition. *)
Definition Set_add (k : ClassKey) (s : list ClassKey) : list ClassKey :=
  if bool_decide (k ∈ s) then s else s ++ [k].

(** The part of an instance the two getters read and write: its
    constructor and the two caches, [None] while [undefined]. *)
Record Instance : Type := mkInstance {
  constructor : Ctor;
  _storedClasses : option (list string);
  _storedClassSet : option (list ClassKey);
}.

(** The [while] loop of [_populateClassCaches]; [maxLinks] counts down from
    20.  At [Function.prototype] the name is [undefined] and the loop
    breaks, so the walk never looks above it. *)
Fixpoint walk (maxLinks : nat) (thisConstructor : Ctor)
    (classList : list string) (classSet : list ClassKey)
  : list string * list ClassKey :=
  match maxLinks with
  | O => (classList, classSet)
  | S maxLinks =>
      match className thisConstructor with
      | None => (classList, classSet)
      | Some constructorName =>
          if String.eqb constructorName "" then (classList, classSet)
          else
            let constructorNameShort := shortName constructorName in
            let classList := classList ++ [constructorNameShort] in
            let classSet := Set_add (KCtor thisConstructor) classSet in
            let classSet := Set_add (KName constructorName) classSet in
            let classSet := Set_add (KName constructorNameShort) classSet in
            match thisConstructor with
            | Class _ extends => walk maxLinks extends classList classSet
            | FunctionPrototype => (classList, classSet)
            end
      end
  end.

(** [_populateClassCaches()] *)
Definition _populateClassCaches (this : Instance) : Instance :=
  let '(classList, classSet) := walk 20 (constructor this) [] [] in
  let classList := classList ++ ["object"%string] in
  mkInstance (constructor this) (Some classList) (Some classSet).

(** [get classes()]: the value and the instance after the access. *)
Definition classes (this : Instance) : option (list string) * Instance :=
  match _storedClasses this with
  | Some stored => (Some stored, this)
  | None =>
      let this := _populateClassCaches this in
      (_storedClasses this, this)
  end.

(** [get classSet()] *)
Definition classSet (this : Instance) : option (list ClassKey) * Instance :=
  match _storedClassSet this with
  | Some stored => (Some stored, this)
  | None =>
      let this := _populateClassCaches this in
      (_storedClassSet this, this)
  end.

(** ** The specification's words for [classes] *)






(** ** Sample classes *)

Definition ProtoM21Object : Ctor :=
  Class (Some "music21.prebase.ProtoM21Object"%string) FunctionPrototype.

Definition Music21Object : Ctor :=
  Class (Some "music21.base.Music21Object"%string) ProtoM21Object.

Definition Expression : Ctor :=
  Class (Some "music21.expressions.Expression"%string) Music21Object.

Definition Fermata : Ctor :=
  Class (Some "music21.expressions.Fermata"%string) Expression.

(** ** Objects and values *)

(** A JavaScript value.  A function is named by a number; an object by its
    place in the heap. *)
Inductive Value : Type :=
| VUndefined
| VNull
| VBool (b : bool)
| VNumber (n : Z)
| VString (s : string)
| VFunction (f : nat)
| VObject (l : loc).

(** An own property: a writable data property, a read-only one, or an
    accessor with the value its getter returns (if it has one) and whether
    it has a setter. *)
Inductive Slot : Type :=
| Data (v : Value)
| ReadOnly (v : Value)
| Accessor (get : option Value) (set : bool).

(** An object: the constructor whose prototype it has, and its own
    enumerable properties in the order [for ... in] visits them. *)
Record Obj : Type := mkObj {
  obj_constructor : Ctor;
  props : list (string * Slot);
}.

(** The heap, and what [console.log] has printed (the key of each
    ['typeError:'] line). *)
Record State : Type := mkState {
  heap : list Obj;
  console : list string;
}.

(** How a call ends: it returns, it throws, the recursion budget of the
    model ran out before it did either, or it went on into code that is not
    held here ([Foreign]): a function or a method of which the model knows
    nothing. *)
Inductive Outcome (A : Type) : Type :=
| Return (a : A)
| Throw (e : JsError)
| OutOfFuel
| Foreign.
Arguments Return {A} a.
Arguments Throw {A} e.
Arguments OutOfFuel {A}.
Arguments Foreign {A}.

#[global] Instance Outcome_ret : MRet Outcome := fun A a => Return a.
#[global] Instance Outcome_bind : MBind Outcome := fun A B k m =>
  match m with
  | Return a => k a
  | Throw e => Throw e
  | OutOfFuel => OutOfFuel
  | Foreign => Foreign
  end.

(** What a class adds to [ProtoM21Object]: the fields its constructor
    defines, the entries it puts into [_cloneCallbacks], and the stores its
    prototype rejects ([put_trap key v = Some e]: assigning [v] to [key] on
    an object of the class throws [e], as an inherited setter that refuses
    the value does). *)
Record ClassDef : Type := mkClassDef {
  fields : list (string * Slot);
  cloneCallbacks : list (string * Slot);
  put_trap : string -> Value -> option JsError;
}.

(** [Object], the constructor of plain objects such as [{}]. *)
Definition Object : Ctor := Class None FunctionPrototype.

Definition lookup_prop (key : string) (ps : list (string * Slot)) : option Slot :=
  snd <$> List.find (fun kv => String.eqb (fst kv) key) ps.

(** Define or redefine an own property, keeping its place when it exists. *)
Fixpoint set_prop (key : string) (slot : Slot) (ps : list (string * Slot))
  : list (string * Slot) :=
  match ps with
  | [] => [(key, slot)]
  | (k, s) :: ps' =>
      if String.eqb k key then (k, slot) :: ps' else (k, s) :: set_prop key slot ps'
  end.

(** [o[key]] on an own property. *)
Definition read_slot (slot : Slot) : Value :=
  match slot with
  | Data v | ReadOnly v => v
  | Accessor (Some v) _ => v
  | Accessor None _ => VUndefined
  end.

(** [x.key] for an object [x]: [undefined] when [x] has no such property. *)
Definition get_prop (x : loc) (key : string) (st : State) : Value :=
  match heap st !! x with
  | Some o => default VUndefined (read_slot <$> lookup_prop key (props o))
  | None => VUndefined
  end.

(** Truthiness, as [&&] and [if] test it. *)
Definition truthy (v : Value) : bool :=
  match v with
  | VUndefined | VNull => false
  | VBool b => b
  | VNumber n => negb (n =? 0)
  | VString s => negb (String.eqb s "")
  | VFunction _ | VObject _ => true
  end.

(** [typeof v === 'object' && v !== null && v.isProtoM21Object] *)
Definition is_m21_object (v : Value) (st : State) : option loc :=
  match v with
  | VObject l => if truthy (get_prop l "isProtoM21Object" st) then Some l else None
  | _ => None
  end.

Definition log (key : string) (st : State) : State :=
  mkState (heap st) (console st ++ [key]).

Definition alloc (o : Obj) (st : State) : loc * State :=
  (length (heap st), mkState (heap st ++ [o]) (console st)).

Section Clone.

(** The classes of the program, and what calling a function found in a
    [_cloneCallbacks] table does: [callback f key ret this] is
    [f(key, ret, this)]. *)
Variable classDef : Ctor -> ClassDef.
Variable callback : nat -> string -> loc -> loc -> State -> Outcome State.

(** [x[key] = v], in strict mode: the class may reject the store; an own
    read-only property or accessor without a setter rejects it with a
    [TypeError]; an own setter takes the value and leaves the own
    properties as they are; otherwise the data property is written or
    created. *)
Definition put (x : loc) (key : string) (v : Value) (st : State) : Outcome State :=
  match heap st !! x with
  | None => Throw TypeError
  | Some o =>
      match put_trap (classDef (obj_constructor o)) key v with
      | Some e => Throw e
      | None =>
          match lookup_prop key (props o) with
          | Some (ReadOnly _) | Some (Accessor _ false) => Throw TypeError
          | Some (Accessor _ true) => Return st
          | _ =>
              let o' := mkObj (obj_constructor o) (set_prop key (Data v) (props o)) in
              Return (mkState (<[x := o']> (heap st)) (console st))
          end
      end
  end.

(** [new classConstructor()]: the field initialisers of [ProtoM21Object]
    ([isProtoM21Object = true], [isMusic21Object = false],
    [_cloneCallbacks = {}]), then what the class adds. *)
Definition construct (c : Ctor) (st : State) : loc * State :=
  let '(table, st) := alloc (mkObj Object (cloneCallbacks (classDef c))) st in
  let own :=
    [ ("isProtoM21Object"%string, Data (VBool true));
      ("isMusic21Object"%string, Data (VBool false));
      ("_cloneCallbacks"%string, Data (VObject table)) ] in
  alloc (mkObj c (fold_left (fun ps kv => set_prop (fst kv) (snd kv) ps)
                            (fields (classDef c)) own)) st.

(** [Object.assign(target, source)] over the own properties of the
    source. *)
Fixpoint assign_all (target : loc) (source : list (string * Slot)) (st : State)
  : Outcome State :=
  match source with
  | [] => Return st
  | (key, slot) :: source' =>
      st ← put target key (read_slot slot) st;
      assign_all target source' st
  end.

(** The [try] / [catch] around the plain copy of a field. *)
Definition try_copy (ret : loc) (key : string) (v : Value) (st : State)
  : Outcome State :=
  match put ret key v st with
  | Return st' => Return st'
  | Throw e => if instanceof_TypeError e then Return (log key st) else Throw e
  | OutOfFuel => OutOfFuel
  | Foreign => Foreign
  end.

(** The branches of the loop body that follow the test of
    [_cloneCallbacks]; [rec] is [m21Obj.clone(deep, memo)]. *)
Definition clone_default (rec : loc -> State -> Outcome (loc * State))
    (memo : gmap loc Value) (ret : loc) (key : string) (slot : Slot) (st : State)
  : Outcome State :=
  match slot with
  | Accessor (Some _) _ | Accessor None true => Return st   (* do nothing *)
  | _ =>
      match read_slot slot with
      | VFunction _ => Return st                            (* do nothing *)
      | v =>
          match is_m21_object v st with
          | Some m21Obj =>
              '(clonedVersion, st) ←
                match memo !! m21Obj with
                | Some cloned => Return (cloned, st)
                | None => '(r, st) ← rec m21Obj st; Return (VObject r, st)
                end;
              put ret key clonedVersion st
          | None => try_copy ret key v st
          end
      end
  end.

(** What [key in table] finds, for a table of callbacks:

    - [Own entry]: an own property of the table;
    - [Inherited throws]: no own property, but a member every object gets
      from [Object.prototype]; the member is neither [true] nor [false], so
      the loop calls it as [table[key](key, ret, this)], and [throws] tells
      whether that call throws a [TypeError] (it changes nothing when it
      returns);
    - [Absent]: [key in table] is false;
    - [Unknown]: the model cannot tell, or cannot follow the call. *)
Inductive Member : Type :=
| Own (entry : Slot)
| Inherited (throws : bool)
| Absent
| Unknown.

(** The members of [Object.prototype], for a plain object with the given
    own properties that has no own property [key].

    - [constructor], [hasOwnProperty], [isPrototypeOf],
      [propertyIsEnumerable], [toString], [valueOf], [__lookupGetter__] and
      [__lookupSetter__] are functions that look at their arguments and
      return;
    - [__defineGetter__] and [__defineSetter__] throw a [TypeError], their
      second argument ([ret]) being no function; the value of [__proto__]
      is the prototype, which is no function either, so calling it throws a
      [TypeError];
    - [toLocaleString] calls [toString] of the table: the inherited one
      returns; an own property that is no function cannot be called; an own
      function is called without arguments, which the model cannot
      follow. *)
Definition Object_prototype_member (own : list (string * Slot)) (key : string)
  : Member :=
  if bool_decide (key ∈ [ "constructor"; "hasOwnProperty"; "isPrototypeOf";
                          "propertyIsEnumerable"; "toString"; "valueOf";
                          "__lookupGetter__"; "__lookupSetter__" ]%string)
  then Inherited false
  else if bool_decide (key ∈ [ "__defineGetter__"; "__defineSetter__";
                               "__proto__" ]%string)
  then Inherited true
  else if String.eqb key "toLocaleString" then
    match lookup_prop "toString" own with
    | None => Inherited false
    | Some entry =>
        match read_slot entry with
        | VFunction _ => Unknown
        | _ => Inherited true
        end
    end
  else Absent.

(** [key in this._cloneCallbacks]; [None] when the value is not an object,
    on which [in] throws.  An own property of the table decides; without
    one, a plain object such as the [{}] of the field initialiser has what
    [Object.prototype] gives it.  Of an object of another class, and of a
    function, the model does not hold the members. *)
Definition cloneCallbacks_member (this : loc) (key : string) (st : State)
  : option Member :=
  match get_prop this "_cloneCallbacks" st with
  | VObject table =>
      match heap st !! table with
      | Some t =>
          match lookup_prop key (props t) with
          | Some entry => Some (Own entry)
          | None =>
              if bool_decide (obj_constructor t = Object)
              then Some (Object_prototype_member (props t) key)
              else Some Unknown
          end
      | None => Some Unknown
      end
  | VFunction _ => Some Unknown
  | _ => None
  end.

(** One turn of the [for (const key in this)] loop. *)
Definition clone_field (rec : loc -> State -> Outcome (loc * State))
    (memo : gmap loc Value) (this ret : loc) (key : string) (st : State)
  : Outcome State :=
  match heap st !! this with
  | None => Throw TypeError
  | Some o =>
      match lookup_prop key (props o) with
      | None => Return st                  (* hasOwnProperty is false: continue *)
      | Some slot =>
          match cloneCallbacks_member this key st with
          | None => Throw TypeError
          | Some (Own entry) =>
              match read_slot entry with
              | VBool true => put ret key (read_slot slot) st
              | VBool false => put ret key VUndefined st
              | VFunction f => callback f key ret this st
              | _ => Throw TypeError   (* not a function *)
              end
          | Some (Inherited throws) =>
              if throws then Throw TypeError else Return st
          | Some Absent => clone_default rec memo ret key slot st
          | Some Unknown => Foreign
          end
      end
  end.

Fixpoint clone_loop (rec : loc -> State -> Outcome (loc * State))
    (memo : gmap loc Value) (this ret : loc) (keys : list string) (st : State)
  : Outcome State :=
  match keys with
  | [] => Return st
  | key :: keys' =>
      st ← clone_field rec memo this ret key st;
      clone_loop rec memo this ret keys' st
  end.

(** [this.constructor], as [new classConstructor()] needs it: the
    constructor whose prototype the object has, unless the object has an
    own property of that name.  Such a property that is no function cannot
    be constructed; what [new] makes of one that is a function the model
    cannot tell. *)
Definition classConstructor (o : Obj) : Outcome Ctor :=
  match lookup_prop "constructor" (props o) with
  | None => Return (obj_constructor o)
  | Some slot =>
      match read_slot slot with
      | VFunction _ => Foreign
      | _ => Throw TypeError
      end
  end.

(** [this.clone(deep, memo)].  [fuel] bounds the depth of the nested calls;
    [memo] is [None] for [undefined].  Nothing in the function writes to
    the [WeakMap], so the one a call creates or receives is the one every
    nested call sees. *)
Fixpoint clone (fuel : nat) (deep : bool) (memo : option (gmap loc Value))
    (this : loc) (st : State) : Outcome (loc * State) :=
  match fuel with
  | O => OutOfFuel
  | S fuel =>
      match heap st !! this with
      | None => Throw TypeError
      | Some o =>
          if negb deep then
            let '(ret, st) := alloc (mkObj (obj_constructor o) []) st in
            st ← assign_all ret (props o) st;
            Return (ret, st)
          else
            c ← classConstructor o;
            let '(ret, st) := construct c st in
            let memo := default ∅ memo in
            st ← clone_loop (clone fuel deep (Some memo)) memo this ret
                            (fst <$> props o) st;
            Return (ret, st)
      end
  end.

(** The value the plain copy assigns, for a property that reaches it: not
    an accessor, not a function, not a nested [ProtoM21Object]. *)
Definition plain_value (slot : Slot) (st : State) : option Value :=
  match slot with
  | Accessor (Some _) _ | Accessor None true => None
  | _ =>
      match read_slot slot with
      | VFunction _ => None
      | v => match is_m21_object v st with Some _ => None | None => Some v end
      end
  end.

End Clone.

(** Every object of [base] is in the heap, at its place and as it is. *)
Definition extends_heap (base : list Obj) (st : State) : Prop :=
  forall i o, base !! i = Some o -> heap st !! i = Some o.

(** Only writable data properties. *)
Definition all_data (ps : list (string * Slot)) : Prop :=
  Forall (fun kv => exists v, snd kv = Data v) ps.

(** ** Sample classes and heaps for [clone] *)

(** [class Link extends ProtoM21Object { other = undefined; }] *)
Definition Link : Ctor :=
  Class (Some "music21.sample.Link"%string) ProtoM21Object.

(** [class Sealed extends ProtoM21Object]: the constructor defines [k] as a
    read-only property and asks [clone] to copy it by reference
    ([this._cloneCallbacks.k = true]). *)
Definition Sealed : Ctor :=
  Class (Some "music21.sample.Sealed"%string) ProtoM21Object.

(** [class Guarded extends ProtoM21Object]: the constructor defines [k] as
    a read-only property, and the prototype has a setter for [v] that
    throws a [RangeError] (error 1) for a negative number. *)
Definition Guarded : Ctor :=
  Class (Some "music21.sample.Guarded"%string) ProtoM21Object.

Definition no_trap : string -> Value -> option JsError := fun _ _ => None.

Definition sample_classDef (c : Ctor) : ClassDef :=
  if bool_decide (c = Link) then
    mkClassDef [("other"%string, Data VUndefined)] [] no_trap
  else if bool_decide (c = Sealed) then
    mkClassDef [("k"%string, ReadOnly (VNumber 0))]
               [("k"%string, Data (VBool true))] no_trap
  else if bool_decide (c = Guarded) then
    mkClassDef [("k"%string, ReadOnly (VNumber 0))] []
               (fun key v =>
                  if String.eqb key "v" then
                    match v with
                    | VNumber n => if n <? 0 then Some (OtherError 1) else None
                    | _ => None
                    end
                  else None)
  else mkClassDef [] [] no_trap.

(** No function is ever found in a [_cloneCallbacks] table of the samples. *)
Definition no_callback : nat -> string -> loc -> loc -> State -> Outcome State :=
  fun _ _ _ _ st => Return st.

(** An instance of [c] at [table + 1] whose [_cloneCallbacks] is the plain
    object at [table], with the given further fields. *)
Definition instance_at (c : Ctor) (table : loc) (more : list (string * Slot)) : Obj :=
  mkObj c ([ ("isProtoM21Object"%string, Data (VBool true));
             ("isMusic21Object"%string, Data (VBool false));
             ("_cloneCallbacks"%string, Data (VObject table)) ] ++ more).

(** Two links that refer to each other:
    [a = new Link(); b = new Link(); a.other = b; b.other = a], [a] at 1
    and [b] at 3. *)
Definition cyclic_heap : list Obj :=
  [ mkObj Object [];
    instance_at Link 0 [("other"%string, Data (VObject 3))];
    mkObj Object [];
    instance_at Link 2 [("other"%string, Data (VObject 1))] ].

(** A link that holds another, which holds nothing:
    [outer.other = inner], [outer] at 1 and [inner] at 3. *)
Definition nested_heap : list Obj :=
  [ mkObj Object [];
    instance_at Link 0 [("other"%string, Data (VObject 3))];
    mkObj Object [];
    instance_at Link 2 [("other"%string, Data VUndefined)] ].

(** A [Sealed] object at 1. *)
Definition sealed_heap : list Obj :=
  [ mkObj Object [("k"%string, Data (VBool true))];
    instance_at Sealed 0 [("k"%string, ReadOnly (VNumber 7))] ].

(** A [Guarded] object at 1 on which an own data property [v] has been
    defined ([Object.defineProperty]), with the given value. *)
Definition guarded_heap (v : Z) : list Obj :=
  [ mkObj Object [];
    instance_at Guarded 0
      [("k"%string, ReadOnly (VNumber 7)); ("v"%string, Data (VNumber v))] ].

(** A [ProtoM21Object] at 1 with one more field, of the given name, that
    holds the number 7. *)
Definition named_heap (name : string) : list Obj :=
  [ mkObj Object [];
    instance_at ProtoM21Object 0 [(name, Data (VNumber 7))] ].

(** While one of the two links of [cyclic_heap] is being cloned: the two
    links are where they were, and [ret] is a link made of writable data
    properties, allocated after them. *)
Definition cloning_link (ret : loc) (st : State) : Prop :=
  extends_heap cyclic_heap st
  /\ (4 <= ret)%nat
  /\ exists r, heap st !! ret = Some r
               /\ obj_constructor r = Link
               /\ all_data (props r).

(** ** Properties of [classes] *)











Example shortName_qualified :
  shortName "music21.prebase.ProtoM21Object" = "ProtoM21Object"%string.
Proof. reflexivity. Qed.

Example shortName_plain : shortName "Note" = "Note"%string.
Proof. reflexivity. Qed.

(** The classes of a fermata, as [toString] and [isClassOrSubclass] see
    them. *)
Example classes_Fermata :
  fst (classes (mkInstance Fermata None None))
  = Some ["Fermata"; "Expression"; "Music21Object"; "ProtoM21Object"; "object"]%string.
Proof. reflexivity. Qed.

(** A class that declares no [className] answers with the one it inherits,
    so the name of its parent appears twice. *)
Example classes_undeclared :
  fst (classes (mkInstance (Class None ProtoM21Object) None None))
  = Some ["ProtoM21Object"; "ProtoM21Object"; "object"]%string.
Proof. reflexivity. Qed.

(** ** Properties of [clone] *)

Section CloneProperties.

Variable classDef : Ctor -> ClassDef.
Variable callback : nat -> string -> loc -> loc -> State -> Outcome State.

Lemma clone_loop_app (rec : loc -> State -> Outcome (loc * State))
    (memo : gmap loc Value) (this ret : loc) (keys1 keys2 : list string) :
  forall st,
  clone_loop classDef callback rec memo this ret (keys1 ++ keys2) st
  = (st1 ← clone_loop classDef callback rec memo this ret keys1 st;
     clone_loop classDef callback rec memo this ret keys2 st1).
Proof.
  induction keys1 as [|key keys1 IH]; intros st; cbn; [reflexivity|].
  destruct (clone_field _ _ _ _ _ _ _ _); cbn; auto.
Qed.

(** A property with a plain value goes to the [try] block. *)
Lemma clone_default_plain (rec : loc -> State -> Outcome (loc * State))
    (memo : gmap loc Value) (ret : loc) (key : string) (slot : Slot)
    (st : State) (v : Value) :
  plain_value slot st = Some v ->
  clone_default classDef rec memo ret key slot st = try_copy classDef ret key v st.
Proof.
  unfold plain_value, clone_default.
  destruct slot as [v0|v0|[g|] [|]]; cbn [read_slot]; try discriminate;
    try (destruct v0; try discriminate;
         destruct (is_m21_object _ st); intros [= <-]; reflexivity).
  cbn. intros [= <-]. reflexivity.
Qed.

Lemma clone_field_plain (rec : loc -> State -> Outcome (loc * State))
    (memo : gmap loc Value) (this ret : loc) (key : string) (st : State)
    (o : Obj) (slot : Slot) (v : Value) :
  heap st !! this = Some o ->
  lookup_prop key (props o) = Some slot ->
  cloneCallbacks_member this key st = Some Absent ->
  plain_value slot st = Some v ->
  clone_field classDef callback rec memo this ret key st
  = try_copy classDef ret key v st.
Proof.
  intros Hthis Hslot Hnone Hplain. unfold clone_field.
  rewrite Hthis, Hslot, Hnone.
  apply clone_default_plain, Hplain.
Qed.


(** *** Stores that succeed *)

Lemma set_prop_all_data (key : string) (v : Value) (ps : list (string * Slot)) :
  all_data ps -> all_data (set_prop key (Data v) ps).
Proof.
  unfold all_data. induction 1 as [|[k s] ps Hs Hps IH]; cbn.
  - constructor; [eexists; reflexivity|constructor].
  - destruct (String.eqb k key); constructor; auto. eexists; reflexivity.
Qed.

Lemma lookup_prop_all_data (key : string) (ps : list (string * Slot)) :
  all_data ps ->
  lookup_prop key ps = None \/ exists v, lookup_prop key ps = Some (Data v).
Proof.
  unfold all_data, lookup_prop. induction 1 as [|[k s] ps [v Hs] Hps IH]; cbn.
  - left; reflexivity.
  - destruct (String.eqb k key); [|exact IH].
    right. exists v. cbn in Hs. subst s. reflexivity.
Qed.

(** A store the class does not reject, on an object made of writable data
    properties, writes the property. *)
Lemma put_data (x : loc) (key : string) (v : Value) (st : State) (o : Obj) :
  heap st !! x = Some o ->
  put_trap (classDef (obj_constructor o)) key v = None ->
  all_data (props o) ->
  put classDef x key v st
  = Return (mkState (<[x := mkObj (obj_constructor o)
                                  (set_prop key (Data v) (props o))]> (heap st))
                    (console st)).
Proof.
  intros Hx Htrap Hdata. unfold put. rewrite Hx, Htrap.
  destruct (lookup_prop_all_data key (props o) Hdata) as [->|[v0 ->]]; reflexivity.
Qed.

End CloneProperties.

Lemma extends_heap_insert (base : list Obj) (x : loc) (o : Obj) (st : State)
    (out : list string) :
  extends_heap base st -> (length base <= x)%nat ->
  extends_heap base (mkState (<[x := o]> (heap st)) out).
Proof.
  intros Hext Hx i oi Hi. cbn.
  rewrite list_lookup_insert_ne; [apply Hext, Hi|].
  apply lookup_lt_Some in Hi. lia.
Qed.

(** *** The cycle *)

Lemma cloning_link_construct (st : State) :
  extends_heap cyclic_heap st ->
  cloning_link (fst (construct sample_classDef Link st))
               (snd (construct sample_classDef Link st)).
Proof.
  intros Hext. cbn.
  pose proof (Hext 3%nat _ eq_refl) as H3. apply lookup_lt_Some in H3.
  split; [|split; [rewrite length_app; cbn; lia|]].
  - intros i o Hi. cbn.
    rewrite <- app_assoc. apply lookup_app_l_Some, Hext, Hi.
  - eexists. split; [|split].
    + apply list_lookup_middle. reflexivity.
    + reflexivity.
    + repeat constructor; eexists; reflexivity.
Qed.

(** Where the two links and their callback tables are. *)
Lemma cyclic_link_at (this : loc) (st : State) :
  extends_heap cyclic_heap st ->
  (this = 1 \/ this = 3)%nat ->
  heap st !! this
  = Some (instance_at Link (this - 1) [("other"%string, Data (VObject (4 - this)))])
  /\ heap st !! (this - 1)%nat = Some (mkObj Object [])
  /\ heap st !! (4 - this)%nat
     = Some (instance_at Link (3 - this) [("other"%string, Data (VObject this))]).
Proof.
  intros Hext [-> | ->]; repeat split; apply Hext; reflexivity.
Qed.

(** The three fields every link starts with are copied by the plain
    path. *)
Lemma cloning_link_plain_step (rec : loc -> State -> Outcome (loc * State))
    (this ret : loc) (key : string) (v : Value) (st : State) :
  cloning_link ret st ->
  (this = 1 \/ this = 3)%nat ->
  (key, v) ∈ [ ("isProtoM21Object"%string, VBool true);
               ("isMusic21Object"%string, VBool false);
               ("_cloneCallbacks"%string, VObject (this - 1)) ] ->
  exists st',
    clone_field sample_classDef no_callback rec ∅ this ret key st = Return st'
    /\ cloning_link ret st'.
Proof.
  intros (Hext & Hret & r & Hr & Hctor & Hdata) Hthis Hkey.
  destruct (cyclic_link_at this st Hext Hthis) as (Hobj & Htab & _).
  assert (Hmember : cloneCallbacks_member this key st = Some Absent).
  { unfold cloneCallbacks_member, get_prop. rewrite Hobj. cbn.
    rewrite Htab.
    repeat (apply elem_of_cons in Hkey as [[= -> ->]|Hkey]; [reflexivity|]).
    apply elem_of_nil in Hkey. contradiction. }
  assert (Hslot : lookup_prop key
                    (props (instance_at Link (this - 1)
                              [("other"%string, Data (VObject (4 - this)))]))
                  = Some (Data v)).
  { repeat (apply elem_of_cons in Hkey as [[= -> ->]|Hkey]; [reflexivity|]).
    apply elem_of_nil in Hkey. contradiction. }
  assert (Hplain : plain_value (Data v) st = Some v).
  { repeat (apply elem_of_cons in Hkey as [[= -> ->]|Hkey];
            [try reflexivity|]).
    - unfold plain_value, is_m21_object, get_prop. cbn. rewrite Htab. reflexivity.
    - apply elem_of_nil in Hkey. contradiction. }
  rewrite (clone_field_plain sample_classDef no_callback rec ∅ this ret key st
             _ _ _ Hobj Hslot Hmember Hplain).
  unfold try_copy.
  rewrite (put_data sample_classDef ret key v st r Hr); [| |exact Hdata].
  2: { rewrite Hctor. reflexivity. }
  eexists. split; [reflexivity|].
  split; [apply extends_heap_insert; [exact Hext|exact Hret]|].
  split; [exact Hret|].
  eexists. split; [|split].
  - cbn. apply list_lookup_insert_eq. apply lookup_lt_Some in Hr. exact Hr.
  - exact Hctor.
  - cbn. apply set_prop_all_data, Hdata.
Qed.

(** The field [other] of a link of the cycle is a nested object the memo
    does not know: it is cloned again. *)
Lemma cloning_link_other_step (rec : loc -> State -> Outcome (loc * State))
    (this ret : loc) (st : State) :
  extends_heap cyclic_heap st ->
  (this = 1 \/ this = 3)%nat ->
  clone_field sample_classDef no_callback rec ∅ this ret "other" st
  = ('(r, st') ← rec (4 - this)%nat st;
     put sample_classDef ret "other" (VObject r) st').
Proof.
  intros Hext Hthis.
  destruct (cyclic_link_at this st Hext Hthis) as (Hobj & Htab & Hother).
  unfold clone_field. rewrite Hobj. cbn [instance_at props lookup_prop].
  cbn [app List.find fst snd String.eqb Ascii.eqb Bool.eqb fmap option_fmap option_map].
  unfold cloneCallbacks_member, get_prop. rewrite Hobj. cbn. rewrite Htab. cbn.
  unfold clone_default, is_m21_object, get_prop. cbn. rewrite Hother. cbn.
  rewrite lookup_empty.
  destruct (rec (4 - this)%nat st) as [[r st']| | |]; reflexivity.
Qed.

(** Cloning a link of the cycle never returns: whatever the depth allowed
    to the nested calls, they use it up. *)
Lemma cyclic_clone_diverges (fuel : nat) :
  forall (memo : option (gmap loc Value)) (this : loc) (st : State),
  extends_heap cyclic_heap st ->
  (this = 1 \/ this = 3)%nat ->
  default ∅ memo = ∅ ->
  clone sample_classDef no_callback fuel true memo this st = OutOfFuel.
Proof.
  induction fuel as [|fuel IH]; intros memo this st Hext Hthis Hmemo;
    [reflexivity|].
  destruct (cyclic_link_at this st Hext Hthis) as (Hobj & _).
  cbn [clone negb]. rewrite Hobj, Hmemo.
  change (classConstructor (instance_at Link (this - 1) _)) with (Return Link).
  cbn [mbind Outcome_bind].
  pose proof (cloning_link_construct st Hext) as Hready.
  cbn [instance_at obj_constructor] in *.
  destruct (construct sample_classDef Link st) as [ret st0]. cbn [fst snd] in Hready.
  unfold instance_at. cbn [props app fmap list_fmap fst clone_loop].
  destruct (cloning_link_plain_step (clone sample_classDef no_callback fuel true (Some ∅))
              this ret "isProtoM21Object" (VBool true) st0 Hready Hthis)
    as (st1 & -> & Hready1); [apply elem_of_cons; auto|].
  cbn [mbind Outcome_bind].
  destruct (cloning_link_plain_step (clone sample_classDef no_callback fuel true (Some ∅))
              this ret "isMusic21Object" (VBool false) st1 Hready1 Hthis)
    as (st2 & -> & Hready2); [apply elem_of_cons; right; apply elem_of_cons; auto|].
  cbn [mbind Outcome_bind].
  destruct (cloning_link_plain_step (clone sample_classDef no_callback fuel true (Some ∅))
              this ret "_cloneCallbacks" (VObject (this - 1)) st2 Hready2 Hthis)
    as (st3 & -> & Hready3);
    [do 2 (apply elem_of_cons; right); apply elem_of_cons; auto|].
  cbn [mbind Outcome_bind].
  destruct Hready3 as (Hext3 & _).
  rewrite (cloning_link_other_step _ this ret st3 Hext3 Hthis).
  rewrite IH; [reflexivity|exact Hext3| |reflexivity].
  destruct Hthis as [-> | ->]; auto.
Qed.

(** C8 fails on the code: [a.other = b], [b.other = a], and [a.clone(true)]
    does not terminate.  The visited map is asked ([memo.has]) and never
    told ([memo.set] appears nowhere), so the clone of [a] clones [b], which
    clones [a] again: no depth of nested calls is enough for the call to
    return. *)
Theorem clone_cycle_never_returns (fuel : nat) :
  clone sample_classDef no_callback fuel true None 1%nat (mkState cyclic_heap [])
  = OutOfFuel.
Proof.
  apply cyclic_clone_diverges; [|left; reflexivity|reflexivity].
  intros i o Hi. exact Hi.
Qed.

(** Without a cycle the deep clone does return, given depth for the one
    nested call: the field of the copy is a new object (7, not 3) with the
    properties of the original's, and the originals are as they were. *)
Lemma clone_nested_copies (fuel : nat) :
  exists st',
    clone sample_classDef no_callback (2 + fuel) true None 1%nat
          (mkState nested_heap [])
    = Return (5%nat, st')
    /\ get_prop 5%nat "other" st' = VObject 7%nat
    /\ get_prop 1%nat "other" st' = VObject 3%nat
    /\ heap st' !! 7%nat = heap st' !! 3%nat
    /\ take 4 (heap st') = nested_heap.
Proof. eexists. split; [vm_compute; reflexivity|]. repeat split. Qed.

(** The plain copy at work: the read-only [k] is skipped and logged, [v] is
    copied. *)
Example clone_guarded_logs :
  exists st',
    clone sample_classDef no_callback 1 true None 1%nat
          (mkState (guarded_heap 5) [])
    = Return (3%nat, st')
    /\ console st' = ["k"%string]
    /\ get_prop 3%nat "k" st' = VNumber 0
    /\ get_prop 3%nat "v" st' = VNumber 5.
Proof. eexists. split; [vm_compute; reflexivity|]. repeat split. Qed.

(** The copy by reference is outside the [try] block: the [TypeError] of
    the read-only [k] of a [Sealed] object leaves [clone]. *)
Example clone_sealed_throws :
  clone sample_classDef no_callback 1 true None 1%nat (mkState sealed_heap [])
  = Throw TypeError.
Proof. vm_compute. reflexivity. Qed.

(** A field that bears a name every table inherits is taken for an entry
    of the table: the inherited function is called, and the field is not
    copied. *)
Example clone_skips_inherited_name :
  exists st',
    clone sample_classDef no_callback 1 true None 1%nat
          (mkState (named_heap "valueOf") [])
    = Return (3%nat, st')
    /\ get_prop 3%nat "valueOf" st' = VUndefined
    /\ get_prop 1%nat "valueOf" st' = VNumber 7.
Proof. eexists. split; [vm_compute; reflexivity|]. repeat split. Qed.

(** Under [__proto__] the table answers with its prototype, which cannot be
    called; and an own [constructor] that is no function cannot be
    constructed. *)
Example clone_throws_on_odd_names :
  clone sample_classDef no_callback 1 true None 1%nat
        (mkState (named_heap "__proto__") [])
  = Throw TypeError
  /\ clone sample_classDef no_callback 1 true None 1%nat
           (mkState (named_heap "constructor") [])
     = Throw TypeError.
Proof. split; vm_compute; reflexivity. Qed.



End Prebase.

(* ====================================================================== *)
(** * More on the quantizer *)
(* ====================================================================== *)

Module Quantizing.
Import Miditools.

(** ** What a call on [config] leaves behind *)

(** The element after the call: no stem direction, the quantized length,
    the body it had. *)
Lemma quantizeLastNote_element (nowInMS : Z) (w : World) (el : loc) (o : GeneralNote) :
  store w !! el = Some o ->
  store (snd (quantizeLastNote ThisConfig (Some el) nowInMS w)) !! el
  = Some (mkGeneralNote None
            (quantizedQuarterLength (elapsed nowInMS (timeOfLastNote w)) (tempo w))
            (body o)).
Proof.
  intros Hel. cbn. rewrite !list_lookup_alter_eq, Hel. reflexivity.
Qed.

(** Everything else after the call: the other objects, and the
    configuration but for [timeOfLastNote]. *)
Lemma quantizeLastNote_frame (nowInMS : Z) (w : World) (el : loc) :
  let w' := snd (quantizeLastNote ThisConfig (Some el) nowInMS w) in
  (forall x, x <> el -> store w' !! x = store w !! x)
  /\ length (store w') = length (store w)
  /\ timeOfLastNote w' = nowInMS
  /\ tempo w' = tempo w
  /\ heldChordNotes w' = heldChordNotes w
  /\ heldChordTime w' = heldChordTime w
  /\ lastElement w' = lastElement w
  /\ sent w' = sent w.
Proof.
  cbn. repeat split.
  - intros x Hx. rewrite !list_lookup_alter_ne by congruence. reflexivity.
  - rewrite !length_alter. reflexivity.
Qed.

(** X4: two calls in a row with [this] bound to [config] measure two
    intervals: the second element gets the time since the first call,
    whatever [timeOfLastNote] was before it, and the first keeps what it
    got.  Nothing else in the store and nothing held, emitted or remembered
    as [lastElement] is touched. *)
Theorem quantized_successive_intervals
    (t1 t2 : Z) (w : World) (e1 e2 : loc) (o1 o2 : GeneralNote) :
  store w !! e1 = Some o1 ->
  store w !! e2 = Some o2 ->
  e1 <> e2 ->
  let w1 := snd (quantizeLastNote ThisConfig (Some e1) t1 w) in
  let w2 := snd (quantizeLastNote ThisConfig (Some e2) t2 w1) in
  store w2 !! e1
  = Some (mkGeneralNote None
            (quantizedQuarterLength (elapsed t1 (timeOfLastNote w)) (tempo w))
            (body o1))
  /\ store w2 !! e2
     = Some (mkGeneralNote None (quantizedQuarterLength (elapsed t2 t1) (tempo w))
               (body o2))
  /\ timeOfLastNote w2 = t2
  /\ (forall x, x <> e1 -> x <> e2 -> store w2 !! x = store w !! x)
  /\ (heldChordNotes w2, lastElement w2, sent w2)
     = (heldChordNotes w, lastElement w, sent w).
Proof.
  intros H1 H2 Hne w1 w2.
  destruct (quantizeLastNote_frame t1 w e1) as (Hst1 & _ & Htime1 & Htempo1 & Hh1 & _ & Hl1 & Hs1).
  destruct (quantizeLastNote_frame t2 w1 e2) as (Hst2 & _ & Htime2 & _ & Hh2 & _ & Hl2 & Hs2).
  fold w1 in Hst1, Htime1, Htempo1, Hh1, Hl1, Hs1.
  fold w2 in Hst2, Htime2, Hh2, Hl2, Hs2.
  split.
  { rewrite Hst2 by exact Hne. apply quantizeLastNote_element, H1. }
  split.
  { subst w2. rewrite (quantizeLastNote_element t2 w1 e2 o2).
    - rewrite Htime1, Htempo1. reflexivity.
    - rewrite Hst1 by congruence. exact H2. }
  split; [exact Htime2|].
  split.
  { intros x Hx1 Hx2. rewrite Hst2, Hst1 by assumption. reflexivity. }
  rewrite Hh2, Hl2, Hs2, Hh1, Hl1, Hs1. reflexivity.
Qed.

Lemma quantized_successive_intervals_witness :
  store (snd (quantizeLastNote ThisConfig (Some 1%nat) 3000
                (snd (quantizeLastNote ThisConfig (Some 0%nat) 1000
                        (initial_world sample_store))))) !! 1%nat
  = Some (mkGeneralNote None 2 (NoteBody (Some 64))).
Proof.
  exact (proj1 (proj2 (quantized_successive_intervals 1000 3000
                         (initial_world sample_store) 0%nat 1%nat _ _
                         eq_refl eq_refl ltac:(discriminate)))).
Defined.

End Quantizing.

(* ====================================================================== *)
(** * More on the collection window *)
(* ====================================================================== *)

Module Window.
Import Miditools.

(** The ticks of a sequence of actions. *)
Fixpoint ticks (acts : list Action) : list Z :=
  match acts with
  | [] => []
  | Tick nowInMs :: acts' => nowInMs :: ticks acts'
  | Incoming _ :: acts' => ticks acts'
  end.

(** The pitches of its note-ons, in order of arrival. *)
Fixpoint incoming_pitches (acts : list Action) : list (option Z) :=
  match acts with
  | [] => []
  | Incoming e :: acts' =>
      if noteOn e then midiNote e :: incoming_pitches acts'
      else incoming_pitches acts'
  | Tick _ :: acts' => incoming_pitches acts'
  end.

Section Runs.

Variable newQuarterLength : float.
Variable chordQuarterLength : list GeneralNote -> list loc -> float.

(** ** What a flush keeps *)

Lemma sendOutChord_config (l : list loc) (nowInMS : Z) (w : World) :
  let w' := snd (sendOutChord chordQuarterLength l nowInMS w) in
  maxDelay w' = maxDelay w
  /\ heldChordTime w' = heldChordTime w
  /\ heldChordNotes w' = heldChordNotes w
  /\ callBacks_sendOutChord w' = callBacks_sendOutChord w
  /\ timeOfLastNote w' = timeOfLastNote w
  /\ (length (sent w') <= length (sent w) + 1)%nat.
Proof.
  destruct l as [|n [|m rest]]; cbn; [repeat split; lia| |];
    unfold invoke_sendOutChord; cbn;
    destruct (callBacks_sendOutChord w) eqn:Hcb; cbn;
    rewrite ?length_app; cbn; repeat split; (exact Hcb || lia).
Qed.

(** A tick that comes before the window has expired changes nothing,
    whatever is pending. *)
Lemma clearOldChords_early (nowInMs : Z) (w : World) :
  nowInMs <= heldChordTime w + maxDelay w ->
  clearOldChords chordQuarterLength nowInMs w = (w, maxDelay w).
Proof.
  intros Hearly. unfold clearOldChords.
  rewrite (proj2 (Z.ltb_ge _ _) Hearly). reflexivity.
Qed.

Lemma clearOldChords_config (nowInMs : Z) (w : World) :
  let w' := fst (clearOldChords chordQuarterLength nowInMs w) in
  maxDelay w' = maxDelay w
  /\ callBacks_sendOutChord w' = callBacks_sendOutChord w
  /\ heldChordTime w'
     = (if heldChordTime w + maxDelay w <? nowInMs then nowInMs else heldChordTime w)
  /\ (length (sent w') <= length (sent w) + 1)%nat.
Proof.
  unfold clearOldChords.
  destruct (heldChordTime w + maxDelay w <? nowInMs); cbn [fst];
    [|repeat split; lia].
  cbn [heldChordNotes set_heldChordTime].
  destruct (heldChordNotes w) as [held|]; [|cbn; repeat split; lia].
  destruct (sendOutChord_config held nowInMs (set_heldChordTime nowInMs w))
    as (Hmd & Hht & _ & Hcb & _ & Hsent).
  cbn in *. repeat split; assumption.
Qed.

(** ** Invariants of a run *)

(** X5: with a delay that is not negative, the time of the last flush never
    goes back, through any sequence of events and ticks; the delay itself
    and the handler stay as configured, and at most one element is emitted
    per tick. *)
Theorem heldChordTime_never_goes_back (acts : list Action) :
  forall (w w' : World),
  0 <= maxDelay w ->
  run newQuarterLength chordQuarterLength acts w = inr w' ->
  heldChordTime w <= heldChordTime w'
  /\ maxDelay w' = maxDelay w
  /\ callBacks_sendOutChord w' = callBacks_sendOutChord w
  /\ (length (sent w') <= length (sent w) + length (ticks acts))%nat.
Proof.
  induction acts as [|a acts IH]; intros w w' Hmd Hrun; cbn [run] in Hrun.
  - injection Hrun as <-. cbn. repeat split; lia.
  - destruct a as [e|nowInMs]; cbn [step ticks length] in *.
    + destruct (makeChords newQuarterLength e w) as [err|w1] eqn:Hstep; [discriminate|].
      destruct (makeChords_frame _ _ _ _ Hstep) as (Hmd1 & Hht1 & Hcb1 & Hsent1).
      destruct (IH w1 w' ltac:(lia) Hrun) as (Hht & Hmd' & Hcb & Hsent).
      repeat split; congruence || lia.
    + destruct (clearOldChords_config nowInMs w) as (Hmd1 & Hcb1 & Hht1 & Hsent1).
      set (w1 := fst (clearOldChords chordQuarterLength nowInMs w)) in *.
      destruct (IH w1 w' ltac:(lia) Hrun) as (Hht & Hmd' & Hcb & Hsent).
      destruct (Z.ltb_spec (heldChordTime w + maxDelay w) nowInMs);
        repeat split; congruence || lia.
Qed.

(** ** Collecting *)

Lemma makeChords_store (e : Event) (w w' : World) :
  makeChords newQuarterLength e w = inr w' ->
  store w'
  = store w ++ (if noteOn e
                then [mkGeneralNote None newQuarterLength (NoteBody (midiNote e))]
                else [])
  /\ lastElement w' = lastElement w
  /\ timeOfLastNote w' = timeOfLastNote w.
Proof.
  unfold makeChords.
  destruct (noteOn e); cbn [music21Note Miditools.alloc heldChordNotes set_store];
    [|intros [= <-]; rewrite app_nil_r; auto].
  destruct (heldChordNotes w); [|intros [= <-]; auto].
  destruct (find_duplicate _ _ _) as [err|[|]]; [discriminate| |];
    intros [= <-]; auto.
Qed.

(** X6: while no tick finds the window expired, nothing is emitted and nothing
    pending is dropped or moved: the pending notes and the store only grow
    at their ends, the pending pitches are those pending before followed by
    the new note-on pitches in first-seen order, and the time of the last
    flush and [lastElement] stay. *)
Theorem collecting_is_undisturbed (acts : list Action) :
  forall (w : World) (pss : list (option Z)),
  held_pitches w = Some pss ->
  Forall (fun nowInMs => nowInMs <= heldChordTime w + maxDelay w) (ticks acts) ->
  exists w',
    run newQuarterLength chordQuarterLength acts w = inr w'
    /\ held_pitches w' = Some (first_seen_from pss (incoming_pitches acts))
    /\ pending w `prefix_of` pending w'
    /\ store w `prefix_of` store w'
    /\ sent w' = sent w
    /\ lastElement w' = lastElement w
    /\ heldChordTime w' = heldChordTime w.
Proof.
  induction acts as [|a acts IH]; intros w pss Hps Hticks;
    cbn [run step ticks incoming_pitches first_seen_from] in *.
  - exists w. repeat split; (exact Hps || reflexivity).
  - destruct a as [e|nowInMs]; cbn [step ticks incoming_pitches] in *.
    + destruct (noteOn e) eqn:Hon.
      * destruct (makeChords_noteOn newQuarterLength e w pss Hon Hps)
          as (w1 & Hrun & Hheld & Hps1 & _).
        destruct (makeChords_frame _ _ _ _ Hrun) as (Hmd & Hht & _ & Hsent).
        destruct (makeChords_store _ _ _ Hrun) as (Hstore & Hlast & _).
        rewrite Hrun. cbn [first_seen_from].
        destruct (IH w1 _ Hps1) as (w' & Hrun' & Hps' & Hpre & Hstpre & Hsent' & Hlast' & Hht');
          [rewrite Hmd, Hht; exact Hticks|].
        exists w'. split; [exact Hrun'|].
        split; [rewrite Hps'; destruct (bool_decide _); reflexivity|].
        split.
        { etransitivity; [|exact Hpre]. unfold pending at 2. rewrite Hheld.
          destruct (bool_decide _); [reflexivity|].
          cbn. apply prefix_app_r. reflexivity. }
        split.
        { etransitivity; [|exact Hstpre]. rewrite Hstore.
          apply prefix_app_r. reflexivity. }
        repeat split; congruence.
      * rewrite (makeChords_ignores newQuarterLength e w Hon).
        apply IH; assumption.
    + apply Forall_cons in Hticks as [Hearly Hticks].
      rewrite (clearOldChords_early nowInMs w Hearly). cbn [fst].
      apply IH; assumption.
Qed.

(** ** Flushing *)

(** X7: a tick that finds the window expired leaves nothing pending and sets
    the time of the last flush to its own.  When notes were pending it
    emits one element, which sounds their pitches in their order and is the
    new [lastElement]; when none were it emits nothing. *)
Theorem flush_on_expiry (nowInMs : Z) (w : World) (pss : list (option Z)) :
  held_pitches w = Some pss ->
  heldChordTime w + maxDelay w < nowInMs ->
  let w' := fst (clearOldChords chordQuarterLength nowInMs w) in
  heldChordNotes w' = None
  /\ heldChordTime w' = nowInMs
  /\ match pss with
     | [] => sent w' = sent w /\ lastElement w' = lastElement w
     | _ :: _ =>
         exists el,
           sent w' = sent w ++ (if callBacks_sendOutChord w then [el] else [])
           /\ lastElement w' = Some el
           /\ element_pitches (store w') el = Some pss
     end.
Proof.
  intros Hps Hexp. unfold clearOldChords.
  rewrite (proj2 (Z.ltb_lt _ _) Hexp).
  cbn [fst heldChordNotes set_heldChordTime].
  unfold held_pitches, pending in Hps.
  destruct (heldChordNotes w) as [[|n rest]|] eqn:Hheld; cbn [default] in Hps.
  - cbn in Hps. injection Hps as <-. cbn. auto.
  - destruct (sendOutChord_pitches chordQuarterLength nowInMs
                (set_heldChordTime nowInMs w) n rest _ Hps)
      as (el & w2 & Hflush & Hsent & Hpitches).
    pose proof (sendOutChord_config (n :: rest) nowInMs (set_heldChordTime nowInMs w))
      as (_ & Hht & _).
    assert (Hlast : lastElement w2 = Some el).
    { revert Hflush. destruct rest as [|m rest];
        cbn [sendOutChord new_Chord Miditools.alloc snd quantizeLastNote];
        intros [= <- <-]; rewrite invoke_sendOutChord_lastElement; reflexivity. }
    rewrite Hflush in *. cbn [snd] in *.
    split; [reflexivity|]. split; [exact Hht|].
    assert (Hsome : pss <> []).
    { apply mapM_Some in Hps. inversion Hps; discriminate. }
    destruct pss as [|p pss]; [congruence|].
    exists el. cbn. auto.
  - cbn in Hps. injection Hps as <-. cbn. auto.
Qed.

End Runs.

Lemma heldChordTime_never_goes_back_witness :
  exists w',
    run 1 one_quarter ((Incoming <$> sample_events) ++ [Tick 1000]) (initial_world [])
    = inr w'
    /\ heldChordTime (initial_world []) <= heldChordTime w'
    /\ (length (sent w') <= 1)%nat.
Proof.
  destruct (run 1 one_quarter ((Incoming <$> sample_events) ++ [Tick 1000])
              (initial_world [])) as [err|w'] eqn:Hrun;
    [vm_compute in Hrun; discriminate Hrun|].
  exists w'. split; [reflexivity|].
  destruct (heldChordTime_never_goes_back 1 one_quarter
              ((Incoming <$> sample_events) ++ [Tick 1000]) (initial_world []) w'
              ltac:(cbn; lia) Hrun) as (Htime & _ & _ & Hsent).
  split; [exact Htime|exact Hsent].
Defined.

Lemma collecting_is_undisturbed_witness :
  exists w',
    run 1 one_quarter ((Incoming <$> sample_events) ++ [Tick 50]) (initial_world [])
    = inr w'
    /\ held_pitches w' = Some [Some 60; Some 64]
    /\ sent w' = [].
Proof.
  destruct (collecting_is_undisturbed 1 one_quarter
              ((Incoming <$> sample_events) ++ [Tick 50]) (initial_world []) []
              eq_refl)
    as (w' & Hrun & Hps & _ & _ & Hsent & _).
  { cbn. repeat constructor. cbn. lia. }
  exists w'. split; [exact Hrun|]. split; [exact Hps|exact Hsent].
Defined.

Lemma flush_on_expiry_witness :
  let w := set_heldChordNotes (Some [0%nat; 1%nat]) (initial_world sample_store) in
  exists el,
    sent (fst (clearOldChords one_quarter 1000 w)) = [el]
    /\ element_pitches (store (fst (clearOldChords one_quarter 1000 w))) el
       = Some [Some 60; Some 64].
Proof.
  intros w.
  destruct (flush_on_expiry one_quarter 1000 w [Some 60; Some 64] eq_refl
              ltac:(cbn; lia))
    as (_ & _ & el & Hsent & _ & Hps).
  exists el. split; [exact Hsent|exact Hps].
Defined.

End Window.

(* ====================================================================== *)
(** * Playing an event, and the tempo *)
(* ====================================================================== *)

Module MidiOut.
Import Miditools.

(** ** Data *)

(** A call on the audio engine, with the arguments it was given; [None] is
    an argument that was [undefined]. *)
Inductive MidiCall : Type :=
| MIDI_noteOn (args : list (option Q))
| MIDI_noteOff (args : list (option Q))
| MIDI_programChange (args : list (option Q)).

(** The audio engine as the module sees it: [MIDI.config.is_connected],
    the calls made on it (oldest first), and what [console.warn] printed. *)
Record Engine : Type := mkEngine {
  is_connected : bool;
  calls : list MidiCall;
  warnings : list string;
}.

Definition number (z : option Z) : option Q := inject_Z <$> z.

(** [Event.prototype.sendToMIDIjs()], which the exported [sendToMIDIjs]
    calls on its argument. *)
Definition sendToMIDIjs (this : Event) (m : Engine) : Engine :=
  if is_connected m then
    if noteOn this then
      mkEngine (is_connected m)
               (calls m ++ [MIDI_noteOn [Some 0%Q; number (midiNote this);
                                         number (velocity this); Some 0%Q]])
               (warnings m)
    else if noteOff this then
      mkEngine (is_connected m)
               (calls m ++ [MIDI_noteOff [Some 0%Q; number (midiNote this); Some 0%Q]])
               (warnings m)
    else m
  else
    mkEngine (is_connected m) (calls m)
             (warnings m ++ ["could not playback note because no MIDI connection defined"%string]).

Definition set__baseTempo (v : float) (w : World) : World :=
  mkWorld (transposeOctave w) (maxDelay w) (heldChordTime w) (heldChordNotes w)
          (timeOfLastNote w) (lastElement w) v (metronome w)
          (callBacks_sendOutChord w) (store w) (sent w).

Definition set_metronome (v : option float) (w : World) : World :=
  mkWorld (transposeOctave w) (maxDelay w) (heldChordTime w) (heldChordNotes w)
          (timeOfLastNote w) (lastElement w) (_baseTempo w) v
          (callBacks_sendOutChord w) (store w) (sent w).

Section Tempo.

(** [tempo.Metronome] is not among the sources.  What its [tempo] reads
    after the assignment [metronome.tempo = t], from what it read before,
    is a parameter ([Metronome_put_tempo before t]); the assignment is taken
    to return and to touch nothing of [config]. *)
Variable Metronome_put_tempo : float -> float -> float.

(** [config.tempo = t], the setter: it assigns to the metronome's tempo
    when there is a metronome, to [_baseTempo] otherwise. *)
Definition put_tempo (t : float) (w : World) : World :=
  match metronome w with
  | None => set__baseTempo t w
  | Some before => set_metronome (Some (Metronome_put_tempo before t)) w
  end.

End Tempo.

(** A metronome that keeps its tempo between 10 and 600 beats a minute. *)
Definition bounded_tempo (before t : float) : float :=
  if (600 <? t)%float then 600%float
  else if (t <? 10)%float then 10%float
  else t.

(** ** Properties *)

(** X8: an event built from the raw bytes and played at once: without a
    connection nothing reaches the engine and one warning is printed; with
    one, nothing is printed, a command 9 gives one [noteOn] and a command 8
    one [noteOff], both on channel 0 with the transposed note and no delay,
    and any other command gives nothing.  A note-on of velocity 0 is played
    as a note-on. *)
Theorem sendToMIDIjs_of_raw (w : World) (t a b c : Z) (m : Engine) :
  let e := new_Event w t a b c in
  let m' := sendToMIDIjs e m in
  let note := Some (inject_Z (b + 12 * transposeOctave w)) in
  is_connected m' = is_connected m
  /\ (is_connected m = false ->
      calls m' = calls m
      /\ warnings m'
         = warnings m
           ++ ["could not playback note because no MIDI connection defined"%string])
  /\ (is_connected m = true ->
      warnings m' = warnings m
      /\ calls m'
         = calls m
           ++ (if midiCommand e =? 9
               then [MIDI_noteOn [Some 0%Q; note; Some (inject_Z c); Some 0%Q]]
               else if midiCommand e =? 8
               then [MIDI_noteOff [Some 0%Q; note; Some 0%Q]]
               else [])).
Proof.
  intros e m' note. subst e m' note. unfold new_Event, sendToMIDIjs.
  set (cmd := Z.shiftr (toInt32 a) 4).
  destruct (is_connected m) eqn:Hconn;
    destruct (Z.eqb_spec cmd 9) as [H9|H9], (Z.eqb_spec cmd 8) as [H8|H8];
    cbn [orb noteOn noteOff midiNote velocity midiCommand is_connected calls warnings];
    rewrite ?Hconn;
    cbn [noteOn noteOff midiNote velocity midiCommand is_connected calls warnings
         number fmap option_fmap option_map];
    try (rewrite (proj2 (Z.eqb_eq cmd 9) H9));
    try (rewrite (proj2 (Z.eqb_neq cmd 9) H9));
    try (rewrite (proj2 (Z.eqb_eq cmd 8) H8));
    try (rewrite (proj2 (Z.eqb_neq cmd 8) H8));
    repeat split; intros; try discriminate; try reflexivity;
    try (symmetry; apply app_nil_r).
Qed.

Section TempoProperties.

Variable Metronome_put_tempo : float -> float -> float.

(** X9: without a metronome, writing the tempo and reading it back gives
    what was written, and the last write wins.  With a metronome the write
    goes to the metronome, whose setter decides what its tempo reads
    afterwards; the base tempo is not touched and is the tempo again once
    the metronome is taken away.  A metronome is neither made nor dropped,
    and nothing else of the configuration changes. *)
Theorem tempo_round_trip (t1 t2 : float) (w : World) :
  (metronome w = None ->
   tempo (put_tempo Metronome_put_tempo t1 w) = t1
   /\ put_tempo Metronome_put_tempo t2 (put_tempo Metronome_put_tempo t1 w)
      = put_tempo Metronome_put_tempo t2 w
   /\ metronome (put_tempo Metronome_put_tempo t1 w) = None)
  /\ (forall before : float,
      metronome w = Some before ->
      metronome (put_tempo Metronome_put_tempo t1 w)
      = Some (Metronome_put_tempo before t1)
      /\ tempo (put_tempo Metronome_put_tempo t1 w) = Metronome_put_tempo before t1
      /\ _baseTempo (put_tempo Metronome_put_tempo t1 w) = _baseTempo w
      /\ tempo (set_metronome None (put_tempo Metronome_put_tempo t1 w))
         = _baseTempo w)
  /\ (let w' := put_tempo Metronome_put_tempo t1 w in
      (heldChordNotes w', heldChordTime w', timeOfLastNote w', lastElement w',
       store w', sent w', maxDelay w', transposeOctave w')
      = (heldChordNotes w, heldChordTime w, timeOfLastNote w, lastElement w,
         store w, sent w, maxDelay w, transposeOctave w)).
Proof.
  unfold put_tempo, tempo.
  destruct (metronome w) as [t0|] eqn:Hm; cbn; rewrite ?Hm; cbn;
    repeat split; try discriminate; try congruence; intros; congruence.
Qed.

(** X10: with no metronome set, the quantizer, called with [this] bound to
    [config], reads the tempo that was last written. *)
Theorem quantizer_reads_written_tempo
    (t : float) (nowInMS : Z) (w : World) (el : loc) (o : GeneralNote) :
  metronome w = None ->
  store w !! el = Some o ->
  store (snd (quantizeLastNote ThisConfig (Some el) nowInMS
                (put_tempo Metronome_put_tempo t w))) !! el
  = Some (mkGeneralNote None
            (quantizedQuarterLength (elapsed nowInMS (timeOfLastNote w)) t)
            (body o)).
Proof.
  intros Hm Hel.
  rewrite (Quantizing.quantizeLastNote_element nowInMS
             (put_tempo Metronome_put_tempo t w) el o).
  - unfold put_tempo, tempo. rewrite Hm. cbn. rewrite Hm. reflexivity.
  - unfold put_tempo. rewrite Hm. exact Hel.
Qed.

End TempoProperties.

Lemma sendToMIDIjs_of_raw_witness :
  calls (sendToMIDIjs (new_Event (initial_world []) 0 144 60 0)
                      (mkEngine true [] []))
  = [MIDI_noteOn [Some 0%Q; Some (inject_Z 60); Some (inject_Z 0); Some 0%Q]].
Proof.
  pose proof (sendToMIDIjs_of_raw (initial_world []) 0 144 60 0
                (mkEngine true [] [])) as H.
  cbv zeta in H. destruct H as (_ & _ & H).
  exact (proj2 (H eq_refl)).
Defined.

Lemma tempo_round_trip_witness :
  tempo (put_tempo bounded_tempo 1000 (initial_world [])) = 1000%float
  /\ tempo (put_tempo bounded_tempo 1000
              (set_metronome (Some 72%float) (initial_world [])))
     = 600%float
  /\ tempo (set_metronome None
              (put_tempo bounded_tempo 1000
                 (set_metronome (Some 72%float) (initial_world []))))
     = 60%float.
Proof.
  destruct (tempo_round_trip bounded_tempo 1000 1000 (initial_world []))
    as (Hbase & _ & _).
  destruct (tempo_round_trip bounded_tempo 1000 1000
              (set_metronome (Some 72%float) (initial_world [])))
    as (_ & Hmetronome & _).
  destruct (Hbase eq_refl) as (Hread & _).
  destruct (Hmetronome _ eq_refl) as (_ & Hclamped & _ & Hback).
  split; [exact Hread|]. split; [exact Hclamped|exact Hback].
Defined.

Lemma quantizer_reads_written_tempo_witness :
  store (snd (quantizeLastNote ThisConfig (Some 0%nat) 1000
                (put_tempo bounded_tempo 120 (initial_world sample_store)))) !! 0%nat
  = Some (mkGeneralNote None 2 (NoteBody (Some 60))).
Proof.
  exact (quantizer_reads_written_tempo bounded_tempo 120 1000
           (initial_world sample_store) 0%nat _ eq_refl eq_refl).
Defined.

End MidiOut.

(* ====================================================================== *)
(** * Loading sound fonts *)
(* ====================================================================== *)

Module Soundfonts.
Import MidiOut.

(** ** Data *)

(** What [instrument.find] gives: an instrument with its channel and its
    program. *)
Record Instrument : Type := mkInstrument {
  midiChannel : Z;
  midiProgram : Z;
}.

(** A value stored in [loadedSoundfonts].  A name that is not a key reads
    as [undefined], or as what [Object.prototype] holds under it: in both
    cases as something that is neither [true] nor ['loading']. *)
Inductive Status : Type :=
| StatusTrue      (* true *)
| StatusLoading.  (* 'loading' *)

(** What the page has pending: a [$(document).ready] handler, a plugin load
    whose [onsuccess] is [postLoadCallback.bind(MIDI, soundfont, callback)],
    and a [setTimeout(waitThenCall, 100)].  Each runs once or never, at any
    later moment, the next one included.  A callback is a handler of the
    caller, known by a number; [None] is [undefined].  A handler does not
    call back into this module. *)
Inductive Task : Type :=
| DocumentReady (soundfont : string) (callback : option nat)
| PluginLoading (soundfont : string) (callback : option nat)
| WaitThenCall (soundfont : string) (callback : option nat).

Record Page : Type := mkPage {
  loadedSoundfonts : gmap string Status;
  tasks : list Task;
  loadingSoundfont : nat;                     (* elements of class loadingSoundfont *)
  midi : list MidiCall;                       (* calls on MIDI, oldest first *)
  requested : list string;                    (* MIDI.loadPlugin calls, by instrument *)
  invoked : list (nat * option Instrument);   (* callbacks called, with the argument *)
  console : list (list string);               (* console.log calls *)
}.

Definition empty_page : Page := mkPage ∅ [] 0 [] [] [] [].

(** [loadedSoundfonts[soundfont] = s], on the own properties of the object.
    The object is a plain [{}]: under the name [__proto__], unless it has
    an own property of that name, the assignment goes to the accessor of
    [Object.prototype], whose setter ignores a value that is no object, and
    nothing is stored.  Any other name becomes or stays an own property. *)
Definition assign (soundfont : string) (s : Status) (own : gmap string Status)
  : gmap string Status :=
  if bool_decide (soundfont = "__proto__"%string /\ own !! soundfont = None)
  then own
  else <[soundfont := s]> own.

Definition put_status (soundfont : string) (s : Status) (p : Page) : Page :=
  mkPage (assign soundfont s (loadedSoundfonts p)) (tasks p) (loadingSoundfont p)
         (midi p) (requested p) (invoked p) (console p).

Definition set_tasks (ts : list Task) (p : Page) : Page :=
  mkPage (loadedSoundfonts p) ts (loadingSoundfont p) (midi p) (requested p)
         (invoked p) (console p).

Definition set_loadingSoundfont (n : nat) (p : Page) : Page :=
  mkPage (loadedSoundfonts p) (tasks p) n (midi p) (requested p) (invoked p)
         (console p).

Definition MIDI_call (c : MidiCall) (p : Page) : Page :=
  mkPage (loadedSoundfonts p) (tasks p) (loadingSoundfont p) (midi p ++ [c])
         (requested p) (invoked p) (console p).

Definition MIDI_loadPlugin (soundfont : string) (callback : option nat) (p : Page) : Page :=
  mkPage (loadedSoundfonts p) (tasks p ++ [PluginLoading soundfont callback])
         (loadingSoundfont p) (midi p) (requested p ++ [soundfont]) (invoked p)
         (console p).

Definition console_log (args : list string) (p : Page) : Page :=
  mkPage (loadedSoundfonts p) (tasks p) (loadingSoundfont p) (midi p) (requested p)
         (invoked p) (console p ++ [args]).

Definition later (t : Task) (p : Page) : Page := set_tasks (tasks p ++ [t]) p.

Definition task_soundfont (t : Task) : string :=
  match t with
  | DocumentReady s _ | PluginLoading s _ | WaitThenCall s _ => s
  end.

Definition task_callback (t : Task) : option nat :=
  match t with
  | DocumentReady _ c | PluginLoading _ c | WaitThenCall _ c => c
  end.

Definition is_DocumentReady (soundfont : string) (t : Task) : bool :=
  match t with
  | DocumentReady s _ => bool_decide (s = soundfont)
  | _ => false
  end.

Definition is_PluginLoading (soundfont : string) (t : Task) : bool :=
  match t with
  | PluginLoading s _ => bool_decide (s = soundfont)
  | _ => false
  end.

Definition is_WaitThenCall (soundfont : string) (t : Task) : bool :=
  match t with
  | WaitThenCall s _ => bool_decide (s = soundfont)
  | _ => false
  end.

Definition any_PluginLoading (t : Task) : bool :=
  match t with
  | PluginLoading _ _ => true
  | _ => false
  end.

Fixpoint count {A : Type} (f : A -> bool) (l : list A) : nat :=
  match l with
  | [] => 0
  | x :: l => (if f x then 1 else 0) + count f l
  end.

(** What the page is asked to do: a call of [loadSoundfont], or the browser
    running the pending task at a position. *)
Inductive Activity : Type :=
| Request (soundfont : string) (callback : option nat)
| Fire (i : nat).

Definition request_callback (a : Activity) : option nat :=
  match a with
  | Request _ c => c
  | Fire _ => None
  end.

Definition waiting_callback (soundfont : string) (t : Task) : option (option nat) :=
  match t with
  | WaitThenCall s c => if bool_decide (s = soundfont) then Some c else None
  | _ => None
  end.

Definition request_for (soundfont : string) (a : Activity) : option (option nat) :=
  match a with
  | Request s c => if bool_decide (s = soundfont) then Some c else None
  | Fire _ => None
  end.

Section Loading.

(** The page's surroundings: the [debug] flag, whether [InstallTrigger] is
    defined, whether [MIDI.config.api] is ['audiotag'], what
    [instrument.find] gives for a name, and whether a handler of the caller
    throws on an argument. *)
Variable debug : bool.
Variable isFirefox : bool.
Variable isAudioTag : bool.
Variable find : string -> option Instrument.
Variable throws : nat -> option Instrument -> bool.

(** [if (callback !== undefined) { callback(instrumentObj); }]: the page
    after the call, and whether the call threw. *)
Definition invoke (callback : option nat) (instrumentObj : option Instrument)
    (p : Page) : Page * bool :=
  match callback with
  | None => (p, false)
  | Some f =>
      (mkPage (loadedSoundfonts p) (tasks p) (loadingSoundfont p) (midi p)
              (requested p) (invoked p ++ [(f, instrumentObj)]) (console p),
       throws f instrumentObj)
  end.

Definition when_debug (args : list string) (p : Page) : Page :=
  if debug then console_log args p else p.

(** [postLoadCallback(soundfont, callback)]. *)
Definition postLoadCallback (soundfont : string) (callback : option nat)
    (p : Page) : Page :=
  let p := when_debug ["soundfont loaded about to execute callback."%string] p in
  let p := when_debug
             ["first playing two notes very softly -- seems to flush the buffer."%string] p in
  let p := set_loadingSoundfont 0 p in
  let instrumentObj := find soundfont in
  let p :=
    match instrumentObj with
    | Some i =>
        let p := MIDI_call (MIDI_programChange
                              [number (Some (midiChannel i));
                               number (Some (midiProgram i))]) p in
        let p := when_debug
                   [(soundfont +:+ " (" +:+ pretty (midiProgram i) +:+ ") loaded on ")%string;
                    pretty (midiChannel i)] p in
        if negb isFirefox && negb isAudioTag then
          let channel := number (Some (midiChannel i)) in
          let p := MIDI_call (MIDI_noteOn [channel; Some 36%Q; Some 1%Q; Some 0%Q]) p in
          let p := MIDI_call (MIDI_noteOff [channel; Some 36%Q; Some 1%Q; Some (1#10)%Q]) p in
          let p := MIDI_call (MIDI_noteOn [channel; Some 48%Q; Some 1%Q; Some (2#10)%Q]) p in
          let p := MIDI_call (MIDI_noteOff [channel; Some 48%Q; Some 1%Q; Some (3#10)%Q]) p in
          let p := MIDI_call (MIDI_noteOn [channel; Some 60%Q; Some 1%Q; Some (3#10)%Q]) p in
          MIDI_call (MIDI_noteOff [channel; Some 60%Q; Some 1%Q; Some (4#10)%Q]) p
        else p
    | None => p
    end in
  let '(p, threw) := invoke callback instrumentObj p in
  if threw then p else put_status soundfont StatusTrue p.

(** The [waitThenCall] closure of [loadSoundfont]. *)
Definition waitThenCall (soundfont : string) (callback : option nat) (p : Page) : Page :=
  match loadedSoundfonts p !! soundfont with
  | Some StatusTrue =>
      let p := when_debug
                 ["other process has finished loading; calling callback"%string] p in
      fst (invoke callback (find soundfont) p)
  | _ =>
      let p := when_debug ["waiting for other process load"%string] p in
      later (WaitThenCall soundfont callback) p
  end.

(** [loadSoundfont(soundfont, callback)]. *)
Definition loadSoundfont (soundfont : string) (callback : option nat) (p : Page) : Page :=
  match loadedSoundfonts p !! soundfont with
  | Some StatusTrue => fst (invoke callback (find soundfont) p)
  | Some StatusLoading => waitThenCall soundfont callback p
  | None =>
      let p := put_status soundfont StatusLoading p in
      let p := when_debug ["waiting for document ready"%string] p in
      later (DocumentReady soundfont callback) p
  end.

(** A pending task runs. *)
Definition run_task (t : Task) (p : Page) : Page :=
  match t with
  | DocumentReady soundfont callback =>
      let p := when_debug ["document ready, waiting to load soundfont"%string] p in
      let p := set_loadingSoundfont (S (loadingSoundfont p)) p in
      MIDI_loadPlugin soundfont callback p
  | PluginLoading soundfont callback => postLoadCallback soundfont callback p
  | WaitThenCall soundfont callback => waitThenCall soundfont callback p
  end.

Definition step (a : Activity) (p : Page) : Page :=
  match a with
  | Request soundfont callback => loadSoundfont soundfont callback p
  | Fire i =>
      match tasks p !! i with
      | Some t => run_task t (set_tasks (delete i (tasks p)) p)
      | None => p
      end
  end.

Definition run (acts : list Activity) (p : Page) : Page :=
  foldl (fun p a => step a p) p acts.

End Loading.

(** A sound font is settled on a page when the plugin was asked for it and
    no load of it is pending. *)
Definition settled (soundfont : string) (p : Page) : Prop :=
  soundfont ∈ requested p /\ count (is_PluginLoading soundfont) (tasks p) = 0%nat.

Definition status_le (s s' : option Status) : Prop :=
  match s, s' with
  | None, _ => True
  | Some StatusLoading, Some _ => True
  | Some StatusTrue, Some StatusTrue => True
  | _, _ => False
  end.

(** What holds of every page reached from the empty one, for every name
    that [loadedSoundfonts] keeps when it is assigned. *)
Definition coherent (p : Page) : Prop :=
  forall soundfont,
    soundfont <> "__proto__"%string ->
    match loadedSoundfonts p !! soundfont with
    | None =>
        count (is_DocumentReady soundfont) (tasks p) = 0%nat
        /\ count (is_PluginLoading soundfont) (tasks p) = 0%nat
        /\ count (is_WaitThenCall soundfont) (tasks p) = 0%nat
        /\ count (fun s => bool_decide (s = soundfont)) (requested p) = 0%nat
    | Some StatusLoading =>
        (count (is_DocumentReady soundfont) (tasks p)
         + count (fun s => bool_decide (s = soundfont)) (requested p) = 1)%nat
        /\ (count (is_PluginLoading soundfont) (tasks p)
            <= count (fun s => bool_decide (s = soundfont)) (requested p))%nat
    | Some StatusTrue =>
        count (is_DocumentReady soundfont) (tasks p) = 0%nat
        /\ count (is_PluginLoading soundfont) (tasks p) = 0%nat
        /\ count (fun s => bool_decide (s = soundfont)) (requested p) = 1%nat
    end.

(** A sound font is blocked on a page when it is 'loading' and nothing
    pending will load it. *)
Definition blocked (soundfont : string) (p : Page) : Prop :=
  loadedSoundfonts p !! soundfont = Some StatusLoading
  /\ count (is_DocumentReady soundfont) (tasks p) = 0%nat
  /\ count (is_PluginLoading soundfont) (tasks p) = 0%nat.

Definition task_key (t : Task) : string * option nat :=
  (task_soundfont t, task_callback t).

(** The notes [postLoadCallback] plays on a channel. *)
Definition flushing_notes (channel : Z) : list MidiCall :=
  [MIDI_noteOn [number (Some channel); Some 36%Q; Some 1%Q; Some 0%Q];
   MIDI_noteOff [number (Some channel); Some 36%Q; Some 1%Q; Some (1#10)%Q];
   MIDI_noteOn [number (Some channel); Some 48%Q; Some 1%Q; Some (2#10)%Q];
   MIDI_noteOff [number (Some channel); Some 48%Q; Some 1%Q; Some (3#10)%Q];
   MIDI_noteOn [number (Some channel); Some 60%Q; Some 1%Q; Some (3#10)%Q];
   MIDI_noteOff [number (Some channel); Some 60%Q; Some 1%Q; Some (4#10)%Q]].

Definition sample_find (soundfont : string) : option Instrument :=
  if bool_decide (soundfont = "clarinet"%string) then Some (mkInstrument 1 71) else None.

Definition never_throws : nat -> option Instrument -> bool := fun _ _ => false.

Definition always_throws : nat -> option Instrument -> bool := fun _ _ => true.

(** ** Assigning a status *)

Lemma assign_insert (soundfont : string) (s : Status) (own : gmap string Status) :
  soundfont <> "__proto__"%string -> assign soundfont s own = <[soundfont := s]> own.
Proof.
  intros Hne. unfold assign. rewrite bool_decide_eq_false_2; [reflexivity|].
  intros [H _]. contradiction.
Qed.

Lemma lookup_assign_ne (soundfont other : string) (s : Status)
    (own : gmap string Status) :
  soundfont <> other -> assign soundfont s own !! other = own !! other.
Proof.
  intros Hne. unfold assign.
  destruct (bool_decide _); [reflexivity|]. apply lookup_insert_ne, Hne.
Qed.

Lemma lookup_assign_eq (soundfont : string) (s : Status) (own : gmap string Status) :
  assign soundfont s own !! soundfont = Some s
  \/ (soundfont = "__proto__"%string
      /\ own !! soundfont = None
      /\ assign soundfont s own = own).
Proof.
  unfold assign.
  destruct (bool_decide_reflect (soundfont = "__proto__"%string
                                 /\ own !! soundfont = None)) as [[H1 H2]|_].
  - right. auto.
  - left. apply lookup_insert_eq.
Qed.

(** ** Counting *)

Lemma count_app {A : Type} (f : A -> bool) (l1 l2 : list A) :
  count f (l1 ++ l2) = (count f l1 + count f l2)%nat.
Proof. induction l1 as [|x l1 IH]; cbn; [reflexivity|rewrite IH; lia]. Qed.

Lemma count_delete {A : Type} (f : A -> bool) (l : list A) (i : nat) (x : A) :
  l !! i = Some x ->
  count f l = ((if f x then 1 else 0) + count f (delete i l))%nat.
Proof.
  revert i. induction l as [|y l IH]; intros [|i] Hi; try discriminate.
  - injection Hi as ->. reflexivity.
  - change (delete (S i) (y :: l)) with (y :: delete i l). cbn [count].
    rewrite (IH i Hi). destruct (f x), (f y); lia.
Qed.

Lemma count_elem (x : string) (l : list string) :
  x ∈ l <-> (0 < count (fun s => bool_decide (s = x)) l)%nat.
Proof.
  induction l as [|y l IH]; cbn.
  - split; [intros H; inversion H|lia].
  - rewrite elem_of_cons, IH. destruct (decide (y = x)) as [->|Hne].
    + rewrite bool_decide_eq_true_2 by reflexivity. split; [lia|auto].
    + rewrite bool_decide_eq_false_2 by exact Hne.
      split; [intros [->|H]; [contradiction|lia]|right; lia].
Qed.

(** ** What one activity does to each part of the page *)

Section LoadingProperties.

Variable debug : bool.
Variable isFirefox : bool.
Variable isAudioTag : bool.
Variable find : string -> option Instrument.
Variable throws : nat -> option Instrument -> bool.

Ltac crunch :=
  unfold step, run_task, loadSoundfont, waitThenCall, postLoadCallback, invoke,
    when_debug;
  destruct debug, isFirefox, isAudioTag;
  repeat match goal with
         | |- context [loadedSoundfonts (set_tasks ?ts ?q)] =>
             change (loadedSoundfonts (set_tasks ts q)) with (loadedSoundfonts q)
         | |- context [match ?x with _ => _ end] => is_var x; destruct x
         | |- context [match ?x !! ?y with _ => _ end] => destruct (x !! y) eqn:?
         | |- context [match find ?s with _ => _ end] => destruct (find s) eqn:?
         | |- context [if throws ?f ?i then _ else _] => destruct (throws f i) eqn:?
         end;
  lazy beta iota zeta delta
    [later MIDI_loadPlugin MIDI_call set_loadingSoundfont console_log set_tasks
     put_status loadedSoundfonts tasks loadingSoundfont midi requested invoked
     console fst snd negb andb flushing_notes];
  rewrite <- ?app_assoc, ?app_nil_r; reflexivity.

Lemma step_tasks (a : Activity) (p : Page) :
  tasks (step debug isFirefox isAudioTag find throws a p)
  = match a with
    | Request soundfont callback =>
        match loadedSoundfonts p !! soundfont with
        | Some StatusTrue => tasks p
        | Some StatusLoading => tasks p ++ [WaitThenCall soundfont callback]
        | None => tasks p ++ [DocumentReady soundfont callback]
        end
    | Fire i =>
        match tasks p !! i with
        | None => tasks p
        | Some (DocumentReady soundfont callback) =>
            delete i (tasks p) ++ [PluginLoading soundfont callback]
        | Some (PluginLoading _ _) => delete i (tasks p)
        | Some (WaitThenCall soundfont callback) =>
            match loadedSoundfonts p !! soundfont with
            | Some StatusTrue => delete i (tasks p)
            | _ => delete i (tasks p) ++ [WaitThenCall soundfont callback]
            end
        end
    end.
Proof. crunch. Qed.

Lemma step_loadedSoundfonts (a : Activity) (p : Page) :
  loadedSoundfonts (step debug isFirefox isAudioTag find throws a p)
  = match a with
    | Request soundfont callback =>
        match loadedSoundfonts p !! soundfont with
        | None => assign soundfont StatusLoading (loadedSoundfonts p)
        | _ => loadedSoundfonts p
        end
    | Fire i =>
        match tasks p !! i with
        | Some (PluginLoading soundfont callback) =>
            match callback with
            | Some f =>
                if throws f (find soundfont) then loadedSoundfonts p
                else assign soundfont StatusTrue (loadedSoundfonts p)
            | None => assign soundfont StatusTrue (loadedSoundfonts p)
            end
        | _ => loadedSoundfonts p
        end
    end.
Proof. crunch. Qed.

Lemma step_requested (a : Activity) (p : Page) :
  requested (step debug isFirefox isAudioTag find throws a p)
  = match a with
    | Request _ _ => requested p
    | Fire i =>
        match tasks p !! i with
        | Some (DocumentReady soundfont _) => requested p ++ [soundfont]
        | _ => requested p
        end
    end.
Proof. crunch. Qed.

Lemma step_invoked (a : Activity) (p : Page) :
  invoked (step debug isFirefox isAudioTag find throws a p)
  = invoked p
    ++ match a with
       | Request soundfont (Some f) =>
           match loadedSoundfonts p !! soundfont with
           | Some StatusTrue => [(f, find soundfont)]
           | _ => []
           end
       | Request _ None => []
       | Fire i =>
           match tasks p !! i with
           | Some (PluginLoading soundfont (Some f)) => [(f, find soundfont)]
           | Some (WaitThenCall soundfont (Some f)) =>
               match loadedSoundfonts p !! soundfont with
               | Some StatusTrue => [(f, find soundfont)]
               | _ => []
               end
           | _ => []
           end
       end.
Proof. crunch. Qed.

Lemma step_midi (a : Activity) (p : Page) :
  midi (step debug isFirefox isAudioTag find throws a p)
  = midi p
    ++ match a with
       | Request _ _ => []
       | Fire i =>
           match tasks p !! i with
           | Some (PluginLoading soundfont _) =>
               match find soundfont with
               | Some ins =>
                   MIDI_programChange [number (Some (midiChannel ins));
                                       number (Some (midiProgram ins))]
                   :: (if negb isFirefox && negb isAudioTag
                       then flushing_notes (midiChannel ins) else [])
               | None => []
               end
           | _ => []
           end
       end.
Proof. crunch. Qed.

Lemma step_loadingSoundfont (a : Activity) (p : Page) :
  loadingSoundfont (step debug isFirefox isAudioTag find throws a p)
  = match a with
    | Request _ _ => loadingSoundfont p
    | Fire i =>
        match tasks p !! i with
        | Some (DocumentReady _ _) => S (loadingSoundfont p)
        | Some (PluginLoading _ _) => 0%nat
        | _ => loadingSoundfont p
        end
    end.
Proof. crunch. Qed.

Ltac bools :=
  repeat match goal with
         | H : context [bool_decide (?a = ?a)] |- _ =>
             rewrite (bool_decide_eq_true_2 (a = a) eq_refl) in H
         | |- context [bool_decide (?a = ?a)] =>
             rewrite (bool_decide_eq_true_2 (a = a) eq_refl)
         | Hne : ?a <> ?b, H : context [bool_decide (?a = ?b)] |- _ =>
             rewrite (bool_decide_eq_false_2 (a = b) Hne) in H
         | Hne : ?a <> ?b |- context [bool_decide (?a = ?b)] =>
             rewrite (bool_decide_eq_false_2 (a = b) Hne)
         end.

Lemma coherent_step (a : Activity) (p : Page) :
  coherent p -> coherent (step debug isFirefox isAudioTag find throws a p).
Proof.
  intros Hp sf' Hproto. rewrite step_loadedSoundfonts, step_tasks, step_requested.
  pose proof (Hp sf' Hproto) as Hsf'.
  destruct a as [sf cb|i].
  - destruct (decide (sf = sf')) as [->|Hne].
    + destruct (loadedSoundfonts p !! sf') as [[]|] eqn:Hst.
      * rewrite Hst. exact Hsf'.
      * rewrite Hst. rewrite !count_app. cbn. lia.
      * rewrite (assign_insert _ _ _ Hproto), lookup_insert_eq.
        rewrite !count_app. cbn.
        rewrite bool_decide_eq_true_2 by reflexivity. lia.
    + destruct (loadedSoundfonts p !! sf) as [[]|] eqn:Hst.
      * exact Hsf'.
      * rewrite !count_app. cbn. rewrite ?bool_decide_eq_false_2 by exact Hne.
        destruct (loadedSoundfonts p !! sf') as [[]|]; lia.
      * rewrite lookup_assign_ne by exact Hne. rewrite !count_app. cbn.
        rewrite ?bool_decide_eq_false_2 by exact Hne.
        destruct (loadedSoundfonts p !! sf') as [[]|]; lia.
  - destruct (tasks p !! i) as [t|] eqn:Hi; [|exact Hsf'].
    pose proof (fun f => count_delete f _ _ _ Hi) as Hdel.
    rewrite !Hdel in Hsf'. clear Hdel.
    destruct t as [sf cb|sf cb|sf cb]; cbn [task_soundfont] in *.
    all: cbn [is_DocumentReady is_PluginLoading is_WaitThenCall] in *.
    all: destruct (decide (sf = sf')) as [<-|Hne].
    all: try (destruct cb as [f|]; [destruct (throws f (find sf))|]).
    all: rewrite ?(assign_insert _ _ _ Hproto), ?lookup_insert_eq.
    all: rewrite ?lookup_assign_ne by exact Hne.
    all: bools.
    all: repeat match goal with
                | |- context [match loadedSoundfonts ?q !! ?s with _ => _ end] =>
                    destruct (loadedSoundfonts q !! s) as [[]|]
                | H : context [match loadedSoundfonts ?q !! ?s with _ => _ end] |- _ =>
                    destruct (loadedSoundfonts q !! s) as [[]|]
                end.
    all: rewrite ?count_app;
      cbn [count is_DocumentReady is_PluginLoading is_WaitThenCall]; bools; lia.
Qed.

Lemma coherent_empty : coherent empty_page.
Proof. intros sf _. cbn. rewrite lookup_empty. cbn. auto. Qed.

Lemma run_snoc (acts : list Activity) (a : Activity) (p : Page) :
  run debug isFirefox isAudioTag find throws (acts ++ [a]) p
  = step debug isFirefox isAudioTag find throws a
      (run debug isFirefox isAudioTag find throws acts p).
Proof. unfold run. rewrite foldl_snoc. reflexivity. Qed.

Lemma coherent_run (acts : list Activity) (p : Page) :
  coherent p -> coherent (run debug isFirefox isAudioTag find throws acts p).
Proof.
  revert p. induction acts as [|a acts IH]; intros p Hp; [exact Hp|].
  cbn. apply IH, coherent_step, Hp.
Qed.

Lemma status_le_refl (s : option Status) : status_le s s.
Proof. destruct s as [[]|]; exact I. Qed.

Lemma status_le_trans (s1 s2 s3 : option Status) :
  status_le s1 s2 -> status_le s2 s3 -> status_le s1 s3.
Proof. destruct s1 as [[]|], s2 as [[]|], s3 as [[]|]; cbn; tauto. Qed.

Lemma status_le_step (a : Activity) (p : Page) (sf : string) :
  status_le (loadedSoundfonts p !! sf)
    (loadedSoundfonts (step debug isFirefox isAudioTag find throws a p) !! sf).
Proof.
  rewrite step_loadedSoundfonts.
  destruct a as [sf0 cb|i].
  - destruct (loadedSoundfonts p !! sf0) as [s|] eqn:Hst; [apply status_le_refl|].
    destruct (decide (sf0 = sf)) as [<-|Hne].
    + rewrite Hst. exact I.
    + rewrite lookup_assign_ne by exact Hne. apply status_le_refl.
  - destruct (tasks p !! i) as [[sf0 cb|sf0 cb|sf0 cb]|]; try apply status_le_refl.
    assert (status_le (loadedSoundfonts p !! sf)
              (assign sf0 StatusTrue (loadedSoundfonts p) !! sf)) as Hins.
    { destruct (decide (sf0 = sf)) as [<-|Hne].
      - destruct (lookup_assign_eq sf0 StatusTrue (loadedSoundfonts p))
          as [->|(_ & _ & ->)]; [|apply status_le_refl].
        destruct (loadedSoundfonts p !! sf0) as [[]|]; exact I.
      - rewrite lookup_assign_ne by exact Hne. apply status_le_refl. }
    destruct cb as [f|]; [destruct (throws f (find sf0))|];
      first [exact Hins|apply status_le_refl].
Qed.

(** X11: the plugin is asked for a sound font at most once, however often and in
    whatever order the sound font is requested and the pending tasks run;
    and a sound font marked as loaded was asked for exactly once and has no
    load pending.  This holds of every name but [__proto__], under which
    [loadedSoundfonts] keeps no status. *)
Theorem plugin_requested_at_most_once (acts : list Activity) (soundfont : string) :
  soundfont <> "__proto__"%string ->
  let p := run debug isFirefox isAudioTag find throws acts empty_page in
  (count (fun s => bool_decide (s = soundfont)) (requested p) <= 1)%nat
  /\ (loadedSoundfonts p !! soundfont = Some StatusTrue ->
      count (fun s => bool_decide (s = soundfont)) (requested p) = 1%nat
      /\ count (is_DocumentReady soundfont) (tasks p) = 0%nat
      /\ count (is_PluginLoading soundfont) (tasks p) = 0%nat)
  /\ (loadedSoundfonts p !! soundfont = None -> soundfont ∉ requested p).
Proof.
  intros Hproto p.
  pose proof (coherent_run acts empty_page coherent_empty soundfont Hproto) as H.
  fold p in H. rewrite count_elem.
  destruct (loadedSoundfonts p !! soundfont) as [[]|];
    repeat split; intros; try discriminate; lia.
Qed.

(** X12: the status of a sound font only moves forward: from unknown to
    'loading' to loaded.  No activity makes a loaded sound font loading or
    unknown again. *)
Theorem status_never_goes_back (acts : list Activity) (p : Page) (soundfont : string) :
  status_le (loadedSoundfonts p !! soundfont)
    (loadedSoundfonts (run debug isFirefox isAudioTag find throws acts p) !! soundfont).
Proof.
  revert p. induction acts as [|a acts IH]; intros p; [apply status_le_refl|].
  cbn. eapply status_le_trans; [apply status_le_step|apply IH].
Qed.

Lemma callbacks_step (a : Activity) (p : Page) :
  (invoked (step debug isFirefox isAudioTag find throws a p)).*1
  ++ omap task_callback (tasks (step debug isFirefox isAudioTag find throws a p))
  ≡ₚ ((invoked p).*1 ++ omap task_callback (tasks p))
     ++ option_list (request_callback a).
Proof.
  rewrite step_invoked, step_tasks.
  destruct a as [sf cb|i]; cbn [request_callback].
  - destruct cb as [f|], (loadedSoundfonts p !! sf) as [[]|];
      rewrite ?fmap_app, ?omap_app; cbn; rewrite ?app_nil_r; solve_Permutation.
  - destruct (tasks p !! i) as [t|] eqn:Hi;
      [|cbn; rewrite !app_nil_r; reflexivity].
    pose proof (delete_Permutation _ _ _ Hi) as Hperm.
    set (d := delete i (tasks p)) in *. clearbody d.
    rewrite Hperm.
    destruct t as [sf [f|]|sf [f|]|sf [f|]];
      try destruct (loadedSoundfonts p !! sf) as [[]|];
      rewrite ?fmap_app, ?omap_app; cbn; rewrite ?app_nil_r; solve_Permutation.
Qed.

(** X13: no callback is lost and none is called twice: at any moment the
    callbacks that were called, together with those still held by a pending
    task, are the callbacks that were handed in, each as often as it was
    handed in.  So when every request brought a callback of its own, no
    callback is called a second time. *)
Theorem callbacks_conserved (acts : list Activity) (p : Page) :
  let p' := run debug isFirefox isAudioTag find throws acts p in
  ((invoked p').*1 ++ omap task_callback (tasks p')
   ≡ₚ ((invoked p).*1 ++ omap task_callback (tasks p)) ++ omap request_callback acts)
  /\ (NoDup (((invoked p).*1 ++ omap task_callback (tasks p))
             ++ omap request_callback acts) ->
      NoDup (invoked p').*1).
Proof.
  assert (forall p,
    (invoked (run debug isFirefox isAudioTag find throws acts p)).*1
    ++ omap task_callback (tasks (run debug isFirefox isAudioTag find throws acts p))
    ≡ₚ ((invoked p).*1 ++ omap task_callback (tasks p))
       ++ omap request_callback acts) as Hperm.
  { induction acts as [|a acts IH]; intros q.
    - cbn. rewrite app_nil_r. reflexivity.
    - cbn [run foldl]. fold (run debug isFirefox isAudioTag find throws acts
                               (step debug isFirefox isAudioTag find throws a q)).
      rewrite IH, callbacks_step.
      cbn [omap list_omap]. destruct (request_callback a); cbn [option_list];
        rewrite <- ?app_assoc, ?app_nil_r; reflexivity. }
  intros p'. split; [apply Hperm|].
  intros Hnd. rewrite <- (Hperm p) in Hnd. apply NoDup_app in Hnd. apply Hnd.
Qed.

Lemma message_step (a : Activity) (p : Page) :
  (loadingSoundfont p <= count any_PluginLoading (tasks p))%nat ->
  (loadingSoundfont (step debug isFirefox isAudioTag find throws a p)
   <= count any_PluginLoading (tasks (step debug isFirefox isAudioTag find throws a p)))%nat.
Proof.
  intros Hp. rewrite step_loadingSoundfont, step_tasks.
  destruct a as [sf cb|i].
  - destruct (loadedSoundfonts p !! sf) as [[]|]; rewrite ?count_app; cbn; lia.
  - destruct (tasks p !! i) as [t|] eqn:Hi; [|exact Hp].
    rewrite (count_delete any_PluginLoading _ _ _ Hi) in Hp.
    destruct t as [sf cb|sf cb|sf cb];
      try destruct (loadedSoundfonts p !! sf) as [[]|];
      rewrite ?count_app; cbn in *; lia.
Qed.

(** X14: the loading message: there are never more messages on the page than
    plugin loads under way, so once no load is under way no message is
    left. *)
Theorem loading_message_bounded (acts : list Activity) :
  let p := run debug isFirefox isAudioTag find throws acts empty_page in
  (loadingSoundfont p <= count any_PluginLoading (tasks p))%nat.
Proof.
  cbv zeta.
  assert (forall p, (loadingSoundfont p <= count any_PluginLoading (tasks p))%nat ->
            (loadingSoundfont (run debug isFirefox isAudioTag find throws acts p)
             <= count any_PluginLoading
                  (tasks (run debug isFirefox isAudioTag find throws acts p)))%nat) as H.
  { induction acts as [|a acts IH]; intros q Hq; [exact Hq|].
    cbn. apply IH, message_step, Hq. }
  apply H. cbn. lia.
Qed.

Lemma settled_step (a : Activity) (p : Page) (sf : string) :
  coherent p -> sf <> "__proto__"%string -> settled sf p ->
  settled sf (step debug isFirefox isAudioTag find throws a p).
Proof.
  intros Hp Hproto [Hreq Hpl]. pose proof (Hp sf Hproto) as Hsf.
  apply count_elem in Hreq.
  unfold settled. rewrite count_elem, step_requested, step_tasks.
  destruct a as [sf0 cb|i].
  - destruct (loadedSoundfonts p !! sf0) as [[]|];
      rewrite ?count_app; cbn; split; lia.
  - destruct (tasks p !! i) as [t|] eqn:Hi; [|split; assumption].
    pose proof (fun f => count_delete f _ _ _ Hi) as Hdel.
    rewrite !Hdel in Hsf. rewrite Hdel in Hpl. clear Hdel.
    destruct t as [sf0 cb|sf0 cb|sf0 cb];
      cbn [is_DocumentReady is_PluginLoading is_WaitThenCall] in *.
    all: destruct (decide (sf0 = sf)) as [->|Hne].
    all: bools.
    all: repeat match goal with
                | |- context [match loadedSoundfonts ?q !! ?s with _ => _ end] =>
                    destruct (loadedSoundfonts q !! s) as [[]|]
                | H : context [match loadedSoundfonts ?q !! ?s with _ => _ end] |- _ =>
                    destruct (loadedSoundfonts q !! s) as [[]|]
                end.
    all: rewrite ?count_app;
      cbn [count is_DocumentReady is_PluginLoading is_WaitThenCall]; bools;
      split; lia.
Qed.

Lemma tasks_step_keys (a : Activity) (p : Page) (t' : Task) :
  t' ∈ tasks (step debug isFirefox isAudioTag find throws a p) ->
  (exists t, t ∈ tasks p /\ task_key t = task_key t')
  \/ a = Request (task_soundfont t') (task_callback t').
Proof.
  rewrite step_tasks. destruct a as [sf cb|i].
  - destruct (loadedSoundfonts p !! sf) as [[]|];
      rewrite ?elem_of_app, ?list_elem_of_singleton;
      intros H; try (left; exists t'; split; [exact H|reflexivity]).
    all: destruct H as [H| ->]; [left; exists t'; split; [exact H|reflexivity]|].
    all: right; reflexivity.
  - destruct (tasks p !! i) as [t|] eqn:Hi;
      [|intros H; left; exists t'; split; [exact H|reflexivity]].
    assert (forall x, x ∈ delete i (tasks p) -> x ∈ tasks p) as Hsub.
    { intros x Hx. rewrite (delete_Permutation _ _ _ Hi). right. exact Hx. }
    pose proof (list_elem_of_lookup_2 _ _ _ Hi) as Ht.
    destruct t as [sf cb|sf cb|sf cb];
      try destruct (loadedSoundfonts p !! sf) as [[]|];
      rewrite ?elem_of_app, ?list_elem_of_singleton; intros H; left.
    all: try (destruct H as [H| ->]).
    all: first [ exists t'; split; [apply Hsub, H|reflexivity]
               | eexists; split; [exact Ht|reflexivity] ].
Qed.

Lemma invoked_step (a : Activity) (p : Page) (f : nat) (arg : option Instrument) :
  coherent p ->
  (f, arg) ∈ invoked (step debug isFirefox isAudioTag find throws a p) ->
  (f, arg) ∈ invoked p
  \/ exists sf,
       arg = find sf
       /\ (sf <> "__proto__"%string ->
           settled sf (step debug isFirefox isAudioTag find throws a p))
       /\ (a = Request sf (Some f)
           \/ exists t, t ∈ tasks p /\ task_key t = (sf, Some f)).
Proof.
  intros Hp. unfold settled.
  rewrite step_invoked, step_requested, step_tasks, elem_of_app.
  intros [H|H]; [left; exact H|right].
  destruct a as [sf cb|i].
  - destruct cb as [g|]; [|inversion H].
    pose proof (Hp sf) as Hsf.
    destruct (loadedSoundfonts p !! sf) as [[]|]; try solve [inversion H].
    apply list_elem_of_singleton in H. injection H as -> ->.
    exists sf. rewrite count_elem.
    split; [reflexivity|]. split; [|left; reflexivity].
    intros Hproto. specialize (Hsf Hproto). split; lia.
  - destruct (tasks p !! i) as [t|] eqn:Hi; [|inversion H].
    pose proof (list_elem_of_lookup_2 _ _ _ Hi) as Ht.
    pose proof (Hp (task_soundfont t)) as Hsf.
    pose proof (fun f => count_delete f _ _ _ Hi) as Hdel.
    rewrite !Hdel in Hsf. clear Hdel.
    destruct t as [sf cb|sf [g|]|sf [g|]]; try solve [inversion H];
      cbn [task_soundfont is_DocumentReady is_PluginLoading is_WaitThenCall] in Hsf;
      bools.
    + apply list_elem_of_singleton in H. injection H as -> ->.
      exists sf. rewrite count_elem.
      split; [reflexivity|].
      split; [|right; eexists; split; [exact Ht|reflexivity]].
      intros Hproto. specialize (Hsf Hproto).
      destruct (loadedSoundfonts p !! sf) as [[]|]; split; lia.
    + destruct (loadedSoundfonts p !! sf) as [[]|]; try solve [inversion H].
      apply list_elem_of_singleton in H. injection H as -> ->.
      exists sf. rewrite count_elem.
      split; [reflexivity|].
      split; [|right; eexists; split; [exact Ht|reflexivity]].
      intros Hproto. specialize (Hsf Hproto). split; lia.
Qed.

(** X15: a callback is only ever called with the instrument of a sound font it
    was handed in for, and, unless the name of that sound font is
    [__proto__], only once the sound font is settled: the plugin was asked
    for it and no load of it is pending any more. *)
Theorem callbacks_get_their_instrument
    (acts : list Activity) (f : nat) (arg : option Instrument) :
  (f, arg) ∈ invoked (run debug isFirefox isAudioTag find throws acts empty_page) ->
  exists soundfont,
    Request soundfont (Some f) ∈ acts
    /\ arg = find soundfont
    /\ (soundfont <> "__proto__"%string ->
        settled soundfont
          (run debug isFirefox isAudioTag find throws acts empty_page)).
Proof.
  revert f arg.
  assert ((forall t f,
             t ∈ tasks (run debug isFirefox isAudioTag find throws acts empty_page) ->
             task_callback t = Some f ->
             Request (task_soundfont t) (Some f) ∈ acts)
          /\ (forall f arg,
                (f, arg) ∈ invoked (run debug isFirefox isAudioTag find throws acts
                                      empty_page) ->
                exists sf,
                  Request sf (Some f) ∈ acts /\ arg = find sf
                  /\ (sf <> "__proto__"%string ->
                      settled sf (run debug isFirefox isAudioTag find throws acts
                                    empty_page)))) as [_ H]; [|exact H].
  induction acts as [|a acts [IHt IHi]] using rev_ind.
  - split; cbn; intros ? ? H; inversion H.
  - rewrite run_snoc.
    pose proof (coherent_run acts empty_page coherent_empty) as Hp.
    set (p := run debug isFirefox isAudioTag find throws acts empty_page) in *.
    split.
    + intros t f Ht Hcb. rewrite elem_of_app, list_elem_of_singleton.
      destruct (tasks_step_keys a p t Ht) as [(t0 & Ht0 & Hkey)| ->].
      * left. injection Hkey as Hsf Hc. rewrite <- Hsf. apply IHt; congruence.
      * right. rewrite Hcb. reflexivity.
    + intros f arg Hin.
      destruct (invoked_step a p f arg Hp Hin) as [Hold|(sf & -> & Hset & Hsrc)].
      * destruct (IHi f arg Hold) as (sf & Hreq & -> & Hset).
        exists sf. rewrite elem_of_app.
        split; [left; exact Hreq|split; [reflexivity|]].
        intros Hproto. apply settled_step; auto.
      * exists sf. rewrite elem_of_app, list_elem_of_singleton.
        split; [|split; [reflexivity|exact Hset]].
        destruct Hsrc as [->|(t & Ht & Hkey)]; [right; reflexivity|left].
        injection Hkey as <- Hc. apply IHt; assumption.
Qed.

Lemma blocked_step (a : Activity) (p : Page) (sf : string) :
  blocked sf p ->
  blocked sf (step debug isFirefox isAudioTag find throws a p)
  /\ omap (waiting_callback sf)
       (tasks (step debug isFirefox isAudioTag find throws a p))
     ≡ₚ omap (waiting_callback sf) (tasks p) ++ option_list (request_for sf a).
Proof.
  intros (Hst & Hdr & Hpl). unfold blocked.
  rewrite step_loadedSoundfonts, step_tasks.
  destruct a as [sf0 cb|i]; cbn [request_for].
  - destruct (decide (sf0 = sf)) as [->|Hne].
    + rewrite Hst, Hst, !count_app, omap_app. cbn.
      rewrite bool_decide_eq_true_2 by reflexivity. cbn.
      repeat split; first [assumption|lia|reflexivity].
    + rewrite (bool_decide_eq_false_2 _ Hne).
      destruct (loadedSoundfonts p !! sf0) as [[]|];
        rewrite ?lookup_assign_ne by exact Hne;
        rewrite ?count_app, ?omap_app; cbn; bools; cbn; rewrite ?app_nil_r;
        repeat split; first [assumption|lia|reflexivity].
  - destruct (tasks p !! i) as [t|] eqn:Hi;
      [|cbn; rewrite app_nil_r; repeat split; first [assumption|reflexivity]].
    pose proof (fun f => count_delete f _ _ _ Hi) as Hdel.
    rewrite Hdel in Hdr, Hpl. clear Hdel.
    pose proof (delete_Permutation _ _ _ Hi) as Hperm.
    set (d := delete i (tasks p)) in *. clearbody d. rewrite Hperm.
    destruct t as [sf0 cb|sf0 cb|sf0 cb];
      cbn [is_DocumentReady is_PluginLoading is_WaitThenCall] in *.
    all: destruct (decide (sf0 = sf)) as [->|Hne]; bools; try lia.
    all: try (destruct cb as [f|]; [destruct (throws f (find sf0))|]).
    all: rewrite ?Hst; rewrite ?lookup_assign_ne by exact Hne.
    all: try destruct (loadedSoundfonts p !! sf0) as [[]|].
    all: rewrite ?count_app, ?omap_app; cbn; bools; cbn; rewrite ?app_nil_r.
    all: repeat split; first [assumption|lia|reflexivity|solve_Permutation].
Qed.

(** X16: when the callback of the request that started the load throws, the
    sound font is never marked as loaded: from then on, whatever happens,
    it stays 'loading', the plugin is not asked again, and every later
    request for it is left waiting in a timer that re-arms itself.  The
    page is one reached from the empty page, or like one, and the sound
    font is not named [__proto__]. *)
Theorem throwing_callback_blocks
    (p : Page) (i : nat) (soundfont : string) (f : nat) (acts : list Activity) :
  coherent p ->
  soundfont <> "__proto__"%string ->
  tasks p !! i = Some (PluginLoading soundfont (Some f)) ->
  throws f (find soundfont) = true ->
  let p' := run debug isFirefox isAudioTag find throws acts
              (step debug isFirefox isAudioTag find throws (Fire i) p) in
  loadedSoundfonts p' !! soundfont = Some StatusLoading
  /\ count (fun s => bool_decide (s = soundfont)) (requested p') = 1%nat
  /\ omap (waiting_callback soundfont) (tasks p')
     ≡ₚ omap (waiting_callback soundfont) (tasks p)
        ++ omap (request_for soundfont) acts.
Proof.
  intros Hp Hproto Hi Hthrow.
  set (p0 := step debug isFirefox isAudioTag find throws (Fire i) p).
  assert (blocked soundfont p0
          /\ omap (waiting_callback soundfont) (tasks p0)
             ≡ₚ omap (waiting_callback soundfont) (tasks p)) as [Hb0 Hw0].
  { subst p0. unfold blocked. rewrite step_loadedSoundfonts, step_tasks, Hi, Hthrow.
    pose proof (Hp soundfont Hproto) as Hsf.
    pose proof (fun f => count_delete f _ _ _ Hi) as Hdel.
    rewrite !Hdel in Hsf. clear Hdel.
    pose proof (delete_Permutation _ _ _ Hi) as Hperm.
    set (d := delete i (tasks p)) in *. clearbody d. rewrite Hperm.
    cbn [is_DocumentReady is_PluginLoading is_WaitThenCall] in Hsf. bools.
    destruct (loadedSoundfonts p !! soundfont) as [[]|];
      repeat split; first [lia|reflexivity]. }
  assert (forall q,
            blocked soundfont q ->
            blocked soundfont (run debug isFirefox isAudioTag find throws acts q)
            /\ omap (waiting_callback soundfont)
                 (tasks (run debug isFirefox isAudioTag find throws acts q))
               ≡ₚ omap (waiting_callback soundfont) (tasks q)
                  ++ omap (request_for soundfont) acts) as Hrun.
  { induction acts as [|a acts IH]; intros q Hq.
    - cbn. rewrite app_nil_r. split; [exact Hq|reflexivity].
    - destruct (blocked_step a q soundfont Hq) as [Hq' Hw].
      destruct (IH _ Hq') as [Hb Hw'].
      split; [exact Hb|].
      cbn [run foldl]. fold (run debug isFirefox isAudioTag find throws acts
                               (step debug isFirefox isAudioTag find throws a q)).
      rewrite Hw', Hw. cbn [omap list_omap].
      destruct (request_for soundfont a); cbn [option_list];
        rewrite <- ?app_assoc, ?app_nil_r; reflexivity. }
  intros p'. destruct (Hrun p0 Hb0) as [(Hst & _ & Hpl) Hw]. fold p' in Hst, Hpl, Hw.
  split; [exact Hst|]. split.
  - pose proof (Hp soundfont Hproto) as Hsf.
    assert (requested p0 = requested p) as Hreq0.
    { subst p0. rewrite step_requested, Hi. reflexivity. }
    assert (forall q, blocked soundfont q ->
              count (fun s => bool_decide (s = soundfont))
                (requested (run debug isFirefox isAudioTag find throws acts q))
              = count (fun s => bool_decide (s = soundfont)) (requested q)) as Hsame.
    { clear. induction acts as [|a acts IH]; intros q Hq; [reflexivity|].
      cbn [run foldl]. fold (run debug isFirefox isAudioTag find throws acts
                               (step debug isFirefox isAudioTag find throws a q)).
      rewrite (IH _ (proj1 (blocked_step a q soundfont Hq))), step_requested.
      destruct a as [sf0 cb|j]; [reflexivity|].
      destruct (tasks q !! j) as [[sf0 cb|sf0 cb|sf0 cb]|] eqn:Hj; try reflexivity.
      rewrite count_app. cbn.
      destruct Hq as (_ & Hdr & _).
      rewrite (count_delete _ _ _ _ Hj) in Hdr. cbn in Hdr.
      destruct (decide (sf0 = soundfont)) as [->|Hne]; bools; lia. }
    unfold p'. rewrite (Hsame p0 Hb0), Hreq0.
    pose proof (fun f => count_delete f _ _ _ Hi) as Hdel.
    rewrite !Hdel in Hsf. clear Hdel.
    cbn [is_DocumentReady is_PluginLoading is_WaitThenCall] in Hsf. bools.
    destruct (loadedSoundfonts p !! soundfont) as [[]|]; lia.
  - rewrite Hw, Hw0. reflexivity.
Qed.

(** X17: a sound font that is asked for the first time, whose document-ready
    handler and then whose plugin load run: the sound font is loaded, the
    plugin was asked once, the callback was called once with the instrument,
    no loading message is left, and the engine got the program change of the
    instrument followed by the six soft notes on its channel (none of them
    in Firefox or with the audio tag, nothing at all without an
    instrument).  The sound font is not named [__proto__], and the callback,
    if there is one, does not throw. *)
Theorem first_load_delivers (p : Page) (soundfont : string) (callback : option nat) :
  soundfont <> "__proto__"%string ->
  loadedSoundfonts p !! soundfont = None ->
  (forall f, callback = Some f -> throws f (find soundfont) = false) ->
  let n := length (tasks p) in
  let p' := run debug isFirefox isAudioTag find throws
              [Request soundfont callback; Fire n; Fire n] p in
  loadedSoundfonts p' = <[soundfont := StatusTrue]> (loadedSoundfonts p)
  /\ tasks p' = tasks p
  /\ loadingSoundfont p' = 0%nat
  /\ requested p' = requested p ++ [soundfont]
  /\ invoked p'
     = invoked p ++ match callback with
                    | Some f => [(f, find soundfont)]
                    | None => []
                    end
  /\ midi p'
     = midi p
       ++ match find soundfont with
          | Some ins =>
              MIDI_programChange [number (Some (midiChannel ins));
                                  number (Some (midiProgram ins))]
              :: (if isFirefox || isAudioTag then []
                  else flushing_notes (midiChannel ins))
          | None => []
          end.
Proof.
  intros Hproto Hst Hthrow n p'. subst p'. cbn [run foldl].
  set (p1 := step debug isFirefox isAudioTag find throws (Request soundfont callback) p).
  assert (tasks p1 = tasks p ++ [DocumentReady soundfont callback]) as Ht1.
  { subst p1. rewrite step_tasks, Hst. reflexivity. }
  assert (tasks p1 !! n = Some (DocumentReady soundfont callback)) as Hl1.
  { rewrite Ht1. apply list_lookup_middle. reflexivity. }
  set (p2 := step debug isFirefox isAudioTag find throws (Fire n) p1).
  assert (tasks p2 = tasks p ++ [PluginLoading soundfont callback]) as Ht2.
  { subst p2. rewrite step_tasks, Hl1, Ht1. subst n. rewrite delete_middle.
    rewrite app_nil_r. reflexivity. }
  assert (tasks p2 !! n = Some (PluginLoading soundfont callback)) as Hl2.
  { rewrite Ht2. apply list_lookup_middle. reflexivity. }
  repeat split.
  - rewrite step_loadedSoundfonts, Hl2. subst p2.
    rewrite step_loadedSoundfonts, Hl1. subst p1.
    rewrite step_loadedSoundfonts, Hst.
    rewrite !(assign_insert _ _ _ Hproto).
    destruct callback as [f|]; [rewrite (Hthrow f eq_refl)|]; apply insert_insert_eq.
  - rewrite step_tasks, Hl2, Ht2. subst n. rewrite delete_middle. apply app_nil_r.
  - rewrite step_loadingSoundfont, Hl2. reflexivity.
  - rewrite step_requested, Hl2. subst p2. rewrite step_requested, Hl1. subst p1.
    rewrite step_requested. reflexivity.
  - rewrite step_invoked, Hl2. subst p2. rewrite step_invoked, Hl1. subst p1.
    rewrite step_invoked, Hst.
    destruct callback as [f|]; rewrite ?app_nil_r; reflexivity.
  - rewrite step_midi, Hl2. subst p2. rewrite step_midi, Hl1. subst p1.
    rewrite step_midi. rewrite !app_nil_r.
    destruct (find soundfont), isFirefox, isAudioTag; reflexivity.
Qed.

End LoadingProperties.

Lemma callbacks_get_their_instrument_witness :
  exists soundfont,
    Request soundfont (Some 7%nat)
      ∈ [Request "clarinet"%string (Some 7%nat); Fire 0; Fire 0]
    /\ Some (mkInstrument 1 71) = sample_find soundfont
    /\ (soundfont <> "__proto__"%string ->
        settled soundfont
          (run false false false sample_find never_throws
             [Request "clarinet"%string (Some 7%nat); Fire 0; Fire 0] empty_page)).
Proof.
  apply (callbacks_get_their_instrument false false false sample_find never_throws).
  assert (invoked (run false false false sample_find never_throws
                     [Request "clarinet"%string (Some 7%nat); Fire 0; Fire 0]
                     empty_page)
          = [(7%nat, Some (mkInstrument 1 71))]) as -> by (vm_compute; reflexivity).
  apply list_elem_of_here.
Defined.

Lemma throwing_callback_blocks_witness :
  loadedSoundfonts
    (run false false false sample_find always_throws
       [Request "clarinet"%string (Some 8%nat); Fire 0]
       (step false false false sample_find always_throws (Fire 0)
          (run false false false sample_find always_throws
             [Request "clarinet"%string (Some 7%nat); Fire 0] empty_page)))
  !! "clarinet"%string
  = Some StatusLoading.
Proof.
  refine (proj1 (throwing_callback_blocks false false false sample_find always_throws
                   (run false false false sample_find always_throws
                      [Request "clarinet"%string (Some 7%nat); Fire 0] empty_page)
                   0 "clarinet"%string 7
                   [Request "clarinet"%string (Some 8%nat); Fire 0] _ _ _ _)).
  - apply coherent_run, coherent_empty.
  - discriminate.
  - vm_compute. reflexivity.
  - reflexivity.
Defined.

Lemma first_load_delivers_witness :
  midi (run false false false sample_find never_throws
          [Request "clarinet"%string (Some 7%nat); Fire 0; Fire 0] empty_page)
  = MIDI_programChange [Some (inject_Z 1); Some (inject_Z 71)] :: flushing_notes 1.
Proof.
  destruct (first_load_delivers false false false sample_find never_throws
              empty_page "clarinet"%string (Some 7%nat))
    as (_ & _ & _ & _ & _ & H).
  - discriminate.
  - apply lookup_empty.
  - intros f _. reflexivity.
  - exact H.
Defined.

Lemma plugin_requested_at_most_once_witness :
  (count (fun s => bool_decide (s = "clarinet"%string))
     (requested (run false false false sample_find never_throws
                   [Request "clarinet"%string None; Request "clarinet"%string None;
                    Fire 0; Fire 0; Fire 0]
                   empty_page)) <= 1)%nat.
Proof.
  exact (proj1 (plugin_requested_at_most_once false false false sample_find
                  never_throws
                  [Request "clarinet"%string None; Request "clarinet"%string None;
                   Fire 0; Fire 0; Fire 0]
                  "clarinet"%string ltac:(discriminate))).
Defined.

(** Under the name [__proto__] no status is kept: each request is taken
    for the first, and the plugin is asked each time. *)
Example proto_requested_twice :
  requested (run false false false sample_find never_throws
               [Request "__proto__"%string None; Request "__proto__"%string None;
                Fire 0; Fire 0]
               empty_page)
  = ["__proto__"; "__proto__"]%string.
Proof. vm_compute. reflexivity. Qed.

End Soundfonts.

(* ====================================================================== *)
(** * The player's clock *)
(* ====================================================================== *)

Module Player.

(** ** Data *)

(** The [timeFormatting] closure of [updatePlaying], on a whole number of
    seconds (the animation callback hands it [Math.floor] of the player's
    times and their difference).  [Math.floor(n / 60)] is the floored
    quotient, [String] of a whole number is its decimal notation.  This is
    what the doubles compute for a whole number below [2 ^ 53] in size;
    beyond that a double is printed with an exponent or has lost its last
    digits, which the integers of the model do not show. *)
Definition timeFormatting (n : Z) : string :=
  let minutes := n / 60 in
  let seconds := pretty (n - minutes * 60) in
  let seconds :=
    if (String.length seconds =? 1)%nat then ("0" +:+ seconds)%string else seconds in
  ((pretty minutes +:+ ":") +:+ seconds)%string.

(** Reading a field of two decimal digits. *)
Definition digit_value (c : ascii) : Z := Z.of_nat (nat_of_ascii c) - 48.

Definition seconds_value (s : string) : option Z :=
  match s with
  | String a (String b EmptyString) =>
      if (0 <=? digit_value a) && (digit_value a <=? 9)
         && (0 <=? digit_value b) && (digit_value b <=? 9)
      then Some (10 * digit_value a + digit_value b)
      else None
  | _ => None
  end.

Definition seconds_field (r : Z) : string :=
  let seconds := pretty r in
  if (String.length seconds =? 1)%nat then ("0" +:+ seconds)%string else seconds.

(** ** Properties *)

Lemma seconds_field_value (r : Z) :
  0 <= r < 60 -> seconds_value (seconds_field r) = Some r.
Proof.
  intros Hr. assert (exists k, r = Z.of_nat k /\ (k < 60)%nat) as (k & -> & Hk).
  { exists (Z.to_nat r). lia. }
  clear Hr. do 60 (destruct k as [|k]; [vm_compute; reflexivity|]). lia.
Qed.

Lemma timeFormatting_unfold (n : Z) :
  timeFormatting n
  = ((pretty (n / 60) +:+ ":") +:+ seconds_field (n mod 60))%string.
Proof.
  unfold timeFormatting, seconds_field.
  replace (n - n / 60 * 60) with (n mod 60) by (rewrite Z.mod_eq; lia).
  reflexivity.
Qed.

Lemma seconds_value_length (s : string) (r : Z) :
  seconds_value s = Some r -> String.length s = 2%nat.
Proof.
  destruct s as [|a [|b [|c s]]]; cbn; try discriminate. reflexivity.
Qed.

Lemma length_append (s t : string) :
  String.length (s +:+ t) = (String.length s + String.length t)%nat.
Proof. induction s as [|a s IH]; [reflexivity|]. simpl. f_equal. exact IH. Qed.

Lemma append_inj_r (s1 s2 t1 t2 : string) :
  String.length t1 = String.length t2 ->
  (s1 +:+ t1 = s2 +:+ t2)%string -> s1 = s2 /\ t1 = t2.
Proof.
  intros Hlen Heq.
  assert (String.length s1 = String.length s2) as Hl.
  { apply (f_equal String.length) in Heq.
    rewrite !length_append in Heq. lia. }
  clear Hlen. revert s2 Hl Heq.
  induction s1 as [|a s1 IH]; intros [|b s2] Hl Heq; try discriminate.
  - split; [reflexivity|exact Heq].
  - cbn in Heq. injection Heq as -> Heq. injection Hl as Hl.
    destruct (IH s2 Hl Heq) as [-> ->]. split; reflexivity.
Qed.

(** X18: for a whole number of seconds below [2 ^ 53] in size, the clock
    shows the floored minutes, a colon, and the seconds as exactly two
    decimal digits that read back as the seconds within the minute; this
    holds for negative times too, where the minutes are floored and the
    seconds stay between 0 and 59. *)
Theorem timeFormatting_two_digit_seconds (n : Z) :
  - 2 ^ 53 < n < 2 ^ 53 ->
  exists seconds,
    timeFormatting n = ((pretty (n / 60) +:+ ":") +:+ seconds)%string
    /\ String.length seconds = 2%nat
    /\ seconds_value seconds = Some (n mod 60)
    /\ n = 60 * (n / 60) + n mod 60.
Proof.
  intros _.
  exists (seconds_field (n mod 60)).
  pose proof (seconds_field_value (n mod 60) (Z.mod_pos_bound n 60 eq_refl)) as Hv.
  split; [apply timeFormatting_unfold|]. split; [|split; [exact Hv|]].
  - exact (seconds_value_length _ _ Hv).
  - apply Z.div_mod. discriminate.
Qed.

(** X19: two times that show the same on the clock are the same time: the text
    loses nothing of a whole number of seconds. *)
Theorem timeFormatting_inj (n1 n2 : Z) :
  timeFormatting n1 = timeFormatting n2 -> n1 = n2.
Proof.
  rewrite !timeFormatting_unfold. intros Heq.
  pose proof (seconds_field_value (n1 mod 60) (Z.mod_pos_bound n1 60 eq_refl)) as Hv1.
  pose proof (seconds_field_value (n2 mod 60) (Z.mod_pos_bound n2 60 eq_refl)) as Hv2.
  apply append_inj_r in Heq as [Hmin Hsec];
    [|rewrite (seconds_value_length _ _ Hv1), (seconds_value_length _ _ Hv2);
      reflexivity].
  apply append_inj_r in Hmin as [Hmin _]; [|reflexivity].
  apply (inj pretty) in Hmin.
  rewrite Hsec in Hv1. rewrite Hv1 in Hv2. injection Hv2 as Hmod.
  rewrite (Z.div_mod n1 60), (Z.div_mod n2 60) by discriminate.
  rewrite Hmin, Hmod. reflexivity.
Qed.

Lemma timeFormatting_two_digit_seconds_witness :
  exists seconds,
    timeFormatting (-75) = ((pretty (-75 / 60) +:+ ":") +:+ seconds)%string
    /\ String.length seconds = 2%nat
    /\ seconds_value seconds = Some (-75 mod 60)
    /\ -75 = 60 * (-75 / 60) + -75 mod 60.
Proof.
  apply (timeFormatting_two_digit_seconds (-75)). split; reflexivity.
Defined.

Lemma timeFormatting_inj_witness :
  timeFormatting 75 = "1:15"%string /\ 75 = 75.
Proof.
  split; [vm_compute; reflexivity|].
  apply (timeFormatting_inj 75 75). reflexivity.
Defined.

End Player.

(* ====================================================================== *)
(** * Class membership and the printed form *)
(* ====================================================================== *)

Module ClassModel.
Import Prebase.

(** ** Data *)

(** The argument of [isClassOrSubclass]: one class, or an array of them. *)
Inductive TestClass : Type :=
| One (k : ClassKey)
| Many (ks : list ClassKey).

(** The [for ... of] loop of [isClassOrSubclass]: [this.classSet] is read
    anew for every element. *)
Fixpoint any_in_classSet (testClass : list ClassKey) (this : Instance)
  : (JsError + bool) * Instance :=
  match testClass with
  | [] => (inr false, this)
  | thisTestClass :: rest =>
      match classSet this with
      | (Some set, this) =>
          if bool_decide (thisTestClass ∈ set) then (inr true, this)
          else any_in_classSet rest this
      | (None, this) => (inl TypeError, this)
      end
  end.

(** [isClassOrSubclass(testClass)] *)
Definition isClassOrSubclass (testClass : TestClass) (this : Instance)
  : (JsError + bool) * Instance :=
  let testClass :=
    match testClass with
    | One k => [k]
    | Many ks => ks
    end in
  any_in_classSet testClass this.

(** [toString()], given what [this.stringInfo()] returns (the empty string
    unless a subclass overrides it). *)
Definition toString (stringInfo : string) (this : Instance)
  : (JsError + string) * Instance :=
  let si := stringInfo in
  let si := if negb (String.eqb si "") then (" " +:+ si)%string else si in
  match classes this with
  | (Some cl, this) =>
      let first :=
        match cl with
        | x :: _ => x
        | [] => "undefined"%string
        end in
      (inr ("<" +:+ first +:+ si +:+ ">")%string, this)
  | (None, this) => (inl TypeError, this)
  end.

(** An instance as the constructor leaves it, and as it is once a getter
    has filled the caches. *)
Definition fresh (c : Ctor) : Instance := mkInstance c None None.

Definition populated (c : Ctor) : Instance := _populateClassCaches (fresh c).

(** The constructors the walk visits from a constructor upwards, each with
    the name it answers with: up to the first that answers with no name or
    an empty one, and [maxLinks] of them at most. *)
Fixpoint lineage (maxLinks : nat) (c : Ctor) : list (Ctor * string) :=
  match maxLinks with
  | O => []
  | S maxLinks =>
      match className c with
      | None => []
      | Some name =>
          if String.eqb name "" then []
          else (c, name) :: match c with
                            | Class _ extends => lineage maxLinks extends
                            | FunctionPrototype => []
                            end
      end
  end.

(** What one visited constructor adds to the set. *)
Definition keys_of (visited : Ctor * string) : list ClassKey :=
  [KCtor visited.1; KName visited.2; KName (shortName visited.2)].

Definition class_keys (c : Ctor) : list ClassKey := lineage 20 c ≫= keys_of.

Definition test_keys (testClass : TestClass) : list ClassKey :=
  match testClass with
  | One k => [k]
  | Many ks => ks
  end.

(** How many classes a constructor has below [Function.prototype]. *)
Fixpoint depth (c : Ctor) : nat :=
  match c with
  | FunctionPrototype => O
  | Class _ extends => S (depth extends)
  end.

(** A sample chain: [n] classes called C on top of [ProtoM21Object]. *)
Fixpoint tower (n : nat) : Ctor :=
  match n with
  | O => ProtoM21Object
  | S n => Class (Some "C"%string) (tower n)
  end.

(** The name an object is printed under. *)
Definition printed_name (c : Ctor) : string :=
  match className c with
  | Some name => if String.eqb name "" then "object"%string else shortName name
  | None => "object"%string
  end.

(** ** Properties *)

Lemma Set_add_elem (k k' : ClassKey) (s : list ClassKey) :
  k' ∈ Set_add k s <-> k' ∈ s \/ k' = k.
Proof.
  unfold Set_add. case_bool_decide as Hin.
  - split; [auto|intros [H| ->]; assumption].
  - rewrite elem_of_app, list_elem_of_singleton. tauto.
Qed.

Lemma Set_add_NoDup (k : ClassKey) (s : list ClassKey) :
  NoDup s -> NoDup (Set_add k s).
Proof.
  intros Hs. unfold Set_add. case_bool_decide as Hin; [exact Hs|].
  apply NoDup_app. split; [exact Hs|]. split; [|apply NoDup_singleton].
  intros x Hx Hx'. apply list_elem_of_singleton in Hx' as ->. contradiction.
Qed.

Lemma Set_adds_elem (ks s : list ClassKey) (k' : ClassKey) :
  k' ∈ foldl (fun s k => Set_add k s) s ks <-> k' ∈ s \/ k' ∈ ks.
Proof.
  revert s. induction ks as [|k ks IH]; intros s; cbn [foldl].
  - split; [auto|intros [H|H]; [exact H|inversion H]].
  - rewrite IH, Set_add_elem, elem_of_cons. tauto.
Qed.

Lemma Set_adds_NoDup (ks s : list ClassKey) :
  NoDup s -> NoDup (foldl (fun s k => Set_add k s) s ks).
Proof.
  revert s. induction ks as [|k ks IH]; intros s Hs; [exact Hs|].
  cbn [foldl]. apply IH, Set_add_NoDup, Hs.
Qed.

Lemma walk_lineage (maxLinks : nat) :
  forall (c : Ctor) (classList : list string) (classSet : list ClassKey),
  walk maxLinks c classList classSet
  = (classList ++ ((fun v => shortName v.2) <$> lineage maxLinks c),
     foldl (fun s k => Set_add k s) classSet (lineage maxLinks c ≫= keys_of)).
Proof.
  induction maxLinks as [|n IH]; intros c classList classSet.
  - cbn. rewrite app_nil_r. reflexivity.
  - cbn [walk lineage].
    destruct (className c) as [name|]; [|cbn; rewrite app_nil_r; reflexivity].
    destruct (String.eqb name ""); [cbn; rewrite app_nil_r; reflexivity|].
    destruct c as [|own extends].
    + cbn. reflexivity.
    + rewrite IH. cbn. rewrite <- app_assoc. reflexivity.
Qed.

Lemma populated_eq (c : Ctor) :
  populated c
  = mkInstance c
      (Some (((fun v => shortName v.2) <$> lineage 20 c) ++ ["object"%string]))
      (Some (foldl (fun s k => Set_add k s) [] (class_keys c))).
Proof.
  unfold populated, _populateClassCaches, fresh. cbn [constructor].
  rewrite walk_lineage. reflexivity.
Qed.

Lemma classSet_fresh (c : Ctor) :
  classSet (fresh c)
  = (Some (foldl (fun s k => Set_add k s) [] (class_keys c)), populated c).
Proof.
  unfold classSet, fresh. cbn [_storedClassSet].
  change (_populateClassCaches (mkInstance c None None)) with (populated c).
  rewrite populated_eq. reflexivity.
Qed.

Lemma classSet_populated (c : Ctor) :
  classSet (populated c)
  = (Some (foldl (fun s k => Set_add k s) [] (class_keys c)), populated c).
Proof. rewrite populated_eq. reflexivity. Qed.

Lemma classes_fresh (c : Ctor) :
  classes (fresh c)
  = (Some (((fun v => shortName v.2) <$> lineage 20 c) ++ ["object"%string]),
     populated c).
Proof.
  unfold classes, fresh. cbn [_storedClasses].
  change (_populateClassCaches (mkInstance c None None)) with (populated c).
  rewrite populated_eq. reflexivity.
Qed.

Lemma classes_populated (c : Ctor) :
  classes (populated c)
  = (Some (((fun v => shortName v.2) <$> lineage 20 c) ++ ["object"%string]),
     populated c).
Proof. rewrite populated_eq. reflexivity. Qed.

Lemma class_keys_elem (c : Ctor) (k : ClassKey) :
  k ∈ foldl (fun s k => Set_add k s) [] (class_keys c) <-> k ∈ class_keys c.
Proof.
  rewrite Set_adds_elem. split; [intros [H|H]; [inversion H|exact H]|auto].
Qed.

Lemma any_in_classSet_populated (c : Ctor) (ks : list ClassKey) :
  any_in_classSet ks (populated c)
  = (inr (existsb (fun k => bool_decide (k ∈ class_keys c)) ks), populated c).
Proof.
  induction ks as [|k ks IH]; [reflexivity|].
  cbn [any_in_classSet existsb]. rewrite classSet_populated.
  rewrite (bool_decide_ext _ _ (class_keys_elem c k)).
  destruct (bool_decide (k ∈ class_keys c)); [reflexivity|exact IH].
Qed.

Lemma any_in_classSet_fresh (c : Ctor) (ks : list ClassKey) :
  any_in_classSet ks (fresh c)
  = (inr (existsb (fun k => bool_decide (k ∈ class_keys c)) ks),
     match ks with [] => fresh c | _ => populated c end).
Proof.
  destruct ks as [|k ks]; [reflexivity|].
  cbn [any_in_classSet existsb]. rewrite classSet_fresh.
  rewrite (bool_decide_ext _ _ (class_keys_elem c k)).
  destruct (bool_decide (k ∈ class_keys c)); [reflexivity|].
  apply any_in_classSet_populated.
Qed.

Lemma class_keys_spec (c : Ctor) (k : ClassKey) :
  k ∈ class_keys c
  <-> exists c' name,
        (c', name) ∈ lineage 20 c
        /\ (k = KCtor c' \/ k = KName name \/ k = KName (shortName name)).
Proof.
  unfold class_keys. rewrite list_elem_of_bind. split.
  - intros ([c' name] & Hk & Hv). exists c', name. split; [exact Hv|].
    unfold keys_of in Hk. cbn in Hk.
    rewrite !elem_of_cons in Hk. destruct Hk as [H|[H|[H|H]]]; auto.
    inversion H.
  - intros (c' & name & Hv & Hk). exists (c', name). split; [|exact Hv].
    unfold keys_of. cbn. rewrite !elem_of_cons. tauto.
Qed.

Lemma lineage_take (n : nat) :
  forall (m : nat) (c : Ctor), (n <= m)%nat -> lineage n c = take n (lineage m c).
Proof.
  induction n as [|n IH]; intros m c Hle; [rewrite take_0; reflexivity|].
  destruct m as [|m]; [lia|]. cbn [lineage].
  destruct (className c) as [name|]; [|reflexivity].
  destruct (String.eqb name ""); [reflexivity|].
  cbn [take]. f_equal. destruct c as [|own extends]; [rewrite take_nil; reflexivity|].
  apply IH. lia.
Qed.

Lemma lineage_depth (n : nat) :
  forall (c : Ctor) (j : nat) (c' : Ctor) (name : string),
  lineage n c !! j = Some (c', name) -> (depth c' + j = depth c)%nat.
Proof.
  induction n as [|n IH]; intros c j c' name H; [discriminate|].
  cbn [lineage] in H.
  destruct (className c) as [cname|]; [|discriminate].
  destruct (String.eqb cname ""); [discriminate|].
  destruct j as [|j].
  - injection H as -> _. lia.
  - cbn in H. destruct c as [|own extends]; [discriminate|].
    apply IH in H. cbn [depth]. lia.
Qed.

Lemma lineage_declared (n : nat) (name : string) (own : option string) (extends : Ctor) :
  className (Class own extends) = Some name -> name <> ""%string ->
  lineage (S n) (Class own extends)
  = (Class own extends, name) :: lineage n extends.
Proof.
  intros Hname Hne. cbn [lineage]. rewrite Hname.
  destruct (String.eqb_spec name ""); [contradiction|reflexivity].
Qed.

Lemma isClassOrSubclass_cached (c : Ctor) (this : Instance) (testClass : TestClass) :
  this = fresh c \/ this = populated c ->
  isClassOrSubclass testClass this
  = (inr (existsb (fun k => bool_decide (k ∈ class_keys c)) (test_keys testClass)),
     match test_keys testClass with [] => this | _ => populated c end).
Proof.
  unfold isClassOrSubclass.
  fold (test_keys testClass). intros [-> | ->].
  - apply any_in_classSet_fresh.
  - rewrite any_in_classSet_populated. destruct (test_keys testClass); reflexivity.
Qed.

Lemma accepted_iff (c : Ctor) (ks : list ClassKey) :
  existsb (fun k => bool_decide (k ∈ class_keys c)) ks = true
  <-> exists k, k ∈ ks /\ k ∈ class_keys c.
Proof.
  rewrite existsb_exists. split.
  - intros (k & Hin & Hk). exists k.
    split; [apply list_elem_of_In, Hin|exact (bool_decide_eq_true_1 _ Hk)].
  - intros (k & Hin & Hk). exists k.
    split; [apply list_elem_of_In, Hin|exact (bool_decide_eq_true_2 _ Hk)].
Qed.

(** X20: the class set of an object holds, for each of the constructors the walk
    visits, the constructor, its full name and its short name, each once,
    and nothing else; the first access fills both caches.  Every name that
    [classes] lists before the closing 'object' is in the set, while
    'object' itself is in it only when a class is called so. *)
Theorem classSet_members (c : Ctor) (this : Instance) :
  this = fresh c \/ this = populated c ->
  exists set names,
    classSet this = (Some set, populated c)
    /\ NoDup set
    /\ (forall k,
          k ∈ set
          <-> exists c' name,
                (c', name) ∈ lineage 20 c
                /\ (k = KCtor c' \/ k = KName name \/ k = KName (shortName name)))
    /\ classes this = (Some (names ++ ["object"%string]), populated c)
    /\ (forall x, x ∈ names -> KName x ∈ set)
    /\ (KName "object"%string ∈ set
        <-> exists c' name,
              (c', name) ∈ lineage 20 c
              /\ (name = "object"%string \/ shortName name = "object"%string)).
Proof.
  intros Hthis.
  exists (foldl (fun s k => Set_add k s) [] (class_keys c)),
         ((fun v => shortName v.2) <$> lineage 20 c).
  split; [destruct Hthis as [-> | ->]; [apply classSet_fresh|apply classSet_populated]|].
  split; [apply Set_adds_NoDup, NoDup_nil_2|].
  split; [intros k; rewrite class_keys_elem; apply class_keys_spec|].
  split; [destruct Hthis as [-> | ->]; [apply classes_fresh|apply classes_populated]|].
  split.
  - intros x Hx. apply list_elem_of_fmap in Hx as ([c' name] & -> & Hv).
    rewrite class_keys_elem, class_keys_spec. exists c', name. auto.
  - rewrite class_keys_elem, class_keys_spec. split.
    + intros (c' & name & Hv & [H|[H|H]]); try discriminate;
        injection H as H; exists c', name; auto.
    + intros (c' & name & Hv & Hk). exists c', name. split; [exact Hv|].
      destruct Hk as [Hk|Hk]; rewrite Hk; auto.
Qed.

(** X21: [isClassOrSubclass] never throws and answers true exactly when one of
    the classes asked about is a constructor the walk visits, or the full
    or the short name of one.  One class and an array of that one class ask
    the same, an empty array is answered false without the caches being
    touched, and the answer does not depend on what was asked before. *)
Theorem isClassOrSubclass_decides (c : Ctor) (this : Instance) (testClass : TestClass) :
  this = fresh c \/ this = populated c ->
  exists b,
    isClassOrSubclass testClass this
    = (inr b, match test_keys testClass with [] => this | _ => populated c end)
    /\ (b = true
        <-> exists k c' name,
              k ∈ test_keys testClass
              /\ (c', name) ∈ lineage 20 c
              /\ (k = KCtor c' \/ k = KName name \/ k = KName (shortName name)))
    /\ (forall k, testClass = One k -> isClassOrSubclass (Many [k]) this
                                        = isClassOrSubclass testClass this)
    /\ (forall before,
          (isClassOrSubclass testClass (isClassOrSubclass before this).2).1 = inr b).
Proof.
  intros Hthis.
  exists (existsb (fun k => bool_decide (k ∈ class_keys c)) (test_keys testClass)).
  split; [apply isClassOrSubclass_cached, Hthis|]. split; [|split].
  - rewrite accepted_iff. split.
    + intros (k & Hin & Hk). apply class_keys_spec in Hk as (c' & name & Hv & Hk).
      exists k, c', name. auto.
    + intros (k & c' & name & Hin & Hv & Hk). exists k. split; [exact Hin|].
      apply class_keys_spec. exists c', name. auto.
  - intros k ->. reflexivity.
  - intros before. rewrite (isClassOrSubclass_cached c this before Hthis). cbn [snd].
    rewrite (isClassOrSubclass_cached c _ testClass); [reflexivity|].
    destruct (test_keys before); [exact Hthis|right; reflexivity].
Qed.

(** X22: a class that declares a name of its own, on a parent whose walk visits
    fewer than 20 constructors: its objects are recognised under its own
    constructor, full name and short name, and under everything the
    objects of the parent are recognised under. *)
Theorem subclass_keeps_parent_classes (name : string) (parent : Ctor) :
  name <> ""%string ->
  (length (lineage 20 parent) < 20)%nat ->
  let child := Class (Some name) parent in
  (isClassOrSubclass (One (KCtor child)) (fresh child)).1 = inr true
  /\ (isClassOrSubclass (One (KName name)) (fresh child)).1 = inr true
  /\ (isClassOrSubclass (One (KName (shortName name))) (fresh child)).1 = inr true
  /\ (forall testClass,
        (isClassOrSubclass testClass (fresh parent)).1 = inr true ->
        (isClassOrSubclass testClass (fresh child)).1 = inr true).
Proof.
  intros Hne Hlen child.
  assert (lineage 20 child = (child, name) :: lineage 20 parent) as Hlin.
  { unfold child. rewrite (lineage_declared 19 name) by (reflexivity || exact Hne).
    rewrite (lineage_take 19 20) by lia. rewrite take_ge by lia. reflexivity. }
  assert (forall k,
            (k = KCtor child \/ k = KName name \/ k = KName (shortName name))
            \/ k ∈ class_keys parent ->
            k ∈ class_keys child) as Hkeys.
  { intros k Hk. unfold class_keys. rewrite Hlin. cbn [mbind list_bind].
    rewrite elem_of_app. destruct Hk as [Hk|Hk]; [left|right; exact Hk].
    unfold keys_of. cbn. rewrite !elem_of_cons. tauto. }
  assert (forall k,
            (k = KCtor child \/ k = KName name \/ k = KName (shortName name)) ->
            (isClassOrSubclass (One k) (fresh child)).1 = inr true) as Hown.
  { intros k Hk. rewrite (isClassOrSubclass_cached child) by (left; reflexivity).
    cbn [fst test_keys existsb].
    rewrite (bool_decide_eq_true_2 _ (Hkeys k (or_introl Hk))). reflexivity. }
  split; [apply Hown; auto|]. split; [apply Hown; auto|]. split; [apply Hown; auto|].
  intros testClass.
  rewrite (isClassOrSubclass_cached parent) by (left; reflexivity).
  rewrite (isClassOrSubclass_cached child) by (left; reflexivity).
  cbn [fst]. intros H. injection H as H. f_equal.
  apply accepted_iff in H as (k & Hin & Hk). apply accepted_iff.
  exists k. split; [exact Hin|]. apply Hkeys. right. exact Hk.
Qed.

(** X23: the hop limit cuts the walk: a constructor that stands twenty or more
    steps up the chain is not in the class set, so an object is not
    recognised as an instance of it. *)
Theorem hop_limit_drops_far_ancestors
    (c ancestor : Ctor) (name : string) (j : nat) (this : Instance) :
  this = fresh c \/ this = populated c ->
  (20 <= j)%nat ->
  lineage (S j) c !! j = Some (ancestor, name) ->
  (isClassOrSubclass (One (KCtor ancestor)) this).1 = inr false.
Proof.
  intros Hthis Hj Hanc.
  rewrite (isClassOrSubclass_cached c this _ Hthis). cbn [fst test_keys existsb].
  rewrite bool_decide_eq_false_2; [reflexivity|].
  intros Hin. apply class_keys_spec in Hin as (c' & name' & Hv & Hk).
  destruct Hk as [Hk|[Hk|Hk]]; try discriminate. injection Hk as <-.
  apply list_elem_of_lookup_1 in Hv as (i & Hi).
  pose proof (lookup_lt_Some _ _ _ Hi) as Hlt.
  assert (length (lineage 20 c) <= 20)%nat as Hlen.
  { rewrite (lineage_take 20 (S j)) by lia. rewrite length_take. lia. }
  apply lineage_depth in Hi. apply lineage_depth in Hanc. lia.
Qed.

(** X24: [toString] never throws and never prints 'undefined': an object is
    printed under the short name its constructor answers with, or as
    'object' when that is undefined or empty, followed by a space and the
    string info when there is one. *)
Theorem toString_names_class (c : Ctor) (this : Instance) (stringInfo : string) :
  this = fresh c \/ this = populated c ->
  toString stringInfo this
  = (inr ("<" +:+ printed_name c
          +:+ (if String.eqb stringInfo "" then "" else " " +:+ stringInfo)
          +:+ ">")%string,
     populated c).
Proof.
  intros Hthis. unfold toString.
  assert (classes this
          = (Some (((fun v => shortName v.2) <$> lineage 20 c) ++ ["object"%string]),
             populated c)) as ->.
  { destruct Hthis as [-> | ->]; [apply classes_fresh|apply classes_populated]. }
  assert (match ((fun v => shortName v.2) <$> lineage 20 c) ++ ["object"%string] with
          | x :: _ => x
          | [] => "undefined"%string
          end = printed_name c) as ->.
  { unfold printed_name. cbn [lineage].
    destruct (className c) as [name|]; [|reflexivity].
    destruct (String.eqb name ""); reflexivity. }
  destruct (String.eqb stringInfo "") eqn:E; [|reflexivity].
  apply String.eqb_eq in E. subst stringInfo. reflexivity.
Qed.

Lemma classSet_members_witness :
  exists set names,
    classSet (fresh Fermata) = (Some set, populated Fermata)
    /\ classes (fresh Fermata) = (Some (names ++ ["object"%string]), populated Fermata)
    /\ (forall x, x ∈ names -> KName x ∈ set).
Proof.
  destruct (classSet_members Fermata (fresh Fermata) (or_introl eq_refl))
    as (set & names & H1 & _ & _ & H2 & H3 & _).
  exists set, names. split; [exact H1|]. split; [exact H2|exact H3].
Defined.

Lemma isClassOrSubclass_decides_witness :
  exists b,
    isClassOrSubclass (Many [KName "Duration"%string; KName "Expression"%string])
      (fresh Fermata)
    = (inr b, populated Fermata).
Proof.
  destruct (isClassOrSubclass_decides Fermata (fresh Fermata)
              (Many [KName "Duration"%string; KName "Expression"%string])
              (or_introl eq_refl)) as (b & H & _).
  exists b. exact H.
Defined.

Lemma subclass_keeps_parent_classes_witness :
  (isClassOrSubclass (One (KName "music21.base.Music21Object"%string))
     (fresh Fermata)).1
  = inr true.
Proof.
  refine (proj2 (proj2 (proj2
            (subclass_keeps_parent_classes "music21.expressions.Fermata"%string
               Expression _ _)))
            (One (KName "music21.base.Music21Object"%string)) _).
  - discriminate.
  - vm_compute. lia.
  - vm_compute. reflexivity.
Defined.

Lemma hop_limit_drops_far_ancestors_witness :
  (isClassOrSubclass (One (KCtor ProtoM21Object)) (fresh (tower 19))).1 = inr true
  /\ (isClassOrSubclass (One (KCtor ProtoM21Object)) (fresh (tower 20))).1 = inr false.
Proof.
  split; [vm_compute; reflexivity|].
  apply (hop_limit_drops_far_ancestors (tower 20) ProtoM21Object
           "music21.prebase.ProtoM21Object"%string 20 (fresh (tower 20))).
  - left. reflexivity.
  - lia.
  - vm_compute. reflexivity.
Defined.

Lemma toString_names_class_witness :
  toString "" (fresh Fermata) = (inr "<Fermata>"%string, populated Fermata).
Proof. exact (toString_names_class Fermata (fresh Fermata) "" (or_introl eq_refl)). Defined.

End ClassModel.

(* ====================================================================== *)
(** * What a clone shares and what it leaves alone *)
(* ====================================================================== *)

Module Cloning.
Import Prebase.

(** ** Data *)

(** The own properties of the object at a place; none when nothing is
    there. *)
Definition props_of (x : loc) (st : State) : list (string * Slot) :=
  match heap st !! x with
  | Some o => props o
  | None => []
  end.


(** From [st] to [st'] the heap has only grown: the objects below [n] are
    as they were, every object is still of its class, and the console has
    only been added to. *)
Definition grows (n : nat) (st st' : State) : Prop :=
  (length (heap st) <= length (heap st'))%nat
  /\ (forall i o, (i < n)%nat -> heap st !! i = Some o -> heap st' !! i = Some o)
  /\ (forall i o, heap st !! i = Some o ->
                  exists o', heap st' !! i = Some o'
                             /\ obj_constructor o' = obj_constructor o)
  /\ (exists more, console st' = console st ++ more).

(** A function of a [_cloneCallbacks] table keeps to its task when it
    leaves alone what was there before the clone began, and on the new
    object writes the field it was called for and no other. *)
Definition keeps_to_its_field
    (callback : nat -> string -> loc -> loc -> State -> Outcome State) : Prop :=
  forall f key ret this st st',
    callback f key ret this st = Return st' ->
    (forall n, (n <= ret)%nat -> grows n st st')
    /\ (forall k, k <> key ->
                  lookup_prop k (props_of ret st') = lookup_prop k (props_of ret st)).

(** What a nested call of [clone] is known to do. *)
Definition rec_grows (rec : loc -> State -> Outcome (loc * State)) : Prop :=
  forall l st r st',
    rec l st = Return (r, st') ->
    grows (length (heap st)) st st' /\ (length (heap st) <= r < length (heap st'))%nat.

(** A [ProtoM21Object] at 1 whose field [activeSite] is marked in its
    [_cloneCallbacks] table, as [this._cloneCallbacks.activeSite = b]
    does. *)
Definition marked_heap (b : bool) : list Obj :=
  [ mkObj Object [("activeSite"%string, Data (VBool b))];
    instance_at ProtoM21Object 0 [("activeSite"%string, Data (VNumber 7))] ].

(** ** Properties *)

Lemma grows_refl (n : nat) (st : State) : grows n st st.
Proof.
  repeat split; [lia|auto| |exists []; symmetry; apply app_nil_r].
  intros i o Hi. exists o. split; [exact Hi|reflexivity].
Qed.

Lemma grows_trans (n : nat) (st1 st2 st3 : State) :
  grows n st1 st2 -> grows n st2 st3 -> grows n st1 st3.
Proof.
  intros (Hl1 & Hk1 & Hc1 & more1 & Ho1) (Hl2 & Hk2 & Hc2 & more2 & Ho2).
  split; [lia|]. split; [|split].
  - intros i o Hi Ho. apply Hk2, Hk1; assumption.
  - intros i o Hi. destruct (Hc1 i o Hi) as (o1 & Hi1 & He1).
    destruct (Hc2 i o1 Hi1) as (o2 & Hi2 & He2).
    exists o2. split; [exact Hi2|congruence].
  - exists (more1 ++ more2). rewrite Ho2, Ho1, app_assoc. reflexivity.
Qed.

Lemma grows_le (n m : nat) (st st' : State) :
  (m <= n)%nat -> grows n st st' -> grows m st st'.
Proof.
  intros Hle (Hl & Hk & Hc & Ho). repeat split; try assumption.
  intros i o Hi. apply Hk. lia.
Qed.

Lemma grows_alloc (n : nat) (o : Obj) (st : State) :
  grows n st (alloc o st).2.
Proof.
  unfold alloc, grows. cbn [snd heap console].
  split; [rewrite length_app; lia|]. split; [|split].
  - intros i oi _ Hi. apply lookup_app_l_Some, Hi.
  - intros i oi Hi. exists oi. split; [apply lookup_app_l_Some, Hi|reflexivity].
  - exists []. symmetry. apply app_nil_r.
Qed.

Lemma grows_log (n : nat) (key : string) (st : State) : grows n st (log key st).
Proof.
  unfold log, grows. cbn [heap console]. split; [lia|]. split; [auto|]. split.
  - intros i o Hi. exists o. split; [exact Hi|reflexivity].
  - exists [key]. reflexivity.
Qed.



Lemma lookup_set_prop_eq (key : string) (slot : Slot) (ps : list (string * Slot)) :
  lookup_prop key (set_prop key slot ps) = Some slot.
Proof.
  unfold lookup_prop. induction ps as [|[k s] ps IH]; cbn.
  - rewrite String.eqb_refl. reflexivity.
  - destruct (String.eqb k key) eqn:E; cbn; rewrite E; [reflexivity|exact IH].
Qed.

Lemma lookup_set_prop_ne (k key : string) (slot : Slot) (ps : list (string * Slot)) :
  k <> key -> lookup_prop k (set_prop key slot ps) = lookup_prop k ps.
Proof.
  intros Hne. unfold lookup_prop. induction ps as [|[k0 s] ps IH]; cbn.
  - destruct (String.eqb_spec key k) as [->|_]; [contradiction|reflexivity].
  - destruct (String.eqb_spec k0 key) as [->|Hk0]; cbn.
    + destruct (String.eqb_spec key k) as [->|_]; [contradiction|reflexivity].
    + destruct (String.eqb k0 k); [reflexivity|exact IH].
Qed.



Lemma plain_value_read (slot : Slot) (st : State) (v : Value) :
  plain_value slot st = Some v -> read_slot slot = v.
Proof.
  unfold plain_value.
  destruct slot as [v0|v0|[g|] [|]]; cbn [read_slot]; try discriminate;
    try (destruct v0; try discriminate;
         destruct (is_m21_object _ st); intros [= <-]; reflexivity).
  cbn. intros [= <-]. reflexivity.
Qed.

Section Shallow.

Variable classDef : Ctor -> ClassDef.
Variable callback : nat -> string -> loc -> loc -> State -> Outcome State.



End Shallow.

Section Frame.

Variable classDef : Ctor -> ClassDef.
Variable callback : nat -> string -> loc -> loc -> State -> Outcome State.
Hypothesis callback_keeps : keeps_to_its_field callback.

Lemma put_grows (n x : nat) (key : string) (v : Value) (st st' : State) :
  (n <= x)%nat -> put classDef x key v st = Return st' -> grows n st st'.
Proof.
  intros Hx. unfold put.
  destruct (heap st !! x) as [o|] eqn:Ho; [|discriminate].
  destruct (put_trap (classDef (obj_constructor o)) key v); [discriminate|].
  assert (grows n st
            (mkState (<[x := mkObj (obj_constructor o)
                                   (set_prop key (Data v) (props o))]> (heap st))
                     (console st))) as Hins.
  { unfold grows. cbn [heap console].
    split; [rewrite length_insert; lia|]. split; [|split].
    - intros i oi Hi Hoi. rewrite list_lookup_insert_ne by lia. exact Hoi.
    - intros i oi Hoi. destruct (decide (x = i)) as [->|Hne].
      + rewrite list_lookup_insert_eq by (apply lookup_lt_Some in Hoi; exact Hoi).
        eexists. split; [reflexivity|]. cbn. congruence.
      + rewrite list_lookup_insert_ne by exact Hne.
        exists oi. split; [exact Hoi|reflexivity].
    - exists []. symmetry. apply app_nil_r. }
  destruct (lookup_prop key (props o)) as [[v0|v0|g [|]]|];
    intros H; try discriminate; injection H as <-;
    first [exact Hins|apply grows_refl].
Qed.

Lemma try_copy_grows (n ret : nat) (key : string) (v : Value) (st st' : State) :
  (n <= ret)%nat -> try_copy classDef ret key v st = Return st' -> grows n st st'.
Proof.
  intros Hret. unfold try_copy.
  destruct (put classDef ret key v st) as [st1|e| |] eqn:Hput; try discriminate.
  - intros [= <-]. exact (put_grows n ret key v st st1 Hret Hput).
  - destruct (instanceof_TypeError e); [|discriminate].
    intros [= <-]. apply grows_log.
Qed.

Lemma clone_default_grows (rec : loc -> State -> Outcome (loc * State))
    (memo : gmap loc Value) (n ret : nat) (key : string) (slot : Slot)
    (st st' : State) :
  rec_grows rec -> (n <= ret)%nat -> (n <= length (heap st))%nat ->
  clone_default classDef rec memo ret key slot st = Return st' ->
  grows n st st'.
Proof.
  intros Hrec Hret Hn. unfold clone_default.
  assert (forall v,
            match is_m21_object v st with
            | Some m21Obj =>
                '(clonedVersion, st0) ←
                  match memo !! m21Obj with
                  | Some cloned => Return (cloned, st)
                  | None => '(r, st0) ← rec m21Obj st; Return (VObject r, st0)
                  end;
                put classDef ret key clonedVersion st0
            | None => try_copy classDef ret key v st
            end = Return st' -> grows n st st') as Hgen.
  { intros v. destruct (is_m21_object v st) as [l|]; [|apply try_copy_grows, Hret].
    destruct (memo !! l) as [cloned|].
    - cbn. apply put_grows, Hret.
    - destruct (rec l st) as [[r st0]|e| |] eqn:Hr; cbn; try discriminate.
      intros Hput. destruct (Hrec l st r st0 Hr) as [Hg _].
      eapply grows_trans; [exact (grows_le _ n _ _ Hn Hg)|].
      exact (put_grows n ret key _ st0 st' Hret Hput). }
  destruct slot as [v|v|[g|] [|]]; cbn [read_slot];
    try (intros [= <-]; apply grows_refl);
    try (destruct v; try (intros [= <-]; apply grows_refl); apply Hgen).
  apply Hgen.
Qed.

Lemma clone_field_grows (rec : loc -> State -> Outcome (loc * State))
    (memo : gmap loc Value) (n this ret : nat) (key : string) (st st' : State) :
  rec_grows rec -> (n <= ret)%nat -> (n <= length (heap st))%nat ->
  clone_field classDef callback rec memo this ret key st = Return st' ->
  grows n st st'.
Proof.
  intros Hrec Hret Hn. unfold clone_field.
  destruct (heap st !! this) as [o|]; [|discriminate].
  destruct (lookup_prop key (props o)) as [slot|];
    [|intros [= <-]; apply grows_refl].
  destruct (cloneCallbacks_member this key st) as [[entry|[|]| |]|];
    try discriminate.
  - destruct (read_slot entry) as [| |[|]| | |f|]; try discriminate.
    + apply put_grows, Hret.
    + apply put_grows, Hret.
    + intros Hcb. exact (proj1 (callback_keeps f key ret this st st' Hcb) n Hret).
  - intros [= <-]. apply grows_refl.
  - apply clone_default_grows; assumption.
Qed.

Lemma clone_loop_grows (rec : loc -> State -> Outcome (loc * State))
    (memo : gmap loc Value) (n this ret : nat) (keys : list string) :
  rec_grows rec -> (n <= ret)%nat ->
  forall st st',
    (n <= length (heap st))%nat ->
    clone_loop classDef callback rec memo this ret keys st = Return st' ->
    grows n st st'.
Proof.
  intros Hrec Hret. induction keys as [|key keys IH]; intros st st' Hn.
  - intros [= <-]. apply grows_refl.
  - cbn [clone_loop].
    destruct (clone_field classDef callback rec memo this ret key st)
      as [st1|e| |] eqn:Hf; cbn; try discriminate.
    intros Hloop.
    pose proof (clone_field_grows rec memo n this ret key st st1 Hrec Hret Hn Hf) as Hg.
    eapply grows_trans; [exact Hg|]. apply IH; [|exact Hloop].
    destruct Hg as (Hl & _). lia.
Qed.

Lemma assign_all_grows (n target : nat) (source : list (string * Slot)) :
  (n <= target)%nat ->
  forall st st', assign_all classDef target source st = Return st' -> grows n st st'.
Proof.
  intros Htarget. induction source as [|[key slot] source IH]; intros st st'.
  - intros [= <-]. apply grows_refl.
  - cbn [assign_all].
    destruct (put classDef target key (read_slot slot) st) as [st1|e| |] eqn:Hput;
      cbn; try discriminate.
    intros Hrest. eapply grows_trans; [exact (put_grows n _ _ _ _ _ Htarget Hput)|].
    apply IH, Hrest.
Qed.

Lemma construct_grows (n : nat) (c : Ctor) (st : State) :
  grows n st (construct classDef c st).2
  /\ (construct classDef c st).1 = S (length (heap st))
  /\ length (heap (construct classDef c st).2) = S (S (length (heap st)))
  /\ exists o, heap (construct classDef c st).2 !! S (length (heap st)) = Some o
                /\ obj_constructor o = c.
Proof.
  unfold construct, alloc. cbn [fst snd heap console].
  split; [|split; [|split]].
  - unfold grows. cbn [heap console]. rewrite !length_app. cbn [length].
    split; [lia|]. split; [|split].
    + intros i o _ Hi. apply lookup_app_l_Some, lookup_app_l_Some, Hi.
    + intros i o Hi. exists o.
      split; [apply lookup_app_l_Some, lookup_app_l_Some, Hi|reflexivity].
    + exists []. symmetry. apply app_nil_r.
  - rewrite length_app. cbn. lia.
  - rewrite !length_app. cbn. lia.
  - eexists. split.
    + rewrite lookup_app_r by (rewrite length_app; cbn; lia).
      rewrite length_app. cbn [length].
      replace (S (length (heap st)) - (length (heap st) + 1))%nat with O by lia.
      reflexivity.
    + reflexivity.
Qed.

Lemma clone_grows (fuel : nat) :
  forall (deep : bool) (memo : option (gmap loc Value)) (this : loc)
         (st : State) (r : loc) (st' : State),
  clone classDef callback fuel deep memo this st = Return (r, st') ->
  grows (length (heap st)) st st'
  /\ (length (heap st) <= r < length (heap st'))%nat
  /\ exists o o', heap st !! this = Some o /\ heap st' !! r = Some o'
                  /\ obj_constructor o' = obj_constructor o.
Proof.
  induction fuel as [|fuel IH]; intros deep memo this st r st'; [discriminate|].
  cbn [clone]. destruct (heap st !! this) as [o|] eqn:Ho; [|discriminate].
  destruct deep; cbn [negb].
  - unfold classConstructor.
    destruct (lookup_prop "constructor" (props o)) as [slot|];
      [destruct (read_slot slot); discriminate|].
    cbn [mbind Outcome_bind].
    destruct (construct_grows (length (heap st)) (obj_constructor o) st)
      as (Hg0 & Hret & Hlen & o0 & Ho0 & Hc0).
    destruct (construct classDef (obj_constructor o) st) as [ret st0].
    cbn [fst snd] in *. subst ret.
    destruct (clone_loop classDef callback
                (clone classDef callback fuel true (Some (default ∅ memo)))
                (default ∅ memo) this (S (length (heap st))) (props o).*1 st0)
      as [st1|e| |] eqn:Hloop; cbn; try discriminate.
    intros [= <- <-].
    assert (grows (length (heap st)) st0 st1) as Hg1.
    { apply (clone_loop_grows
               (clone classDef callback fuel true (Some (default ∅ memo)))
               (default ∅ memo) (length (heap st)) this (S (length (heap st)))
               (props o).*1); [|lia|lia|exact Hloop].
      intros l s r' s' H. destruct (IH _ _ _ _ _ _ H) as (Hg & Hfresh & _).
      split; assumption. }
    split; [exact (grows_trans _ _ _ _ Hg0 Hg1)|].
    destruct Hg1 as (Hl1 & _ & Hc1 & _).
    split; [lia|].
    destruct (Hc1 _ _ Ho0) as (o1 & Ho1 & He1).
    exists o, o1. split; [reflexivity|]. split; [exact Ho1|congruence].
  - pose proof (grows_alloc (length (heap st)) (mkObj (obj_constructor o) []) st) as Hg0.
    unfold alloc in *. cbn [fst snd] in *.
    destruct (assign_all classDef (length (heap st)) (props o)
                (mkState (heap st ++ [mkObj (obj_constructor o) []]) (console st)))
      as [st1|e| |] eqn:Hassign; cbn; try discriminate.
    intros [= <- <-].
    pose proof (assign_all_grows (length (heap st)) (length (heap st)) (props o)
                  ltac:(lia) _ _ Hassign) as Hg1.
    split; [exact (grows_trans _ _ _ _ Hg0 Hg1)|].
    destruct Hg1 as (Hl1 & _ & Hc1 & _). cbn [heap] in Hl1.
    rewrite length_app in Hl1. cbn [length] in Hl1.
    split; [lia|].
    destruct (Hc1 (length (heap st)) (mkObj (obj_constructor o) []))
      as (o1 & Ho1 & He1).
    { cbn [heap]. apply list_lookup_middle. reflexivity. }
    exists o, o1. split; [reflexivity|]. split; [exact Ho1|exact He1].
Qed.


Lemma put_lookup_ne (x : nat) (k key : string) (v : Value) (st st' : State) :
  k <> key -> put classDef x key v st = Return st' ->
  lookup_prop k (props_of x st') = lookup_prop k (props_of x st).
Proof.
  intros Hne. unfold put, props_of.
  destruct (heap st !! x) as [o|] eqn:Ho; [|discriminate].
  destruct (put_trap (classDef (obj_constructor o)) key v); [discriminate|].
  assert (lookup_prop k
            (match <[x := mkObj (obj_constructor o) (set_prop key (Data v) (props o))]>
                     (heap st) !! x with
             | Some o' => props o'
             | None => []
             end) = lookup_prop k (props o)) as Hins.
  { rewrite list_lookup_insert_eq by (apply lookup_lt_Some in Ho; exact Ho).
    cbn [props]. apply lookup_set_prop_ne, Hne. }
  destruct (lookup_prop key (props o)) as [[v0|v0|g [|]]|];
    intros H; try discriminate; injection H as <-; cbn [heap];
    first [exact Hins|rewrite Ho; reflexivity].
Qed.

Lemma grows_props_of (n x : nat) (st st' : State) :
  grows n st st' -> (x < n)%nat -> (x < length (heap st))%nat ->
  props_of x st' = props_of x st.
Proof.
  intros (_ & Hk & _) Hx Hlen. unfold props_of.
  destruct (lookup_lt_is_Some_2 _ _ Hlen) as [o Ho].
  rewrite (Hk x o Hx Ho), Ho. reflexivity.
Qed.

Lemma clone_field_other (rec : loc -> State -> Outcome (loc * State))
    (memo : gmap loc Value) (this ret : nat) (k key : string) (st st' : State) :
  rec_grows rec -> (ret < length (heap st))%nat -> k <> key ->
  clone_field classDef callback rec memo this ret key st = Return st' ->
  lookup_prop k (props_of ret st') = lookup_prop k (props_of ret st).
Proof.
  intros Hrec Hret Hne. unfold clone_field.
  destruct (heap st !! this) as [o|]; [|discriminate].
  destruct (lookup_prop key (props o)) as [slot|]; [|intros [= <-]; reflexivity].
  destruct (cloneCallbacks_member this key st) as [[entry|[|]| |]|];
    try discriminate.
  - destruct (read_slot entry) as [| |[|]| | |f|]; try discriminate.
    + apply put_lookup_ne, Hne.
    + apply put_lookup_ne, Hne.
    + intros Hcb. exact (proj2 (callback_keeps f key ret this st st' Hcb) k Hne).
  - intros [= <-]. reflexivity.
  - unfold clone_default.
    assert (forall v,
              match is_m21_object v st with
              | Some m21Obj =>
                  '(clonedVersion, st0) ←
                    match memo !! m21Obj with
                    | Some cloned => Return (cloned, st)
                    | None => '(r, st0) ← rec m21Obj st; Return (VObject r, st0)
                    end;
                  put classDef ret key clonedVersion st0
              | None => try_copy classDef ret key v st
              end = Return st' ->
              lookup_prop k (props_of ret st') = lookup_prop k (props_of ret st))
      as Hgen.
    { intros v. destruct (is_m21_object v st) as [l|].
      - destruct (memo !! l) as [cloned|]; [cbn; apply put_lookup_ne, Hne|].
        destruct (rec l st) as [[r st0]|e| |] eqn:Hr; cbn; try discriminate.
        intros Hput. destruct (Hrec l st r st0 Hr) as [Hg _].
        rewrite (put_lookup_ne ret k key _ st0 st' Hne Hput).
        rewrite (grows_props_of _ ret st st0 Hg Hret Hret). reflexivity.
      - unfold try_copy.
        destruct (put classDef ret key v st) as [st1|e| |] eqn:Hput; try discriminate.
        + intros [= <-]. exact (put_lookup_ne ret k key v st st1 Hne Hput).
        + destruct (instanceof_TypeError e); [|discriminate].
          intros [= <-]. reflexivity. }
    destruct slot as [v|v|[g|] [|]]; cbn [read_slot];
      try (intros [= <-]; reflexivity);
      try (destruct v; try (intros [= <-]; reflexivity); apply Hgen).
    apply Hgen.
Qed.

Lemma clone_loop_other (rec : loc -> State -> Outcome (loc * State))
    (memo : gmap loc Value) (this ret : nat) (k : string) (keys : list string) :
  rec_grows rec -> k ∉ keys ->
  forall st st',
    (ret < length (heap st))%nat ->
    clone_loop classDef callback rec memo this ret keys st = Return st' ->
    lookup_prop k (props_of ret st') = lookup_prop k (props_of ret st).
Proof.
  intros Hrec. induction keys as [|key keys IH]; intros Hnot st st' Hret.
  - intros [= <-]. reflexivity.
  - apply not_elem_of_cons in Hnot as [Hne Hnot]. cbn [clone_loop].
    destruct (clone_field classDef callback rec memo this ret key st)
      as [st1|e| |] eqn:Hf; cbn; try discriminate.
    intros Hloop.
    pose proof (clone_field_grows rec memo 0 this ret key st st1 Hrec
                  ltac:(lia) ltac:(lia) Hf) as (Hl & _).
    rewrite (IH Hnot st1 st' ltac:(lia) Hloop).
    exact (clone_field_other rec memo this ret k key st st1 Hrec Hret Hne Hf).
Qed.

(** A deep clone that returns has taken one turn of its loop for each own
    key of the original: the turn for [k] ran in a state [st1] and left a
    state [st2]; before it nothing had touched the field [k] of the new
    object, and after it nothing did. *)
Lemma clone_at_key (fuel : nat) (memo : option (gmap loc Value)) (this : loc)
    (st : State) (o : Obj) (k : string) (r : loc) (st' : State) :
  heap st !! this = Some o ->
  NoDup (props o).*1 ->
  k ∈ (props o).*1 ->
  clone classDef callback (S fuel) true memo this st = Return (r, st') ->
  exists st1 st2,
    r = (construct classDef (obj_constructor o) st).1
    /\ r = S (length (heap st))
    /\ grows (length (heap st)) st st1
    /\ (r < length (heap st1))%nat
    /\ lookup_prop k (props_of r st1)
       = lookup_prop k (props_of r (construct classDef (obj_constructor o) st).2)
    /\ (exists r1, heap st1 !! r = Some r1 /\ obj_constructor r1 = obj_constructor o)
    /\ clone_field classDef callback
         (clone classDef callback fuel true (Some (default ∅ memo)))
         (default ∅ memo) this r k st1 = Return st2
    /\ lookup_prop k (props_of r st') = lookup_prop k (props_of r st2)
    /\ grows (length (heap st)) st2 st'
    /\ grows (length (heap st)) st st'.
Proof.
  intros Ho Hnd Hk Hclone.
  pose proof (clone_grows _ _ _ _ _ _ _ Hclone) as (Hgall & _).
  cbn [clone negb] in Hclone. rewrite Ho in Hclone.
  unfold classConstructor in Hclone.
  destruct (lookup_prop "constructor" (props o)) as [cslot|];
    [destruct (read_slot cslot); discriminate|].
  cbn [mbind Outcome_bind] in Hclone.
  destruct (construct_grows (length (heap st)) (obj_constructor o) st)
    as (Hg0 & Hret & Hlen & o0 & Ho0 & Hc0).
  destruct (construct classDef (obj_constructor o) st) as [ret st0].
  cbn [fst snd] in *. subst ret.
  set (m := default ∅ memo) in *.
  set (rec := clone classDef callback fuel true (Some m)) in *.
  assert (rec_grows rec) as Hrec.
  { intros l s r' s' H. destruct (clone_grows _ _ _ _ _ _ _ H) as (Hg & Hfresh & _).
    split; assumption. }
  apply list_elem_of_split in Hk as (keys1 & keys2 & Hkeys).
  rewrite Hkeys in Hclone, Hnd.
  apply NoDup_app in Hnd as (_ & Hdisj & Hnd2).
  apply NoDup_cons in Hnd2 as (Hnot2 & _).
  assert (k ∉ keys1) as Hnot1.
  { intros Hin. apply (Hdisj k Hin). apply list_elem_of_here. }
  rewrite clone_loop_app in Hclone.
  destruct (clone_loop classDef callback rec m this (S (length (heap st))) keys1 st0)
    as [st1|e| |] eqn:Hloop1; cbn in Hclone; try discriminate.
  destruct (clone_field classDef callback rec m this (S (length (heap st))) k st1)
    as [st2|e| |] eqn:Hfield; cbn in Hclone; try discriminate.
  destruct (clone_loop classDef callback rec m this (S (length (heap st))) keys2 st2)
    as [st3|e| |] eqn:Hloop2; cbn in Hclone; try discriminate.
  injection Hclone as <- <-.
  pose proof (clone_loop_grows rec m (length (heap st)) this (S (length (heap st)))
                keys1 Hrec ltac:(lia) st0 st1 ltac:(lia) Hloop1) as Hg1.
  pose proof Hg1 as (Hl1 & _ & Hc1 & _).
  pose proof (clone_field_grows rec m (length (heap st)) this (S (length (heap st)))
                k st1 st2 Hrec ltac:(lia) ltac:(lia) Hfield) as (Hl2 & _).
  exists st1, st2.
  split; [reflexivity|]. split; [reflexivity|].
  split; [exact (grows_trans _ _ _ _ Hg0 Hg1)|].
  split; [lia|].
  split; [exact (clone_loop_other rec m this (S (length (heap st))) k keys1 Hrec
                   Hnot1 st0 st1 ltac:(lia) Hloop1)|].
  split.
  { destruct (Hc1 _ _ Ho0) as (r1 & Hr1 & He1). exists r1. split; [exact Hr1|congruence]. }
  split; [exact Hfield|].
  split; [|split; [|exact Hgall]].
  - exact (clone_loop_other rec m this (S (length (heap st))) k keys2 Hrec Hnot2
             st2 st3 ltac:(lia) Hloop2).
  - exact (clone_loop_grows rec m (length (heap st)) this (S (length (heap st)))
             keys2 Hrec ltac:(lia) st2 st3 ltac:(lia) Hloop2).
Qed.

Lemma get_prop_props_of (x : loc) (key : string) (st : State) :
  get_prop x key st = default VUndefined (read_slot <$> lookup_prop key (props_of x st)).
Proof. unfold get_prop, props_of. destruct (heap st !! x); reflexivity. Qed.

Lemma grows_lookup (n x : nat) (st st' : State) (o : Obj) :
  grows n st st' -> (n <= length (heap st))%nat -> (n = length (heap st)) ->
  heap st !! x = Some o -> heap st' !! x = Some o.
Proof.
  intros (_ & Hk & _) _ Hn Ho. apply Hk; [|exact Ho].
  apply lookup_lt_Some in Ho. lia.
Qed.

Lemma grows_get_prop (x : nat) (key : string) (st st' : State) :
  grows (length (heap st)) st st' -> (x < length (heap st))%nat ->
  get_prop x key st' = get_prop x key st.
Proof.
  intros Hg Hx. rewrite !get_prop_props_of.
  rewrite (grows_props_of _ x st st' Hg Hx Hx). reflexivity.
Qed.

Lemma grows_is_m21_object (v : Value) (st st' : State) :
  grows (length (heap st)) st st' ->
  (forall l, v = VObject l -> (l < length (heap st))%nat) ->
  is_m21_object v st' = is_m21_object v st.
Proof.
  intros Hg Hv. destruct v as [| | | | | |l]; try reflexivity.
  unfold is_m21_object. rewrite (grows_get_prop l _ st st' Hg (Hv l eq_refl)).
  reflexivity.
Qed.

Lemma grows_plain_value (slot : Slot) (v : Value) (st st' : State) :
  grows (length (heap st)) st st' ->
  (forall l, v = VObject l -> (l < length (heap st))%nat) ->
  plain_value slot st = Some v -> plain_value slot st' = Some v.
Proof.
  intros Hg Hv Hplain. unfold plain_value in *.
  destruct slot as [v0|v0|[g|] [|]]; cbn [read_slot] in *; try discriminate;
    try exact Hplain.
  all: destruct v0 as [| | | | | |l]; try discriminate; try exact Hplain.
  all: destruct (is_m21_object (VObject l) st) eqn:E; [discriminate|].
  all: injection Hplain as <-.
  all: rewrite (grows_is_m21_object (VObject l) st st' Hg Hv), E; reflexivity.
Qed.

(** What [in] finds in the table of an object that was there before does
    not change while the heap only grows. *)
Lemma grows_cloneCallbacks_member (this : loc) (key : string) (m : Member)
    (st st' : State) :
  grows (length (heap st)) st st' ->
  (this < length (heap st))%nat ->
  cloneCallbacks_member this key st = Some m ->
  m <> Unknown ->
  cloneCallbacks_member this key st' = Some m.
Proof.
  intros Hg Hthis Hm Hknown. unfold cloneCallbacks_member in *.
  rewrite (grows_get_prop this _ st st' Hg Hthis).
  destruct (get_prop this "_cloneCallbacks" st) as [| | | | | |table];
    try exact Hm; try congruence.
  destruct (heap st !! table) as [t|] eqn:Ht; [|congruence].
  rewrite (grows_lookup _ table st st' t Hg ltac:(lia) eq_refl Ht). exact Hm.
Qed.

Lemma cloneCallbacks_member_Own (this table : loc) (t : Obj) (key : string)
    (entry : Slot) (st : State) :
  get_prop this "_cloneCallbacks" st = VObject table ->
  heap st !! table = Some t ->
  lookup_prop key (props t) = Some entry ->
  cloneCallbacks_member this key st = Some (Own entry).
Proof.
  intros Hget Ht Hentry. unfold cloneCallbacks_member.
  rewrite Hget, Ht, Hentry. reflexivity.
Qed.

Lemma lookup_prop_Some_elem (key : string) (ps : list (string * Slot)) (s : Slot) :
  lookup_prop key ps = Some s -> key ∈ ps.*1.
Proof.
  unfold lookup_prop. induction ps as [|[k0 s0] ps IH]; [discriminate|].
  cbn. destruct (String.eqb_spec k0 key) as [->|_].
  - intros _. apply list_elem_of_here.
  - intros H. apply list_elem_of_further, IH, H.
Qed.

(** A store into a field of the new object that the constructor left
    absent or as a writable data property, and that the class does not
    reject, succeeds and writes the field. *)
Lemma put_writable (r : loc) (k : string) (v : Value) (st1 : State) (r1 : Obj) :
  heap st1 !! r = Some r1 ->
  put_trap (classDef (obj_constructor r1)) k v = None ->
  (forall s, lookup_prop k (props r1) = Some s -> exists v0, s = Data v0) ->
  exists st2,
    put classDef r k v st1 = Return st2
    /\ lookup_prop k (props_of r st2) = Some (Data v).
Proof.
  intros Hr1 Htrap Hw. unfold put. rewrite Hr1, Htrap.
  assert (lookup_prop k
            (props_of r (mkState (<[r := mkObj (obj_constructor r1)
                                               (set_prop k (Data v) (props r1))]>
                                    (heap st1)) (console st1)))
          = Some (Data v)) as Hins.
  { unfold props_of. cbn [heap].
    rewrite list_lookup_insert_eq by (apply lookup_lt_Some in Hr1; exact Hr1).
    cbn [props]. apply lookup_set_prop_eq. }
  destruct (lookup_prop k (props r1)) as [s|] eqn:Hs.
  - destruct (Hw s eq_refl) as [v0 ->]. eexists. split; [reflexivity|exact Hins].
  - eexists. split; [reflexivity|exact Hins].
Qed.


(** X27: a deep clone is not deep for what is not a [ProtoM21Object]: a field
    for which [key in this._cloneCallbacks] is false (no entry of the
    table, and none of the names a table inherits) and whose value is
    neither a function nor a nested [ProtoM21Object] comes out with the
    very value the original holds, so an array or a plain object in it is
    shared by the two.  The field has to be one the constructor leaves
    absent or writable, with a store the class does not reject; the
    functions in the [_cloneCallbacks] tables are supposed to keep to the
    field of the new object they are called for. *)
Theorem deep_clone_shares_plain_values
    (fuel : nat) (memo : option (gmap loc Value)) (this : loc) (st : State)
    (o : Obj) (k : string) (slot : Slot) (v : Value)
    (r : loc) (st' : State) :
  heap st !! this = Some o ->
  NoDup (props o).*1 ->
  lookup_prop k (props o) = Some slot ->
  plain_value slot st = Some v ->
  (forall l, v = VObject l -> (l < length (heap st))%nat) ->
  cloneCallbacks_member this k st = Some Absent ->
  (forall s,
     lookup_prop k (props_of (construct classDef (obj_constructor o) st).1
                             (construct classDef (obj_constructor o) st).2) = Some s ->
     exists v0, s = Data v0) ->
  put_trap (classDef (obj_constructor o)) k v = None ->
  clone classDef callback (S fuel) true memo this st = Return (r, st') ->
  get_prop r k st' = v /\ get_prop this k st' = v /\ r <> this.
Proof.
  intros Ho Hnd Hslot Hplain Hv Hentry Hw Htrap Hclone.
  pose proof (lookup_lt_Some _ _ _ Ho) as Hthis.
  destruct (clone_at_key fuel memo this st o k r st' Ho Hnd
              (lookup_prop_Some_elem _ _ _ Hslot) Hclone)
    as (st1 & st2 & Hr & Hrn & Hg1 & Hlt & Hlook1 & (r1 & Hr1 & Hc1) & Hfield
        & Hlook2 & _ & Hgall).
  rewrite (clone_field_plain classDef callback _ _ this r k st1 o slot v
             (grows_lookup _ _ _ _ _ Hg1 ltac:(lia) eq_refl Ho) Hslot
             (grows_cloneCallbacks_member this k Absent st st1 Hg1 Hthis Hentry
                ltac:(discriminate))
             (grows_plain_value slot v st st1 Hg1 Hv Hplain)) in Hfield.
  destruct (put_writable r k v st1 r1 Hr1) as (st2' & Hput & Hdone).
  { rewrite Hc1. exact Htrap. }
  { intros s Hs. apply Hw. rewrite <- Hr, <- Hlook1. unfold props_of.
    rewrite Hr1. exact Hs. }
  unfold try_copy in Hfield. rewrite Hput in Hfield. injection Hfield as <-.
  split; [|split].
  - rewrite get_prop_props_of, Hlook2, Hdone. reflexivity.
  - rewrite (grows_get_prop this k st st' Hgall Hthis). unfold get_prop.
    rewrite Ho, Hslot. cbn. exact (plain_value_read slot st v Hplain).
  - lia.
Qed.

(** X28: a field marked in [_cloneCallbacks]: with [true] the clone gets the
    value of the original as it is, a nested [ProtoM21Object] included,
    which is then shared and not cloned; with [false] the clone gets
    [undefined].  The field has to be one the constructor leaves absent or
    writable, with stores the class does not reject, and not the name
    [__proto__], which an assignment does not store as a property; the
    functions in the [_cloneCallbacks] tables are supposed to keep to the
    field of the new object they are called for. *)
Theorem deep_clone_follows_the_table
    (fuel : nat) (memo : option (gmap loc Value)) (this : loc) (st : State)
    (o : Obj) (k : string) (slot entry : Slot) (b : bool) (table : loc) (t : Obj)
    (r : loc) (st' : State) :
  heap st !! this = Some o ->
  NoDup (props o).*1 ->
  lookup_prop k (props o) = Some slot ->
  get_prop this "_cloneCallbacks" st = VObject table ->
  heap st !! table = Some t ->
  lookup_prop k (props t) = Some entry ->
  read_slot entry = VBool b ->
  k <> "__proto__"%string ->
  (forall s,
     lookup_prop k (props_of (construct classDef (obj_constructor o) st).1
                             (construct classDef (obj_constructor o) st).2) = Some s ->
     exists v0, s = Data v0) ->
  (forall v, put_trap (classDef (obj_constructor o)) k v = None) ->
  clone classDef callback (S fuel) true memo this st = Return (r, st') ->
  get_prop r k st' = (if b then read_slot slot else VUndefined)
  /\ get_prop this k st' = read_slot slot.
Proof.
  intros Ho Hnd Hslot Htable Ht Hentry Hb _ Hw Htrap Hclone.
  pose proof (lookup_lt_Some _ _ _ Ho) as Hthis.
  destruct (clone_at_key fuel memo this st o k r st' Ho Hnd
              (lookup_prop_Some_elem _ _ _ Hslot) Hclone)
    as (st1 & st2 & Hr & Hrn & Hg1 & Hlt & Hlook1 & (r1 & Hr1 & Hc1) & Hfield
        & Hlook2 & _ & Hgall).
  unfold clone_field in Hfield.
  rewrite (grows_lookup _ _ _ _ _ Hg1 ltac:(lia) eq_refl Ho), Hslot in Hfield.
  rewrite (grows_cloneCallbacks_member this k (Own entry) st st1 Hg1 Hthis
             (cloneCallbacks_member_Own this table t k entry st Htable Ht Hentry)
             ltac:(discriminate)), Hb in Hfield.
  destruct (put_writable r k (if b then read_slot slot else VUndefined) st1 r1 Hr1)
    as (st2' & Hput & Hdone).
  { rewrite Hc1. apply Htrap. }
  { intros s Hs. apply Hw. rewrite <- Hr, <- Hlook1. unfold props_of.
    rewrite Hr1. exact Hs. }
  assert (st2 = st2') as <-.
  { destruct b; rewrite Hput in Hfield; injection Hfield as <-; reflexivity. }
  split.
  - rewrite get_prop_props_of, Hlook2, Hdone. reflexivity.
  - rewrite (grows_get_prop this k st st' Hgall Hthis). unfold get_prop.
    rewrite Ho, Hslot. reflexivity.
Qed.

(** X29: a field that holds a nested [ProtoM21Object] and for which
    [key in this._cloneCallbacks] is false (no entry of the table, and none
    of the names a table inherits): when the memo knows the nested object,
    the clone gets what the memo holds for it; otherwise the clone gets a
    clone of the nested object, a new object of the same class, while the
    original goes on holding its own.  The field has to be one the
    constructor leaves absent or writable, with stores the class does not
    reject; the functions in the [_cloneCallbacks] tables are supposed to
    keep to the field of the new object they are called for. *)
Theorem deep_clone_clones_nested
    (fuel : nat) (memo : option (gmap loc Value)) (this : loc) (st : State)
    (o : Obj) (k : string) (nested : loc)
    (r : loc) (st' : State) :
  heap st !! this = Some o ->
  NoDup (props o).*1 ->
  lookup_prop k (props o) = Some (Data (VObject nested)) ->
  is_m21_object (VObject nested) st = Some nested ->
  cloneCallbacks_member this k st = Some Absent ->
  (forall s,
     lookup_prop k (props_of (construct classDef (obj_constructor o) st).1
                             (construct classDef (obj_constructor o) st).2) = Some s ->
     exists v0, s = Data v0) ->
  (forall v, put_trap (classDef (obj_constructor o)) k v = None) ->
  clone classDef callback (S fuel) true memo this st = Return (r, st') ->
  match default ∅ memo !! nested with
  | Some cloned => get_prop r k st' = cloned
  | None =>
      exists r' n n',
        get_prop r k st' = VObject r'
        /\ heap st !! r' = None
        /\ r' <> r
        /\ heap st !! nested = Some n
        /\ heap st' !! r' = Some n'
        /\ obj_constructor n' = obj_constructor n
  end
  /\ get_prop this k st' = VObject nested.
Proof.
  intros Ho Hnd Hslot Hm21 Hentry Hw Htrap Hclone.
  pose proof (lookup_lt_Some _ _ _ Ho) as Hthis.
  assert (exists n, heap st !! nested = Some n) as [n Hn].
  { unfold is_m21_object, get_prop in Hm21.
    destruct (heap st !! nested) as [n|]; [exists n; reflexivity|discriminate]. }
  pose proof (lookup_lt_Some _ _ _ Hn) as Hnested.
  destruct (clone_at_key fuel memo this st o k r st' Ho Hnd
              (lookup_prop_Some_elem _ _ _ Hslot) Hclone)
    as (st1 & st2 & Hr & Hrn & Hg1 & Hlt & Hlook1 & (r1 & Hr1 & Hc1) & Hfield
        & Hlook2 & Hg2 & Hgall).
  split.
  2: { rewrite (grows_get_prop this k st st' Hgall Hthis). unfold get_prop.
       rewrite Ho, Hslot. reflexivity. }
  unfold clone_field in Hfield.
  rewrite (grows_lookup _ _ _ _ _ Hg1 ltac:(lia) eq_refl Ho), Hslot in Hfield.
  rewrite (grows_cloneCallbacks_member this k Absent st st1 Hg1 Hthis Hentry
             ltac:(discriminate)) in Hfield.
  unfold clone_default in Hfield. cbn [read_slot] in Hfield.
  rewrite (grows_is_m21_object (VObject nested) st st1 Hg1) in Hfield
    by (intros l [= <-]; exact Hnested).
  rewrite Hm21 in Hfield.
  assert (forall s, lookup_prop k (props r1) = Some s -> exists v0, s = Data v0) as Hw1.
  { intros s Hs. apply Hw. rewrite <- Hr, <- Hlook1. unfold props_of.
    rewrite Hr1. exact Hs. }
  destruct (default ∅ memo !! nested) as [cloned|].
  - cbn [mbind Outcome_bind] in Hfield.
    destruct (put_writable r k cloned st1 r1 Hr1) as (st2' & Hput & Hdone);
      [rewrite Hc1; apply Htrap|exact Hw1|].
    rewrite Hput in Hfield. injection Hfield as <-.
    rewrite get_prop_props_of, Hlook2, Hdone. reflexivity.
  - destruct (clone classDef callback fuel true (Some (default ∅ memo)) nested st1)
      as [[r' st1']|e| |] eqn:Hrec; cbn [mbind Outcome_bind] in Hfield;
      try discriminate.
    destruct (clone_grows fuel true _ nested st1 r' st1' Hrec)
      as (Hgr & Hfresh & n1 & n' & Hn1 & Hn' & Hctor).
    pose proof Hg1 as (Hl1 & _).
    assert (heap st1' !! r = Some r1) as Hr1'.
    { destruct Hgr as (_ & Hk & _). apply Hk; [lia|exact Hr1]. }
    destruct (put_writable r k (VObject r') st1' r1 Hr1') as (st2' & Hput & Hdone);
      [rewrite Hc1; apply Htrap|exact Hw1|].
    rewrite Hput in Hfield. injection Hfield as Heq. subst st2'.
    pose proof (put_grows 0 r k (VObject r') st1' st2 ltac:(lia) Hput)
      as (_ & _ & Hkeep2 & _).
    destruct (Hkeep2 _ _ Hn') as (n2 & Hn2 & Hctor2).
    destruct Hg2 as (_ & _ & Hkeep3 & _).
    destruct (Hkeep3 _ _ Hn2) as (n3 & Hn3 & Hctor3).
    rewrite (grows_lookup _ _ _ _ _ Hg1 ltac:(lia) eq_refl Hn) in Hn1.
    injection Hn1 as <-.
    exists r', n, n3.
    split; [rewrite get_prop_props_of, Hlook2, Hdone; reflexivity|].
    split; [apply lookup_ge_None; lia|].
    split; [lia|]. split; [exact Hn|]. split; [exact Hn3|congruence].
Qed.

End Frame.

Lemma no_callback_keeps : keeps_to_its_field no_callback.
Proof.
  intros f key ret this st st' [= <-]. split; [intros n _; apply grows_refl|].
  intros k _. reflexivity.
Qed.



Lemma deep_clone_shares_plain_values_witness :
  exists st',
    clone sample_classDef no_callback 2 true None 1%nat (mkState nested_heap [])
    = Return (5%nat, st')
    /\ get_prop 5%nat "_cloneCallbacks" st' = VObject 0%nat
    /\ get_prop 1%nat "_cloneCallbacks" st' = VObject 0%nat.
Proof.
  assert (exists st',
            clone sample_classDef no_callback 2 true None 1%nat
                  (mkState nested_heap [])
            = Return (5%nat, st')) as [st' H]
    by (eexists; vm_compute; reflexivity).
  exists st'. split; [exact H|].
  destruct (deep_clone_shares_plain_values sample_classDef no_callback
              no_callback_keeps 1 None 1%nat (mkState nested_heap [])
              (instance_at Link 0 [("other"%string, Data (VObject 3))])
              "_cloneCallbacks"%string (Data (VObject 0%nat)) (VObject 0%nat)
              5%nat st')
    as (Hr & Hthis & _); try reflexivity; try exact H.
  - apply (bool_decide_unpack _). vm_compute. exact I.
  - intros l [= <-]. cbn. lia.
  - intros s Hs. vm_compute in Hs. injection Hs as <-. eexists. reflexivity.
  - split; assumption.
Defined.

Lemma deep_clone_follows_the_table_witness :
  exists st',
    clone sample_classDef no_callback 1 true None 1%nat (mkState (marked_heap false) [])
    = Return (3%nat, st')
    /\ get_prop 3%nat "activeSite" st' = VUndefined
    /\ get_prop 1%nat "activeSite" st' = VNumber 7.
Proof.
  assert (exists st',
            clone sample_classDef no_callback 1 true None 1%nat
                  (mkState (marked_heap false) [])
            = Return (3%nat, st')) as [st' H]
    by (eexists; vm_compute; reflexivity).
  exists st'. split; [exact H|].
  apply (deep_clone_follows_the_table sample_classDef no_callback no_callback_keeps
           0 None 1%nat (mkState (marked_heap false) [])
           (instance_at ProtoM21Object 0 [("activeSite"%string, Data (VNumber 7))])
           "activeSite"%string (Data (VNumber 7)) (Data (VBool false)) false
           0%nat (mkObj Object [("activeSite"%string, Data (VBool false))])
           3%nat st'); try reflexivity; try exact H.
  - apply (bool_decide_unpack _). vm_compute. exact I.
  - discriminate.
  - intros s Hs. vm_compute in Hs. discriminate Hs.
Defined.

Lemma deep_clone_clones_nested_witness :
  exists st' r',
    clone sample_classDef no_callback 2 true None 1%nat (mkState nested_heap [])
    = Return (5%nat, st')
    /\ get_prop 5%nat "other" st' = VObject r'
    /\ nested_heap !! r' = None
    /\ get_prop 1%nat "other" st' = VObject 3%nat.
Proof.
  assert (exists st',
            clone sample_classDef no_callback 2 true None 1%nat
                  (mkState nested_heap [])
            = Return (5%nat, st')) as [st' H]
    by (eexists; vm_compute; reflexivity).
  destruct (deep_clone_clones_nested sample_classDef no_callback no_callback_keeps
              1 None 1%nat (mkState nested_heap [])
              (instance_at Link 0 [("other"%string, Data (VObject 3))])
              "other"%string 3%nat 5%nat st')
    as (Hnew & Hold); try reflexivity; try exact H.
  - apply (bool_decide_unpack _). vm_compute. exact I.
  - intros s Hs. vm_compute in Hs. injection Hs as <-. eexists. reflexivity.
  - cbn [default] in Hnew. rewrite lookup_empty in Hnew.
    destruct Hnew as (r' & n & n' & Hget & Hfresh & _).
    exists st', r'. split; [exact H|]. split; [exact Hget|].
    split; [exact Hfresh|exact Hold].
Defined.

End Cloning.
